(** * pgsync: the change-propagation core, embedded in Rocq

    A shallow embedding of [pgsync/checkpoint.py] and of the resolver,
    consumer and slot-draining code of [pgsync/sync.py], together with the
    properties of the specification that concern them.

    Python values are modelled as follows: [int] as [Z], [str] as [string]
    (ASCII range; the sync name uses code points), [None]-able values as
    [option], dictionaries with string keys as [gmap string _], dictionaries
    with a fixed key set (bulk documents) as records, exceptions as the
    [Raise] case of [result]. *)

From Stdlib Require Import ZArith Ascii String List Lia Bool.
From Stdlib Require Import Decimal DecimalString DecimalZ DecimalFacts.
From stdpp Require Import base option list gmap strings fin_maps.

Local Open Scope string_scope.
Local Open Scope list_scope.

(** ** Python runtime: exceptions, [str(int)] and [int(str)] *)

Module Py.

Inductive exn :=
| ValueError | KeyError | TypeError | IndexError | AttributeError
| RuntimeError | OSError
| PrimaryKeyNotFoundError | ForeignKeyError | InvalidTGOPError.

Inductive result (A : Type) :=
| Ok (a : A)
| Raise (e : exn).
Arguments Ok {A} a.
Arguments Raise {A} e.

Definition is_ok {A} (r : result A) : bool :=
  match r with Ok _ => true | Raise _ => false end.

(** [sys.get_int_max_str_digits()]: the number of digits above which
    [str(int)] and [int(str)] raise [ValueError]; [0] disables the limit
    (CPython's default is 4300). *)
Definition default_int_max_str_digits : nat := 4300.

Definition over_limit (max_digits ndigits : nat) : bool :=
  negb (Nat.eqb max_digits 0) && Nat.ltb max_digits ndigits.

(** [str(v)] for an [int]: the decimal digits, with a leading minus sign
    for negative numbers. *)
Definition str_int (max_digits : nat) (v : Z) : result string :=
  let d := Z.to_int v in
  let u := match d with Pos u => u | Neg u => u end in
  if over_limit max_digits (String.length (NilZero.string_of_uint u))
  then Raise ValueError
  else Ok (NilZero.string_of_int d).

Definition is_digit (c : ascii) : bool :=
  let n := nat_of_ascii c in Nat.leb 48 n && Nat.leb n 57.

(** The white space [int()] skips at both ends of an ASCII string:
    TAB..CR and the space (the separators FS..US are not skipped). *)
Definition is_space (c : ascii) : bool :=
  let n := nat_of_ascii c in
  (Nat.leb 9 n && Nat.leb n 13) || Nat.eqb n 32.

Fixpoint lstrip (s : string) : string :=
  match s with
  | String c r => if is_space c then lstrip r else s
  | EmptyString => EmptyString
  end.

Fixpoint rstrip (s : string) : string :=
  match s with
  | String c r =>
      match rstrip r with
      | EmptyString => if is_space c then EmptyString else String c EmptyString
      | r' => String c r'
      end
  | EmptyString => EmptyString
  end.

Definition strip (s : string) : string := rstrip (lstrip s).

Fixpoint all_chars (P : ascii -> bool) (s : string) : bool :=
  match s with
  | String c r => P c && all_chars P r
  | EmptyString => true
  end.

(** The digit part of an integer literal: digits, with single underscores
    allowed between two digits.  [prev_us] records that the previous
    character was an underscore (or that no character was read yet).  The
    result is the literal with the underscores removed. *)
Fixpoint scan_digits (prev_us : bool) (s : string) : option string :=
  match s with
  | EmptyString => if prev_us then None else Some EmptyString
  | String c r =>
      if Ascii.eqb c "_" then
        if prev_us then None else scan_digits true r
      else if is_digit c then
        match scan_digits false r with
        | Some ds => Some (String c ds)
        | None => None
        end
      else None
  end.

Definition split_sign (s : string) : bool * string :=
  match s with
  | String c r =>
      if Ascii.eqb c "-" then (true, r)
      else if Ascii.eqb c "+" then (false, r)
      else (false, s)
  | EmptyString => (false, s)
  end.

(** [int(s)] for a [str] of ASCII characters, base 10. *)
Definition int_of_str (max_digits : nat) (s : string) : result Z :=
  let '(neg, body) := split_sign (strip s) in
  match scan_digits true body with
  | None => Raise ValueError
  | Some ds =>
      if over_limit max_digits (String.length ds) then Raise ValueError
      else match NilEmpty.uint_of_string ds with
           | Some u => Ok (if neg then (- Z.of_uint u)%Z else Z.of_uint u)
           | None => Raise ValueError
           end
  end.

End Py.

Import Py.

(** ** checkpoint.py *)

Module Checkpoint.

(** The part of the file system the file backend touches: the content of
    each existing file, and the paths [open(path, "w")] fails on (missing
    or read-only directory). *)
Record filesystem := {
  files : gmap string string;
  denied : gset string
}.

Definition write_file (path content : string) (fs : filesystem) : filesystem :=
  {| files := <[path := content]> (files fs); denied := denied fs |}.


(** [os.path.join(a, b)] for a relative [b]. *)
Definition path_join (a b : string) : string :=
  match String.length a with
  | O => b
  | S n => if String.eqb (String.substring n 1 a) "/" then a +:+ b
           else a +:+ "/" +:+ b
  end.

Record FileCheckpoint := {
  _checkpoint : option Z;
  _checkpoint_file : string
}.

Record RedisCheckpoint := {
  _key : string
}.

Section Backends.

(** [settings.CHECKPOINT_PATH], [settings.CHECKPOINT_REDIS_NAMESPACE] and
    the interpreter's digit limit for [int]/[str] conversions. *)
Variable CHECKPOINT_PATH : string.
Variable CHECKPOINT_REDIS_NAMESPACE : string.
Variable int_max_str_digits : nat.

Definition FileCheckpoint_init (name : string) : FileCheckpoint :=
  {| _checkpoint := None;
     _checkpoint_file := path_join CHECKPOINT_PATH ("." +:+ name) |}.

(** [FileCheckpoint.set_value]: the file is opened (and so truncated)
    before [str(value)] is evaluated. *)
Definition FileCheckpoint_set_value (value : option Z)
    (self : FileCheckpoint) (fs : filesystem)
  : result unit * FileCheckpoint * filesystem :=
  match value with
  | None => (Raise ValueError, self, fs)
  | Some v =>
      let path := _checkpoint_file self in
      if decide (path ∈ denied fs) then (Raise OSError, self, fs)
      else
        let fs1 := write_file path "" fs in
        match str_int int_max_str_digits v with
        | Raise e => (Raise e, self, fs1)
        | Ok s =>
            (Ok tt,
             {| _checkpoint := Some v; _checkpoint_file := path |},
             write_file path s fs1)
        end
  end.

Definition FileCheckpoint_get_value (self : FileCheckpoint) (fs : filesystem)
  : result (option Z) * FileCheckpoint :=
  match files fs !! _checkpoint_file self with
  | Some content =>
      match int_of_str int_max_str_digits content with
      | Ok n =>
          (Ok (Some n),
           {| _checkpoint := Some n;
              _checkpoint_file := _checkpoint_file self |})
      | Raise e => (Raise e, self)
      end
  | None => (Ok (_checkpoint self), self)
  end.


Definition RedisCheckpoint_init (name : string) : RedisCheckpoint :=
  {| _key := CHECKPOINT_REDIS_NAMESPACE +:+ ":" +:+ name |}.

(** The shared store maps keys to strings; the client sends an [int] as
    its decimal representation. *)
Definition RedisCheckpoint_set_value (value : option Z)
    (self : RedisCheckpoint) (store : gmap string string)
  : result unit * gmap string string :=
  match value with
  | None => (Raise ValueError, store)
  | Some v =>
      match str_int int_max_str_digits v with
      | Raise e => (Raise e, store)
      | Ok s => (Ok tt, <[_key self := s]> store)
      end
  end.

Definition RedisCheckpoint_get_value (self : RedisCheckpoint)
    (store : gmap string string) : result (option Z) :=
  match store !! _key self with
  | Some value =>
      match int_of_str int_max_str_digits value with
      | Ok n => Ok (Some n)
      | Raise e => Raise e
      end
  | None => Ok None
  end.

Definition RedisCheckpoint_teardown (self : RedisCheckpoint)
    (store : gmap string string) : gmap string string :=
  delete (_key self) store.

End Backends.

(** A checkpoint directory holding the checkpoint 100 of the sync
    [book_book]. *)
Definition example_checkpoint : FileCheckpoint :=
  FileCheckpoint_init "/var/lib/pgsync" "book_book".

Definition example_fs : filesystem :=
  {| files := {[ "/var/lib/pgsync/.book_book" := "100" ]}; denied := ∅ |}.

End Checkpoint.

(** ** sync.py: the name of a sync ([Sync.__init__]) *)

Module SyncName.

(** A Python [str] as its sequence of Unicode code points. *)
Definition pystr := list N.

Definition of_ascii_string (s : string) : pystr :=
  map N_of_ascii (list_ascii_of_string s).

(** Membership in the character class [0-9a-zA-Z_]. *)
Definition in_class (c : N) : bool :=
  ((48 <=? c) && (c <=? 57) || (97 <=? c) && (c <=? 122)
   || (65 <=? c) && (c <=? 90) || (c =? 95))%N.

(** [re.sub("[^0-9a-zA-Z_]+", "", s)]: every maximal run of characters
    outside the class is replaced by the empty string. *)
Definition re_sub_non_word (s : pystr) : pystr := List.filter in_class s.

(** Number of bytes of the UTF-8 encoding. *)
Definition utf8_len (c : N) : nat :=
  if (c <? 128)%N then 1 else if (c <? 2048)%N then 2
  else if (c <? 65536)%N then 3 else 4.

Definition byte_length (s : pystr) : nat :=
  fold_right (fun c n => utf8_len c + n) 0 s.

(** [str.lower] on the ASCII range; used in the examples. *)
Definition ascii_lower (s : pystr) : pystr :=
  map (fun c => if ((65 <=? c) && (c <=? 90))%N then (c + 32)%N else c) s.

Section Name.

(** [str.lower]: the Unicode lower-casing of the interpreter.  It may map
    a character outside ASCII to ASCII ones (the Kelvin sign to [k]), so
    it is left arbitrary. *)
Variable lower : pystr -> pystr.

(** [re.sub("[^0-9a-zA-Z_]+", "", f"{database.lower()}_{index}")[:63]] *)
Definition name (database index : pystr) : pystr :=
  firstn 63 (re_sub_non_word (lower database ++ 95%N :: index)).

(** [self.index = doc.get("index") or doc["database"]] and
    [doc.get("database", self.index)], then the name. *)
Definition name_of_doc (doc_database doc_index : option pystr)
  : result pystr :=
  let index :=
    match doc_index with
    | Some (c :: i) => Ok (c :: i)
    | _ => match doc_database with
           | Some d => Ok d
           | None => Raise KeyError
           end
    end in
  match index with
  | Ok index =>
      let database := default index doc_database in
      Ok (name database index)
  | Raise e => Raise e
  end.

End Name.

End SyncName.

(** ** Data model: values, nodes, trees, payloads, bulk documents *)

(** A value of a row as [json.loads] delivers it.  Integers decoded from
    JSON are within the interpreter's digit limit, so [str] is total on
    them. *)
Inductive value :=
| VNone
| VBool (b : bool)
| VInt (z : Z)
| VStr (s : string).

#[global] Instance value_eq_dec : EqDecision value.
Proof. solve_decision. Defined.

Definition str_of_Z (z : Z) : string := NilZero.string_of_int (Z.to_int z).

(** [str(v)] *)
Definition str_value (v : value) : string :=
  match v with
  | VNone => "None"
  | VBool true => "True"
  | VBool false => "False"
  | VInt z => str_of_Z z
  | VStr s => s
  end.

(** Truth value of [v] in a condition. *)
Definition truthy (v : value) : bool :=
  match v with
  | VNone => false
  | VBool b => b
  | VInt z => negb (Z.eqb z 0)
  | VStr s => negb (String.eqb s "")
  end.

(** [v == w]: [bool] is a subclass of [int], so [True == 1]. *)
Definition value_eqb (v w : value) : bool :=
  match v, w with
  | VNone, VNone => true
  | VStr s, VStr t => String.eqb s t
  | VInt a, VInt b => Z.eqb a b
  | VBool a, VBool b => Bool.eqb a b
  | VBool a, VInt b | VInt b, VBool a => Z.eqb (if a then 1 else 0) b
  | _, _ => false
  end.

(** [l == m] on lists: same length and pairwise equal. *)
Fixpoint values_eqb (l m : list value) : bool :=
  match l, m with
  | [], [] => true
  | v :: l', w :: m' => value_eqb v w && values_eqb l' m'
  | _, _ => false
  end.

(** An equality predicate [{column: value}] and a filter set
    [{table: [predicate, ...]}]. *)
Abbreviation filter_set := (gmap string (list (gmap string value))).

(** [dict(pairs)]: a later pair overrides an earlier one with the same key. *)
Definition dict_of {V} (pairs : list (string * V)) : gmap string V :=
  fold_left (fun d kv => <[kv.1 := kv.2]> d) pairs ∅.

Local Set Warnings "-register-all".

Module Node.
(** The attributes of a [Node] the resolver reads.  [primary_keys] are
    the names of [node.primary_keys], [model_primary_keys] is
    [node.model.primary_keys]. *)
Inductive t := mk {
  table : string;
  schema : string;
  name : string;
  is_root : bool;
  parent : option t;
  primary_keys : list string;
  model_primary_keys : list string;
  base_tables : list string
}.
End Node.

Module Tree.
(** [nodes] is the breadth-first traversal; [get_node] raises for a table
    the tree does not know. *)
Record t := mk {
  root : Node.t;
  tables : gset string;
  schemas : gset string;
  nodes : list Node.t;
  get_node : string -> string -> result Node.t
}.
End Tree.

Definition INSERT : string := "INSERT".
Definition UPDATE : string := "UPDATE".
Definition DELETE : string := "DELETE".
Definition TRUNCATE : string := "TRUNCATE".
Definition TG_OP : list string := [DELETE; INSERT; TRUNCATE; UPDATE].

Module Payload.
Record t := mk {
  tg_op : string;
  schema : string;
  table : string;
  old : gmap string value;
  new : gmap string value;
  xmin : option Z
}.

(** Modelled from the spec: [Payload.data] ([base.py] is not part of the
    sources at hand); "[data] = [new] if non-empty else [old]". *)
Definition data (p : t) : gmap string value :=
  if decide (new p = ∅) then old p else new p.

Definition with_table (tbl : string) (p : t) : t :=
  {| tg_op := tg_op p; schema := schema p; table := tbl;
     old := old p; new := new p; xmin := xmin p |}.
End Payload.

(** A bulk operation that deletes a document. *)
Record doc := {
  _id : string;
  _index : string;
  _op_type : string;
  _routing : option value;
  _type : option string
}.

(** What the resolver does to its collaborators, in order: a bulk write of
    delete operations, a call of [Sync.sync] with a filter set or with a
    range of transaction ids, a foreign key lookup of the query builder ([alt] for [_get_foreign_keys]). *)
Inductive event :=
| EvBulk (docs : list doc) (raise_on_exception raise_on_error : option bool)
| EvSync (filters : filter_set)
| EvSyncRange (txmin txmax : option Z)
| EvForeignKeys (alt : bool) (parent : option string) (node : string).

#[global] Instance doc_eq_dec : EqDecision doc.
Proof. solve_decision. Defined.

#[global] Instance event_eq_dec : EqDecision event.
Proof. solve_decision. Defined.

(** ** Exceptions and state

    A computation reads and updates a state [S] and either returns or
    raises; the state reached when an exception is raised is kept.  The
    resolver runs in [M], whose state is the trace of events. *)

Definition St (S A : Type) : Type := S -> result A * S.

Abbreviation M := (St (list event)).

Definition ret {S A} (a : A) : St S A := fun s => (Ok a, s).

Definition bind {S A B} (m : St S A) (k : A -> St S B) : St S B :=
  fun s =>
    match m s with
    | (Ok a, s') => k a s'
    | (Raise e, s') => (Raise e, s')
    end.

Definition raise {S A} (e : exn) : St S A := fun s => (Raise e, s).

Definition lift {S A} (r : result A) : St S A := fun s => (r, s).

Definition emit (ev : event) : M unit := fun tr => (Ok tt, tr ++ [ev]).

#[global] Instance exn_eq_dec : EqDecision exn.
Proof. solve_decision. Defined.

(** [try: m except e0: handler] *)
Definition try_except {S A} (m : St S A) (e0 : exn) (handler : St S A) : St S A :=
  fun s =>
    match m s with
    | (Raise e, s') =>
        if decide (e = e0) then handler s' else (Raise e, s')
    | r => r
    end.

Notation "'let*' x ':=' m 'in' k" := (bind m (fun x => k))
  (at level 10, x pattern, m at level 100, k at level 200).

(** [for x in l: acc = body(acc, x)] *)
Fixpoint for_each {S A B} (l : list A) (body : B -> A -> St S B) (acc : B)
  : St S B :=
  match l with
  | [] => ret acc
  | x :: l' => let* acc' := body acc x in for_each l' body acc'
  end.

(** [[f(x) for x in l]] *)
Fixpoint map_each {S A B} (f : A -> St S B) (l : list A) : St S (list B) :=
  match l with
  | [] => ret []
  | x :: l' => let* y := f x in let* ys := map_each f l' in ret (y :: ys)
  end.

(** [d[k]] on a dictionary and [l[i]] on a list. *)
Definition getitem {S V} (d : gmap string V) (k : string) : St S V :=
  match d !! k with
  | Some v => ret v
  | None => raise KeyError
  end.

Definition list_getitem {S A} (l : list A) (i : nat) : St S A :=
  match l !! i with
  | Some x => ret x
  | None => raise IndexError
  end.

(** [l[k]] with a [str] index [k]: lists are indexed by integers only. *)
Definition list_getitem_str {A} (l : list A) (k : string) : M A :=
  raise TypeError.

(** [filters[table].append(x)] and [filters[table].extend(xs)] *)
Definition slot_extend (table : string) (xs : list (gmap string value))
    (filters : filter_set) : M filter_set :=
  let* slot := getitem filters table in
  ret (<[table := slot ++ xs]> filters).

Definition slot_append (table : string) (x : gmap string value)
    (filters : filter_set) : M filter_set :=
  slot_extend table [x] filters.

(** [s.split(sep)] for a non-empty separator: [pending] characters of a
    separator found earlier are still to be skipped, [cur] is the part read
    so far. *)
Fixpoint split_go (sep : string) (pending : nat) (cur : string) (s : string)
  : list string :=
  match s with
  | EmptyString => [cur]
  | String c r =>
      match pending with
      | S k => split_go sep k cur r
      | O =>
          if String.prefix sep s
          then cur :: split_go sep (String.length sep - 1) EmptyString r
          else split_go sep 0 (cur +:+ String c EmptyString) r
      end
  end.

Definition split (sep s : string) : M (list string) :=
  if String.eqb sep "" then raise ValueError else ret (split_go sep 0 "" s).

(** Modelled from the spec: [utils.chunks] (not part of the sources at
    hand); "filters are chunked by [FILTER_CHUNK_SIZE]": successive slices
    of [size] elements, the last one shorter, none for the empty list.  A
    [size] of zero is refused, as a slice step of zero is. *)
Fixpoint chunks_go {A} (fuel : nat) (l : list A) (size : nat) : list (list A) :=
  match fuel, l with
  | S fuel', _ :: _ => firstn size l :: chunks_go fuel' (skipn size l) size
  | _, _ => []
  end.

Definition chunks {A} (l : list A) (size : nat) : M (list (list A)) :=
  match size with
  | O => raise ValueError
  | S _ => ret (chunks_go (length l) l size)
  end.

(** ** sync.py: the resolver *)

Module Sync.

(** The attributes of a [Sync] instance the resolver reads, with its
    collaborators as functions: the search client ([_search] returns the
    ids of the documents whose meta section matches), the query builder
    (both foreign key lookups may raise [ForeignKeyError]) and
    [Payload.foreign_key_constraint]; and the settings and constants. *)
Record t := mk {
  index : string;
  routing : option string;
  tree : Tree.t;
  major_version : nat;
  is_opensearch : bool;
  _search : string -> option (gmap string (list value)) -> list string;
  get_foreign_keys :
    option Node.t -> Node.t -> result (gmap string (list string));
  _get_foreign_keys :
    option Node.t -> Node.t -> result (gmap string (list string));
  foreign_key_constraint :
    Payload.t -> Node.t -> gmap string (string * value);
  USE_ASYNC : bool;
  FILTER_CHUNK_SIZE : nat;
  PRIMARY_KEY_DELIMITER : string
}.

Section Resolver.

Variable self : t.

Definition root : Node.t := Tree.root (tree self).

(** [if self.routing:] *)
Definition routing_column : option string :=
  match routing self with
  | Some r => if String.eqb r "" then None else Some r
  | None => None
  end.

(** [self.search_client.major_version < 7 and not
    self.search_client.is_opensearch] selects [doc["_type"] = "_doc"]. *)
Definition doc_type : option string :=
  if Nat.ltb (major_version self) 7 && negb (is_opensearch self)
  then Some "_doc" else None.

(** The query builder's lookups, with the call recorded. *)
Definition qb_get_foreign_keys (parent : option Node.t) (node : Node.t)
  : M (gmap string (list string)) :=
  let* _ := emit (EvForeignKeys false (Node.name <$> parent) (Node.name node)) in
  lift (get_foreign_keys self parent node).

Definition qb__get_foreign_keys (parent : option Node.t) (node : Node.t)
  : M (gmap string (list string)) :=
  let* _ := emit (EvForeignKeys true (Node.name <$> parent) (Node.name node)) in
  lift (_get_foreign_keys self parent node).

Definition bulk (docs : list doc) (raise_on_exception raise_on_error : option bool)
  : M unit :=
  emit (EvBulk docs raise_on_exception raise_on_error).

(** [node.parent.<attribute>] *)
Definition parent_of (node : Node.t) : M Node.t :=
  match Node.parent node with
  | Some p => ret p
  | None => raise AttributeError
  end.

Definition get_doc_id (primary_keys : list value) (table : string) : M string :=
  match primary_keys with
  | [] => raise PrimaryKeyNotFoundError
  | _ => ret (String.concat (PRIMARY_KEY_DELIMITER self)
                (map str_value primary_keys))
  end.

(** The loop shared by the resolvers: a document id is split and zipped
    against the root's primary keys. *)
Definition where_of_doc_id (doc_id : string) : M (gmap string value) :=
  let* params := split (PRIMARY_KEY_DELIMITER self) doc_id in
  for_each (imap pair (Node.model_primary_keys root))
    (fun where_ '(i, key) =>
       let* param := list_getitem params i in
       ret (<[key := VStr param]> where_))
    ∅.

Definition append_roots (doc_ids : list string)
    (filters : list (gmap string value)) : M (list (gmap string value)) :=
  for_each doc_ids
    (fun filters doc_id =>
       let* where_ := where_of_doc_id doc_id in
       ret (filters ++ [where_]))
    filters.

Definition primary_values_of (p : Payload.t) (keys : list string)
  : M (list value) :=
  map_each (getitem (Payload.data p)) keys.

Definition _root_primary_key_resolver (node : Node.t) (payload : Payload.t)
    (filters : list (gmap string value)) : M (list (gmap string value)) :=
  let* primary_values :=
    primary_values_of payload (Node.model_primary_keys node) in
  let primary_fields :=
    dict_of (zip (Node.model_primary_keys node) primary_values) in
  let fields := (fun v => [v]) <$> primary_fields in
  append_roots (_search self (Node.table node) (Some fields)) filters.

Definition _root_foreign_key_resolver (node : Node.t) (payload : Payload.t)
    (foreign_keys : gmap string (list string))
    (filters : list (gmap string value)) : M (list (gmap string value)) :=
  let* columns := getitem foreign_keys (Node.name node) in
  let foreign_values :=
    map (fun key => default VNone (Payload.new payload !! key)) columns in
  let fields :=
    fold_left
      (fun fields key =>
         fold_left
           (fun fields value =>
              if truthy value
              then <[key := default [] (fields !! key) ++ [value]]> fields
              else fields)
           foreign_values fields)
      (Node.primary_keys node) (∅ : gmap string (list value)) in
  let* parent := parent_of node in
  append_roots (_search self (Node.table parent) (Some fields)) filters.

Definition _through_node_resolver (node : Node.t) (payload : Payload.t)
    (filters : list (gmap string value)) : list (gmap string value) :=
  let foreign_key_constraint := foreign_key_constraint self payload node in
  match foreign_key_constraint !! Node.name root with
  | Some (remote, value) => filters ++ [{[ remote := value ]}]
  | None => filters
  end.

Definition _insert_op (node : Node.t) (filters : filter_set)
    (payloads : list Payload.t) : M filter_set :=
  if bool_decide (Node.table node ∈ Tree.tables (tree self)) then
    if Node.is_root node then
      for_each payloads
        (fun filters payload =>
           let* primary_values :=
             primary_values_of payload (Node.model_primary_keys root) in
           let primary_fields :=
             dict_of (zip (Node.model_primary_keys root) primary_values) in
           slot_append (Node.table node) primary_fields filters)
        filters
    else
      match Node.parent node with
      | None => raise RuntimeError
      | Some parent =>
          let* foreign_keys :=
            try_except (qb_get_foreign_keys (Some parent) node)
              ForeignKeyError
              (qb__get_foreign_keys (Some parent) node) in
          let* (filters, _filters) :=
            for_each payloads
              (fun '(filters, _filters) payload =>
                 let* node_keys := getitem foreign_keys (Node.name node) in
                 let* filters :=
                   for_each node_keys
                     (fun filters node_key =>
                        let* parent_keys :=
                          getitem foreign_keys (Node.name parent) in
                        for_each parent_keys
                          (fun filters parent_key =>
                             if String.eqb node_key parent_key then
                               let* v := getitem (Payload.data payload) node_key in
                               slot_append (Node.table parent)
                                 {[ parent_key := v ]} filters
                             else ret filters)
                          filters)
                     filters in
                 let* _filters :=
                   _root_foreign_key_resolver node payload foreign_keys _filters in
                 let _filters := _through_node_resolver node payload _filters in
                 ret (filters, _filters))
              (filters, []) in
          match _filters with
          | [] => ret filters
          | _ => slot_extend (Node.table root) _filters filters
          end
      end
  else
    let* foreign_keys := qb_get_foreign_keys (Node.parent node) node in
    for_each payloads
      (fun filters payload =>
         let* node_keys := getitem foreign_keys (Node.name node) in
         for_each (imap pair node_keys)
           (fun filters '(i, key) =>
              let* parent := parent_of node in
              let* _ := getitem filters (Node.table parent) in
              let* parent_keys := getitem foreign_keys (Node.name parent) in
              let* parent_key := list_getitem parent_keys i in
              let* v := getitem (Payload.data payload) key in
              slot_append (Node.table parent) {[ parent_key := v ]} filters)
           filters)
      filters.

(** A bulk delete operation for the document [doc_id]. *)
Definition delete_doc (doc_id : string) (routing_value : option value) : doc :=
  {| _id := doc_id; _index := index self; _op_type := "delete";
     _routing := routing_value; _type := doc_type |}.

Definition _update_op (node : Node.t) (filters : filter_set)
    (payloads : list Payload.t) : M filter_set :=
  if Node.is_root node then
    let* (filters, docs) :=
      for_each payloads
        (fun '(filters, docs) payload =>
           let* primary_values :=
             primary_values_of payload (Node.model_primary_keys node) in
           let primary_fields :=
             dict_of (zip (Node.model_primary_keys node) primary_values) in
           let* filters := slot_append (Node.table node) primary_fields filters in
           let old_values :=
             omap (fun key => Payload.old payload !! key)
               (Node.model_primary_keys root) in
           let* new_values :=
             map_each (getitem (Payload.new payload))
               (Node.model_primary_keys root) in
           if Nat.eqb (length old_values) (length new_values)
              && negb (values_eqb old_values new_values)
           then
             let* doc_id := get_doc_id old_values (Node.table root) in
             let* routing_value :=
               match routing_column with
               | Some r => let* v := list_getitem_str old_values r in ret (Some v)
               | None => ret None
               end in
             ret (filters, docs ++ [delete_doc doc_id routing_value])
           else ret (filters, docs))
        (filters, []) in
    let* _ :=
      match docs with
      | [] => ret tt
      | _ => bulk docs None None
      end in
    ret filters
  else
    for_each payloads
      (fun filters payload =>
         let* _filters := _root_primary_key_resolver node payload [] in
         let* _filters :=
           match Node.parent node with
           | Some parent =>
               let* foreign_keys :=
                 try_except (qb_get_foreign_keys (Some parent) node)
                   ForeignKeyError
                   (qb__get_foreign_keys (Some parent) node) in
               _root_foreign_key_resolver node payload foreign_keys _filters
           | None => ret _filters
           end in
         match _filters with
         | [] => ret filters
         | _ => slot_extend (Node.table root) _filters filters
         end)
      filters.

Definition _delete_op (node : Node.t) (filters : filter_set)
    (payloads : list Payload.t) : M filter_set :=
  if Node.is_root node then
    let* docs :=
      for_each payloads
        (fun docs payload =>
           let* primary_values :=
             primary_values_of payload (Node.model_primary_keys root) in
           let* doc_id := get_doc_id primary_values (Node.table root) in
           let* routing_value :=
             match routing_column with
             | Some r => let* v := getitem (Payload.data payload) r in ret (Some v)
             | None => ret None
             end in
           ret (docs ++ [delete_doc doc_id routing_value]))
        [] in
    let* _ :=
      match docs with
      | [] => ret tt
      | _ =>
          let flag := if USE_ASYNC self then Some false else None in
          bulk docs flag flag
      end in
    ret filters
  else
    for_each payloads
      (fun filters payload =>
         let* _filters := _root_primary_key_resolver node payload [] in
         match _filters with
         | [] => ret filters
         | _ => slot_extend (Node.table root) _filters filters
         end)
      filters.

Definition _truncate_op (node : Node.t) (filters : filter_set) : M filter_set :=
  if Node.is_root node then
    let docs :=
      map (fun doc_id => delete_doc doc_id None)
        (_search self (Node.table node) None) in
    let* _ :=
      match docs with
      | [] => ret tt
      | _ => bulk docs None None
      end in
    ret filters
  else
    let* _filters := append_roots (_search self (Node.table node) None) [] in
    match _filters with
    | [] => ret filters
    | _ => slot_extend (Node.table root) _filters filters
    end.

(** [any(filters.values())] *)
Definition any_values (filters : filter_set) : bool :=
  negb (bool_decide (map_Forall (fun _ slot => slot = []) filters)).

(** [Sync.sync(filters=...)]: the query is built and run by the query
    builder; the call is recorded with its filter set. *)
Definition sync (filters : filter_set) : M unit := emit (EvSync filters).

(** The first half of [_payloads]: validation of the run, the filter set
    with its empty slots, and the dispatch on [tg_op].  [None] stands for
    the early [return] on a table or schema outside the tree. *)
Definition _payloads_filters (payloads : list Payload.t)
  : M (option (Node.t * filter_set)) :=
  let* payload := list_getitem payloads 0 in
  if negb (bool_decide (Payload.tg_op payload ∈ TG_OP)) then
    raise InvalidTGOPError
  else if negb (bool_decide (Payload.table payload ∈ Tree.tables (tree self)))
          || negb (bool_decide (Payload.schema payload ∈ Tree.schemas (tree self)))
  then ret None
  else
    let* node :=
      lift (Tree.get_node (tree self)
              (Payload.table payload) (Payload.schema payload)) in
    let* _ :=
      for_each payloads
        (fun _ payload =>
           if bool_decide (Payload.data payload = ∅) then ret tt
           else if bool_decide
                     (Forall (fun key => is_Some (Payload.data payload !! key))
                        (Node.model_primary_keys node))
           then ret tt
           else raise RuntimeError)
        tt in
    (* after the loop [payload] is the last element of the run *)
    let payload := List.last payloads payload in
    let filters : filter_set :=
      <[Node.table root := []]> (<[Node.table node := []]> ∅) in
    let* filters :=
      if Node.is_root node then ret filters
      else let* parent := parent_of node in
           ret (<[Node.table parent := []]> filters) in
    let* filters :=
      if String.eqb (Payload.tg_op payload) INSERT
      then _insert_op node filters payloads else ret filters in
    let* filters :=
      if String.eqb (Payload.tg_op payload) UPDATE
      then _update_op node filters payloads else ret filters in
    let* filters :=
      if String.eqb (Payload.tg_op payload) DELETE
      then _delete_op node filters payloads else ret filters in
    let* filters :=
      if String.eqb (Payload.tg_op payload) TRUNCATE
      then _truncate_op node filters else ret filters in
    ret (Some (node, filters)).

(** [chunks(filters.get(table), size)] *)
Definition chunks_of (filters : filter_set) (table : string)
  : M (list (list (gmap string value))) :=
  match filters !! table with
  | Some slot => chunks slot (FILTER_CHUNK_SIZE self)
  | None => raise TypeError
  end.

(** [if filters.get(table):] *)
Definition slot_nonempty (filters : filter_set) (table : string) : bool :=
  match filters !! table with
  | Some (_ :: _) => true
  | _ => false
  end.

(** The second half of [_payloads]: the filter set is executed in
    chunks. *)
Definition _payloads_sync (node : Node.t) (filters : filter_set) : M unit :=
  if any_values filters then
    let* l1s := chunks_of filters (Node.table root) in
    for_each l1s
      (fun _ l1 =>
         if slot_nonempty filters (Node.table node) then
           let* l2s := chunks_of filters (Node.table node) in
           for_each l2s
             (fun _ l2 =>
                let* with_parent :=
                  if Node.is_root node then ret None
                  else
                    let* parent := parent_of node in
                    if slot_nonempty filters (Node.table parent)
                    then ret (Some parent) else ret None in
                match with_parent with
                | Some parent =>
                    let* l3s := chunks_of filters (Node.table parent) in
                    for_each l3s
                      (fun _ l3 =>
                         sync (<[Node.table parent := l3]>
                                 (<[Node.table node := l2]>
                                    (<[Node.table root := l1]> ∅))))
                      tt
                | None =>
                    sync (<[Node.table node := l2]>
                            (<[Node.table root := l1]> ∅))
                end)
             tt
         else sync (<[Node.table root := l1]> ∅))
      tt
  else ret tt.

Definition _payloads (payloads : list Payload.t) : M unit :=
  let* resolved := _payloads_filters payloads in
  match resolved with
  | Some (node, filters) => _payloads_sync node filters
  | None => ret tt
  end.

End Resolver.

End Sync.

(** ** sync.py: the consumer, the pull and the replication slot *)

Module Orchestrator.

(** The bounds of a read of the logical replication slot. *)
Record bounds := {
  txmin : option Z;
  txmax : option Z;
  upto_nchanges : option nat;
  upto_lsn : option string
}.

#[global] Instance bounds_eq_dec : EqDecision bounds.
Proof. solve_decision. Defined.

Definition unbounded : bounds :=
  {| txmin := None; txmax := None; upto_nchanges := None; upto_lsn := None |}.

(** A change of the slot. *)
Record row := {
  xid : Z;
  data : string
}.

(** A read of the slot: [SlotPeek] leaves the changes in the slot,
    [SlotGet] consumes them. *)
Inductive slot_op :=
| SlotPeek (b : bounds)
| SlotGet (b : bounds).

#[global] Instance slot_op_eq_dec : EqDecision slot_op.
Proof. solve_decision. Defined.

(** The source database as the orchestrator uses it, over a type [DB] of
    database states: the two reads of the slot ([base.py]), the current
    transaction id, the current WAL position and the decoder of a change. *)
Record source (DB : Type) := {
  logical_slot_peek_changes : bounds -> DB -> list row;
  logical_slot_get_changes : bounds -> DB -> DB;
  txid_current : DB -> Z;
  get_current_wal_lsn : DB -> string;
  parse_logical_slot : string -> result Payload.t
}.
Arguments logical_slot_peek_changes {DB}.
Arguments logical_slot_get_changes {DB}.
Arguments txid_current {DB}.
Arguments get_current_wal_lsn {DB}.
Arguments parse_logical_slot {DB}.

(** The state the orchestrator works on: the database, the stored
    checkpoint (the value [get_value] of the backend returns), the flag
    [_truncate], the trace of the resolver and the log of the reads of the
    slot. *)
Record state (DB : Type) := {
  db : DB;
  checkpoint : option Z;
  _truncate : bool;
  events : list event;
  slot_log : list slot_op
}.
Arguments db {DB}.
Arguments checkpoint {DB}.
Arguments _truncate {DB}.
Arguments events {DB}.
Arguments slot_log {DB}.

Section Orchestrator.

Context {DB : Type}.
Variable src : source DB.
Variable self : Sync.t.
Variable LOGICAL_SLOT_CHUNK_SIZE : nat.

Abbreviation Orch := (St (state DB)).

Definition get_db : Orch DB := fun st => (Ok (db st), st).

(** The resolver runs on the trace of the state. *)
Definition run (m : M unit) : Orch unit :=
  fun st =>
    let '(r, tr) := m (events st) in
    (r, {| db := db st; checkpoint := checkpoint st;
           _truncate := _truncate st; events := tr;
           slot_log := slot_log st |}).

(** [self.search_client.bulk(self.index, self._payloads(payloads))]: the
    bulk writer drains the generator. *)
Definition bulk_payloads (payloads : list Payload.t) : Orch unit :=
  run (Sync._payloads self payloads).

(** [self.checkpoint] and [self.checkpoint = value] *)
Definition get_checkpoint : Orch (option Z) :=
  fun st => (Ok (checkpoint st), st).

Definition set_checkpoint (value : option Z) : Orch unit :=
  fun st =>
    match value with
    | None => (Raise ValueError, st)
    | Some v =>
        (Ok tt, {| db := db st; checkpoint := Some v;
                   _truncate := _truncate st; events := events st;
                   slot_log := slot_log st |})
    end.

Definition set_truncate (flag : bool) : Orch unit :=
  fun st =>
    (Ok tt, {| db := db st; checkpoint := checkpoint st;
               _truncate := flag; events := events st;
               slot_log := slot_log st |}).

Definition peek_changes (b : bounds) : Orch (list row) :=
  fun st =>
    (Ok (logical_slot_peek_changes src b (db st)),
     {| db := db st; checkpoint := checkpoint st;
        _truncate := _truncate st; events := events st;
        slot_log := slot_log st ++ [SlotPeek b] |}).

Definition get_changes (b : bounds) : Orch unit :=
  fun st =>
    (Ok tt,
     {| db := logical_slot_get_changes src b (db st);
        checkpoint := checkpoint st;
        _truncate := _truncate st; events := events st;
        slot_log := slot_log st ++ [SlotGet b] |}).

(** [payload.tg_op != payload2.tg_op or payload.table != payload2.table] *)
Definition differ (p p2 : Payload.t) : bool :=
  negb (String.eqb (Payload.tg_op p) (Payload.tg_op p2))
  || negb (String.eqb (Payload.table p) (Payload.table p2)).

(** The loop over the rows of one peek: [payloads] is the run collected
    so far; a row of an unknown schema is skipped, together with the test
    that closes the run. *)
Fixpoint rows_loop (payloads : list Payload.t) (rows : list row) : Orch unit :=
  match rows with
  | [] => ret tt
  | r :: rest =>
      let* payload := lift (parse_logical_slot src (data r)) in
      if negb (bool_decide
                 (Payload.schema payload ∈ Tree.schemas (Sync.tree self)))
      then rows_loop payloads rest
      else
        let payloads := payloads ++ [payload] in
        match rest with
        | r2 :: _ =>
            let* payload2 := lift (parse_logical_slot src (data r2)) in
            if differ payload payload2 then
              let* _ := bulk_payloads payloads in
              rows_loop [] rest
            else rows_loop payloads rest
        | [] => bulk_payloads payloads
        end
  end.

(** [re.search(r"^BEGIN", row.data) or re.search(r"^COMMIT", row.data)] *)
Definition is_begin_or_commit (r : row) : bool :=
  String.prefix "BEGIN" (data r) || String.prefix "COMMIT" (data r).

(** [logical_slot_changes]: the [while True] loop runs for at most [fuel]
    rounds; [false] is returned when they did not suffice. *)
Fixpoint logical_slot_changes (fuel : nat) (b : bounds) : Orch bool :=
  match fuel with
  | O => ret false
  | S fuel' =>
      let* changes := peek_changes b in
      match changes with
      | [] => ret true
      | _ =>
          let rows := List.filter (fun r => negb (is_begin_or_commit r)) changes in
          let* _ := rows_loop [] rows in
          let* _ := get_changes b in
          logical_slot_changes fuel' b
      end
  end.

Definition pull_from_replication_slot (fuel : nat) : Orch bool :=
  let* d := get_db in
  logical_slot_changes fuel
    {| txmin := None; txmax := None;
       upto_nchanges := Some LOGICAL_SLOT_CHUNK_SIZE;
       upto_lsn := Some (get_current_wal_lsn src d) |}.

(** [pull] *)
Definition pull (fuel : nat) : Orch bool :=
  let* txmin := get_checkpoint in
  let* d := get_db in
  let txmax := txid_current src d in
  let upto_lsn := get_current_wal_lsn src d in
  let* _ := run (emit (EvSyncRange txmin (Some txmax))) in
  let* finished :=
    logical_slot_changes fuel
      {| txmin := txmin; txmax := Some txmax;
         upto_nchanges := Some LOGICAL_SLOT_CHUNK_SIZE;
         upto_lsn := Some upto_lsn |} in
  if finished then
    let* d := get_db in
    (* [txmax or self.txid_current] *)
    let* _ :=
      set_checkpoint
        (Some (if Z.eqb txmax 0 then txid_current src d else txmax)) in
    let* _ := set_truncate true in
    ret true
  else ret false.

(** [_truncate_slots] *)
Definition _truncate_slots : Orch unit :=
  fun st =>
    if _truncate st then get_changes unbounded st else (Ok tt, st).

(** The views are replaced by their nodes: [payloads[i].table =
    node.table] for every node, in traversal order, one of whose base
    tables is the table of the payload at that moment. *)
Definition substitute_view (p : Payload.t) : Payload.t :=
  fold_left
    (fun p node =>
       if bool_decide (Payload.table p ∈ Node.base_tables node)
       then Payload.with_table (Node.table node) p else p)
    (Tree.nodes (Sync.tree self)) p.

(** [_payloads[payload.table].append(payload)] on a dictionary that keeps
    the order of insertion. *)
Fixpoint group_append (p : Payload.t)
    (groups : list (string * list Payload.t)) : list (string * list Payload.t) :=
  match groups with
  | [] => [(Payload.table p, [p])]
  | (tbl, ps) :: groups' =>
      if String.eqb tbl (Payload.table p) then (tbl, ps ++ [p]) :: groups'
      else (tbl, ps) :: group_append p groups'
  end.

Definition group_by_table (payloads : list Payload.t)
  : list (string * list Payload.t) :=
  fold_left (fun groups p => group_append p groups) payloads [].

(** The loop of the mixed case: the runs of identical [(tg_op, table)]. *)
Fixpoint runs_loop (_payloads : list Payload.t) (payloads : list Payload.t)
  : Orch unit :=
  match payloads with
  | [] => ret tt
  | payload :: rest =>
      let _payloads := _payloads ++ [payload] in
      match rest with
      | payload2 :: _ =>
          if differ payload payload2 then
            let* _ := bulk_payloads _payloads in
            runs_loop [] rest
          else runs_loop _payloads rest
      | [] => bulk_payloads _payloads
      end
  end.

(** [set(map(lambda x: x.tg_op, payloads)) == set([INSERT])] *)
Definition all_inserts (payloads : list Payload.t) : bool :=
  match payloads with
  | [] => false
  | _ => forallb (fun p => String.eqb (Payload.tg_op p) INSERT) payloads
  end.

(** [txids != set([None])] for [txids = set(xmins)] *)
Definition only_None (xmins : list (option Z)) : bool :=
  match xmins with
  | [] => false
  | _ => forallb (fun x => negb (bool_decide (is_Some x))) xmins
  end.

(** [min(txids)] for [txids = set(xmins)]: the empty set has no minimum,
    the minimum of a one-element set is its element, and [None] compares
    with no [int]. *)
Definition min_txids (xmins : list (option Z)) : result (option Z) :=
  match xmins with
  | [] => Raise ValueError
  | x :: xmins' =>
      if forallb (fun y => bool_decide (y = x)) xmins' then Ok x
      else
        fold_left
          (fun acc y =>
             match acc, y with
             | Ok (Some a), Some b => Ok (Some (Z.min a b))
             | Ok _, _ => Raise TypeError
             | Raise e, _ => Raise e
             end)
          xmins' (Ok x)
  end.

(** [min(a, b)] for an [int] [b] *)
Definition min_with (a : option Z) (b : Z) : result Z :=
  match a with
  | Some a => Ok (Z.min a b)
  | None => Raise TypeError
  end.

(** The last lines of [_on_publish]: the checkpoint after a batch. *)
Definition advance_checkpoint (payloads : list Payload.t) : Orch unit :=
  let txids := map Payload.xmin payloads in
  if only_None txids then ret tt
  else
    let* lowest := lift (min_txids txids) in
    let* d := get_db in
    let* value := lift (min_with lowest (txid_current src d)) in
    set_checkpoint (Some (value - 1)%Z).

(** The middle of [_on_publish]: a batch of inserts is processed table by
    table, any other batch run by run. *)
Definition process_batch (payloads : list Payload.t) : Orch unit :=
  if all_inserts payloads then
    for_each (group_by_table payloads)
      (fun _ '(_, _payload) => bulk_payloads _payload) tt
  else runs_loop [] payloads.

(** [_on_publish] *)
Definition _on_publish (payloads : list Payload.t) : Orch unit :=
  let payloads := map substitute_view payloads in
  let* _ := process_batch payloads in
  advance_checkpoint payloads.

End Orchestrator.

End Orchestrator.

(** ** An example sync: root [book(id)], child [author(id)], grandchild
    [biography(id)] whose key is also its foreign key to [author] *)

Module Example.

Definition book : Node.t :=
  {| Node.table := "book"; Node.schema := "public"; Node.name := "public.book";
     Node.is_root := true; Node.parent := None;
     Node.primary_keys := ["id"]; Node.model_primary_keys := ["id"];
     Node.base_tables := [] |}.

Definition author : Node.t :=
  {| Node.table := "author"; Node.schema := "public"; Node.name := "public.author";
     Node.is_root := false; Node.parent := Some book;
     Node.primary_keys := ["id"]; Node.model_primary_keys := ["id"];
     Node.base_tables := [] |}.

Definition biography : Node.t :=
  {| Node.table := "biography"; Node.schema := "public";
     Node.name := "public.biography";
     Node.is_root := false; Node.parent := Some author;
     Node.primary_keys := ["id"]; Node.model_primary_keys := ["id"];
     Node.base_tables := [] |}.

(** A through-table between [book] and [author]: it is no table of the
    tree. *)
Definition book_author : Node.t :=
  {| Node.table := "book_author"; Node.schema := "public";
     Node.name := "public.book_author";
     Node.is_root := false; Node.parent := Some book;
     Node.primary_keys := ["id"]; Node.model_primary_keys := ["id"];
     Node.base_tables := [] |}.

Definition example_tree : Tree.t :=
  {| Tree.root := book;
     Tree.tables := {[ "book"; "author"; "biography" ]};
     Tree.schemas := {[ "public" ]};
     Tree.nodes := [book; author; biography];
     Tree.get_node := fun table schema =>
       if String.eqb table "book" then Ok book
       else if String.eqb table "author" then Ok author
       else if String.eqb table "biography" then Ok biography
       else Raise RuntimeError |}.

(** The preferred lookup knows the pair (author, biography) only; the
    alternative one also knows (book, author) and (book, book_author). *)
Definition example_get_foreign_keys (parent : option Node.t) (node : Node.t)
  : result (gmap string (list string)) :=
  if String.eqb (Node.table node) "biography"
  then Ok {[ "public.author" := ["id"]; "public.biography" := ["id"] ]}
  else Raise ForeignKeyError.

Definition example__get_foreign_keys (parent : option Node.t) (node : Node.t)
  : result (gmap string (list string)) :=
  if String.eqb (Node.table node) "author"
  then Ok {[ "public.book" := ["author_id"]; "public.author" := ["id"] ]}
  else if String.eqb (Node.table node) "book_author"
  then Ok {[ "public.book" := ["id"]; "public.book_author" := ["book_id"] ]}
  else example_get_foreign_keys parent node.

(** The index holds the documents 7 and 9; both reference author 3. *)
Definition example_search (table : string)
    (fields : option (gmap string (list value))) : list string :=
  match fields with
  | None => if String.eqb table "book" then ["7"; "9"] else []
  | Some fields =>
      if String.eqb table "author"
         && bool_decide (fields !! "id" = Some [VInt 3])
      then ["7"; "9"] else []
  end.

Definition example_sync (routing : option string) : Sync.t :=
  {| Sync.index := "book"; Sync.routing := routing; Sync.tree := example_tree;
     Sync.major_version := 8; Sync.is_opensearch := false;
     Sync._search := example_search;
     Sync.get_foreign_keys := example_get_foreign_keys;
     Sync._get_foreign_keys := example__get_foreign_keys;
     Sync.foreign_key_constraint := fun _ _ => ∅;
     Sync.USE_ASYNC := false;
     Sync.FILTER_CHUNK_SIZE := 5000;
     Sync.PRIMARY_KEY_DELIMITER := "|" |}.

Definition payload (tg_op table : string) (old new : list (string * value))
    (xmin : option Z) : Payload.t :=
  {| Payload.tg_op := tg_op; Payload.schema := "public"; Payload.table := table;
     Payload.old := dict_of old; Payload.new := dict_of new;
     Payload.xmin := xmin |}.

Definition biography_insert : list Payload.t :=
  [payload INSERT "biography" [] [("id", VInt 4)] (Some 106%Z)].

(** A source database: the current transaction id and the changes waiting
    in the slot.  A read returns (and [get] removes) the first
    [upto_nchanges] changes; the decoder knows the [INSERT] on [book]. *)
Record database := {
  current_txid : Z;
  slot_changes : list Orchestrator.row
}.

Definition upto (b : Orchestrator.bounds) {A} (l : list A) : nat :=
  match Orchestrator.upto_nchanges b with
  | Some n => n
  | None => length l
  end.

Definition example_source : Orchestrator.source database :=
  {| Orchestrator.logical_slot_peek_changes :=
       fun b d => firstn (upto b (slot_changes d)) (slot_changes d);
     Orchestrator.logical_slot_get_changes :=
       fun b d =>
         {| current_txid := current_txid d;
            slot_changes := skipn (upto b (slot_changes d)) (slot_changes d) |};
     Orchestrator.txid_current := current_txid;
     Orchestrator.get_current_wal_lsn := fun _ => "0/16B3748";
     Orchestrator.parse_logical_slot :=
       fun data =>
         if String.eqb data "table public.book: INSERT: id[integer]:7"
         then Ok (payload INSERT "book" [] [("id", VInt 7)] None)
         else Raise ValueError |}.

Definition example_state (txid : Z) (rows : list Orchestrator.row)
    (checkpoint : option Z) : Orchestrator.state database :=
  {| Orchestrator.db := {| current_txid := txid; slot_changes := rows |};
     Orchestrator.checkpoint := checkpoint;
     Orchestrator._truncate := false;
     Orchestrator.events := [];
     Orchestrator.slot_log := [] |}.

Definition example_rows : list Orchestrator.row :=
  [{| Orchestrator.xid := 99; Orchestrator.data := "BEGIN 99" |};
   {| Orchestrator.xid := 99;
      Orchestrator.data := "table public.book: INSERT: id[integer]:7" |};
   {| Orchestrator.xid := 99; Orchestrator.data := "COMMIT 99" |}].

(** The state at start-up: checkpoint 90, current transaction id 100, one
    insert waiting in the slot; and the state after [pull]. *)
Definition startup : Orchestrator.state database :=
  example_state 100 example_rows (Some 90%Z).

Definition after_pull : Orchestrator.state database :=
  (Orchestrator.pull example_source (example_sync None) 5000 3 startup).2.

(** A notification buffered while the pull ran: its transaction id 95 is
    older than the transaction id 100 the pull stored. *)
Definition buffered_batch : list Payload.t :=
  [payload INSERT "book" [] [("id", VInt 5)] (Some 95%Z)].

(** A batch with a [TRUNCATE] (no [xmin]) and an [INSERT]. *)
Definition mixed_batch : list Payload.t :=
  [payload TRUNCATE "book" [] [] None;
   payload INSERT "book" [] [("id", VInt 10)] (Some 105%Z)].

Definition pull_bounds : Orchestrator.bounds :=
  {| Orchestrator.txmin := Some 90%Z; Orchestrator.txmax := Some 100%Z;
     Orchestrator.upto_nchanges := Some 5000;
     Orchestrator.upto_lsn := Some "0/16B3748" |}.

End Example.

(** ** Notions the properties are stated with *)

Module Spec.

(** The primary-key values of the root that a payload carries. *)
Definition root_primary_values (self : Sync.t) (p : Payload.t) : list value :=
  omap (fun key => Payload.data p !! key)
    (Node.model_primary_keys (Sync.root self)).

(** [PRIMARY_KEY_DELIMITER.join(map(str, values))] *)
Definition join_id (self : Sync.t) (values : list value) : string :=
  String.concat (Sync.PRIMARY_KEY_DELIMITER self) (map str_value values).



(** Every run of [m] extends the trace by events that satisfy [P],
    whether it returns or raises. *)
Definition emits {A} (P : event -> Prop) (m : M A) : Prop :=
  forall tr r tr', m tr = (r, tr') ->
    exists new, tr' = tr ++ new /\ Forall P new.

(** [m] can return [a]. *)
Definition returns {A} (m : M A) (a : A) : Prop :=
  exists tr tr', m tr = (Ok a, tr').

(** Every run of [m] that returns has extended the trace by at least one
    event. *)
Definition emits_some {A} (m : M A) : Prop :=
  forall tr a tr', m tr = (Ok a, tr') -> length tr < length tr'.

(** The calls of [Sync.sync] with a filter set, in a trace. *)
Definition sync_calls (tr : list event) : list (gmap string (list (gmap string value))) :=
  omap (fun ev => match ev with EvSync f => Some f | _ => None end) tr.

(** The bulk writes of delete operations, in a trace. *)
Definition bulk_docs (tr : list event) : list doc :=
  mjoin (omap (fun ev => match ev with EvBulk docs _ _ => Some docs | _ => None end) tr).

(** Every slot of the filter set is empty. *)
Definition all_slots_empty (filters : gmap string (list (gmap string value))) : Prop :=
  map_Forall (fun _ slot => slot = []) filters.








(** The old and the new primary-key values of the root in an [UPDATE]
    payload, and the equality predicate of the new ones. *)
Definition old_values (self : Sync.t) (p : Payload.t) : list value :=
  omap (fun key => Payload.old p !! key)
    (Node.model_primary_keys (Sync.root self)).

Definition new_values (self : Sync.t) (p : Payload.t) : list value :=
  omap (fun key => Payload.new p !! key)
    (Node.model_primary_keys (Sync.root self)).

Definition new_primary_fields (self : Sync.t) (p : Payload.t)
  : gmap string value :=
  dict_of (zip (Node.model_primary_keys (Sync.root self)) (new_values self p)).

(** [old] holds every primary key of the root and the old values differ
    from the new ones. *)
Definition primary_key_changed (self : Sync.t) (p : Payload.t) : Prop :=
  Forall (fun key => is_Some (Payload.old p !! key))
    (Node.model_primary_keys (Sync.root self))
  /\ values_eqb (old_values self p) (new_values self p) = false.

#[global] Instance primary_key_changed_dec self p :
  Decision (primary_key_changed self p).
Proof. unfold primary_key_changed. apply _. Defined.

(** The bulk delete operation for the old document of a payload, without
    routing. *)
Definition old_delete_doc (self : Sync.t) (p : Payload.t) : doc :=
  Sync.delete_doc self (join_id self (old_values self p)) None.

(** One round of the loop of [_update_op] on the root, named. *)
Definition update_step (self : Sync.t) : filter_set * list doc -> Payload.t ->
                         M (filter_set * list doc) :=
  fun '(filters, docs) payload =>
    let* primary_values :=
      Sync.primary_values_of payload
        (Node.model_primary_keys (Sync.root self)) in
    let primary_fields :=
      dict_of (zip (Node.model_primary_keys (Sync.root self)) primary_values) in
    let* filters :=
      slot_append (Node.table (Sync.root self)) primary_fields filters in
    let old_values :=
      omap (fun key => Payload.old payload !! key)
        (Node.model_primary_keys (Sync.root self)) in
    let* new_values :=
      map_each (getitem (Payload.new payload))
        (Node.model_primary_keys (Sync.root self)) in
    if Nat.eqb (length old_values) (length new_values)
       && negb (values_eqb old_values new_values)
    then
      let* doc_id :=
        Sync.get_doc_id self old_values (Node.table (Sync.root self)) in
      let* routing_value :=
        match Sync.routing_column self with
        | Some r => let* v := list_getitem_str old_values r in ret (Some v)
        | None => ret None
        end in
      ret (filters, docs ++ [Sync.delete_doc self doc_id routing_value])
    else ret (filters, docs).

(** One round of the loop of [_payloads] over the chunks of the root
    slot, named. *)
Definition sync_round (self : Sync.t) (node : Node.t)
    (filters : gmap string (list (gmap string value)))
    (l1 : list (gmap string value)) : M unit :=
  if Sync.slot_nonempty filters (Node.table node) then
    let* l2s := Sync.chunks_of self filters (Node.table node) in
    for_each l2s
      (fun _ l2 =>
         let* with_parent :=
           if Node.is_root node then ret None
           else
             let* parent := Sync.parent_of node in
             if Sync.slot_nonempty filters (Node.table parent)
             then ret (Some parent) else ret None in
         match with_parent with
         | Some parent =>
             let* l3s := Sync.chunks_of self filters (Node.table parent) in
             for_each l3s
               (fun _ l3 =>
                  Sync.sync (<[Node.table parent := l3]>
                               (<[Node.table node := l2]>
                                  (<[Node.table (Sync.root self) := l1]> ∅))))
               tt
         | None =>
             Sync.sync (<[Node.table node := l2]>
                          (<[Node.table (Sync.root self) := l1]> ∅))
         end)
      tt
  else Sync.sync (<[Node.table (Sync.root self) := l1]> ∅).

(** A call of [sync] whose filter set has a non-empty slot. *)
Definition filtered_sync (ev : event) : Prop :=
  exists f, ev = EvSync f /\ ~ all_slots_empty f.

(** The claim that [sync] runs exactly when some slot is non-empty, for the
    filter set the resolver produces for a run started on an empty trace. *)
Definition sync_iff_some_slot (self : Sync.t) (payloads : list Payload.t) : Prop :=
  forall node filters tr1 r tr',
    Sync._payloads_filters self payloads [] = (Ok (Some (node, filters)), tr1) ->
    Sync._payloads self payloads [] = (r, tr') ->
    (sync_calls tr' <> [] <-> ~ all_slots_empty filters).

(** [R] relates the state before to the state after every run of [m]. *)
Definition preserves {S A} (R : S -> S -> Prop) (m : St S A) : Prop :=
  forall s r s', m s = (r, s') -> R s s'.

Import Orchestrator.

(** Only the trace of the resolver differs between two states. *)
Definition same_but_events {DB} (st st' : state DB) : Prop :=
  db st' = db st /\ checkpoint st' = checkpoint st
  /\ _truncate st' = _truncate st /\ slot_log st' = slot_log st.

Definition same_checkpoint {DB} (st st' : state DB) : Prop :=
  checkpoint st' = checkpoint st.

(** The least of the transaction ids [x :: xs]. *)
Definition minimum (x : Z) (xs : list Z) : Z := fold_left Z.min xs x.

(** Every advance ([SlotGet]) of a log comes right after a peek with the
    same bounds; [prev] is the read before the log. *)
Fixpoint advances_match (prev : option slot_op) (log : list slot_op) : Prop :=
  match log with
  | [] => True
  | op :: log' =>
      match op with
      | SlotGet b => prev = Some (SlotPeek b)
      | SlotPeek _ => True
      end
      /\ advances_match (Some op) log'
  end.

(** The reads [logical_slot_changes] makes with the bounds [b]: rounds of a
    peek and an advance, closed by nothing (out of rounds) or by a last
    peek (no change left, or an exception while the changes were
    processed). *)
Inductive drain_log (b : bounds) : list slot_op -> Prop :=
| drain_stop : drain_log b []
| drain_last_peek : drain_log b [SlotPeek b]
| drain_round log :
    drain_log b log -> drain_log b (SlotPeek b :: SlotGet b :: log).

(** The claim that the stored checkpoint never decreases, for a batch with a
    non-null [xmin] consumed in the state [st]. *)
Definition checkpoint_never_decreases {DB} (src : source DB) (self : Sync.t)
    (payloads : list Payload.t) (st : state DB) : Prop :=
  Exists (fun p => is_Some (Payload.xmin p)) payloads ->
  forall st' c c',
    _on_publish src self payloads st = (Ok tt, st') ->
    checkpoint st = Some c -> checkpoint st' = Some c' -> (c <= c')%Z.

(** The claim that every advance of the slot has the bounds of the peek
    right before it, for the reads logged in [st]. *)
Definition every_advance_matches_peek {DB} (st : state DB) : Prop :=
  advances_match None (slot_log st).

End Spec.

(** ** Further notions *)

Module Spec2.
Import Spec.

(** A run of payloads of the operation [op] on the node [node]: every
    payload has that operation and the table of the node, table and schema
    are known to the tree, and the tree answers with the node. *)
Definition run_on (self : Sync.t) (op : string) (node : Node.t)
    (payloads : list Payload.t) : Prop :=
  Forall
    (fun p =>
       Payload.tg_op p = op
       /\ Payload.table p = Node.table node
       /\ Payload.table p ∈ Tree.tables (Sync.tree self)
       /\ Payload.schema p ∈ Tree.schemas (Sync.tree self)
       /\ Tree.get_node (Sync.tree self) (Payload.table p) (Payload.schema p)
          = Ok node)
    payloads.

(** The payload passes the test on the primary keys of [_payloads]. *)
Definition keys_checked (node : Node.t) (p : Payload.t) : Prop :=
  Payload.data p = ∅
  \/ Forall (fun key => is_Some (Payload.data p !! key))
       (Node.model_primary_keys node).

(** The equality predicate on the primary key of the root that a payload
    gives. *)
Definition data_primary_fields (self : Sync.t) (p : Payload.t)
  : gmap string value :=
  dict_of (zip (Node.model_primary_keys (Sync.root self))
             (root_primary_values self p)).

(** The event is no bulk write. *)
Definition no_bulk (ev : event) : Prop :=
  match ev with
  | EvBulk _ _ _ => False
  | _ => True
  end.

(** The character [c] does not occur in [s]. *)
Definition no_char (c : ascii) (s : string) : Prop :=
  all_chars (fun x => negb (Ascii.eqb x c)) s = true.

(** All payloads of a run have the same operation and table. *)
Definition uniform (run : list Payload.t) : Prop :=
  forall p q, p ∈ run -> q ∈ run ->
    Payload.tg_op p = Payload.tg_op q /\ Payload.table p = Payload.table q.

(** The payloads of a batch on the table [tbl], in the order of the
    batch. *)
Definition on_table (tbl : string) (payloads : list Payload.t)
  : list Payload.t :=
  List.filter (fun p => String.eqb tbl (Payload.table p)) payloads.

(** The tables of a batch, in the order of their first payload. *)
Definition tables_in_order (payloads : list Payload.t) : list string :=
  fold_left
    (fun tables p =>
       if existsb (fun t => String.eqb t (Payload.table p)) tables
       then tables else tables ++ [Payload.table p])
    payloads [].

(** The maximal runs of payloads with the same operation and table, as the
    loop of [_on_publish] closes them; [pending] is the run being
    collected. *)
Fixpoint split_runs (pending : list Payload.t) (payloads : list Payload.t)
  : list (list Payload.t) :=
  match payloads with
  | [] => []
  | p :: rest =>
      let pending := pending ++ [p] in
      match rest with
      | p2 :: _ =>
          if Orchestrator.differ p p2 then pending :: split_runs [] rest
          else split_runs pending rest
      | [] => [pending]
      end
  end.

(** Neighbouring runs cannot be merged: the last payload of a run and the
    first payload of the next one differ in operation or in table. *)
Fixpoint breaks_between (runs : list (list Payload.t)) : Prop :=
  match runs with
  | run :: rest =>
      match rest with
      | next :: _ =>
          (forall p q, last run = Some p -> head next = Some q ->
             Orchestrator.differ p q = true)
          /\ breaks_between rest
      | [] => True
      end
  | [] => True
  end.

(** Different lists hold payloads of different tables. *)
Definition tables_apart (runs : list (list Payload.t)) : Prop :=
  forall i j run1 run2 p q,
    runs !! i = Some run1 -> runs !! j = Some run2 -> i <> j ->
    p ∈ run1 -> q ∈ run2 -> Payload.table p <> Payload.table q.

(** The lists of payloads [process_batch] hands to [_payloads], in
    order. *)
Definition batch_runs (payloads : list Payload.t) : list (list Payload.t) :=
  if Orchestrator.all_inserts payloads
  then map snd (Orchestrator.group_by_table payloads)
  else split_runs [] payloads.

End Spec2.

(** ** Further examples *)

Module Example2.
Import Example.

(** A sync whose root has the primary key [(order_id, line)]. *)
Definition order_line : Node.t :=
  {| Node.table := "order_line"; Node.schema := "public";
     Node.name := "public.order_line";
     Node.is_root := true; Node.parent := None;
     Node.primary_keys := ["order_id"; "line"];
     Node.model_primary_keys := ["order_id"; "line"];
     Node.base_tables := [] |}.

Definition order_sync : Sync.t :=
  {| Sync.index := "orders"; Sync.routing := None;
     Sync.tree :=
       {| Tree.root := order_line;
          Tree.tables := {[ "order_line" ]};
          Tree.schemas := {[ "public" ]};
          Tree.nodes := [order_line];
          Tree.get_node := fun _ _ => Ok order_line |};
     Sync.major_version := 8; Sync.is_opensearch := false;
     Sync._search := fun _ _ => [];
     Sync.get_foreign_keys := fun _ _ => Raise ForeignKeyError;
     Sync._get_foreign_keys := fun _ _ => Raise ForeignKeyError;
     Sync.foreign_key_constraint := fun _ _ => ∅;
     Sync.USE_ASYNC := false;
     Sync.FILTER_CHUNK_SIZE := 2;
     Sync.PRIMARY_KEY_DELIMITER := "|" |}.

Definition two_inserts : list Payload.t :=
  [payload INSERT "book" [] [("id", VInt 7); ("author_id", VInt 3)] (Some 101%Z);
   payload INSERT "book" [] [("id", VInt 11); ("author_id", VInt 3)] (Some 101%Z)].

Definition two_truncates : list Payload.t :=
  [payload TRUNCATE "book" [] [] None; payload TRUNCATE "book" [] [] None].

Definition two_updates : list Payload.t :=
  [payload UPDATE "book" [("id", VInt 7)] [("id", VInt 8)] (Some 102%Z);
   payload UPDATE "book" [("id", VInt 9)] [("id", VInt 9)] (Some 102%Z)].

(** A batch of inserts on two tables, interleaved. *)
Definition interleaved_inserts : list Payload.t :=
  [payload INSERT "book" [] [("id", VInt 10)] (Some 107%Z);
   payload INSERT "author" [] [("id", VInt 4)] (Some 107%Z);
   payload INSERT "book" [] [("id", VInt 11)] (Some 108%Z)].

End Example2.

(** * Properties *)

(** ** Decimal printing and parsing *)

Section PyFacts.

Lemma digit_not_space c : is_digit c = true -> is_space c = false.
Proof.
  destruct c as [[] [] [] [] [] [] [] []]; try reflexivity; discriminate.
Qed.

Lemma digit_not_underscore c : is_digit c = true -> Ascii.eqb c "_" = false.
Proof.
  destruct c as [[] [] [] [] [] [] [] []]; try reflexivity; discriminate.
Qed.

Lemma digit_not_sign c :
  is_digit c = true -> Ascii.eqb c "-" = false /\ Ascii.eqb c "+" = false.
Proof.
  destruct c as [[] [] [] [] [] [] [] []]; try (split; reflexivity);
    discriminate.
Qed.

Lemma all_digits_string_of_uint u :
  all_chars is_digit (NilEmpty.string_of_uint u) = true.
Proof. induction u; simpl; auto. Qed.

Lemma all_digits_NilZero u :
  all_chars is_digit (NilZero.string_of_uint u) = true.
Proof. destruct u; try apply all_digits_string_of_uint. reflexivity. Qed.

Lemma NilZero_nonempty u : NilZero.string_of_uint u <> EmptyString.
Proof. destruct u; discriminate. Qed.

Lemma NilZero_parse u :
  exists u', NilEmpty.uint_of_string (NilZero.string_of_uint u) = Some u'
             /\ Z.of_uint u' = Z.of_uint u.
Proof.
  destruct u; try (eexists; split; [apply NilEmpty.usu | reflexivity]).
  exists (D0 Nil). split; reflexivity.
Qed.

Lemma scan_digits_all_digits b s :
  all_chars is_digit s = true ->
  (s <> EmptyString \/ b = false) ->
  scan_digits b s = Some s.
Proof.
  revert b. induction s as [|c r IH]; intros b Hd Hb.
  - destruct Hb as [Hb | ->]; [congruence | reflexivity].
  - simpl in Hd. apply andb_prop in Hd as [Hc Hr]. simpl.
    rewrite (digit_not_underscore c Hc), Hc, (IH false Hr); auto.
Qed.

Lemma rstrip_no_space s :
  all_chars (fun c => negb (is_space c)) s = true -> rstrip s = s.
Proof.
  induction s as [|c r IH]; [reflexivity|]. simpl.
  intros H. apply andb_prop in H as [Hc Hr]. rewrite (IH Hr).
  apply negb_true_iff in Hc. rewrite Hc. destruct r; reflexivity.
Qed.

Lemma all_chars_impl (P Q : ascii -> bool) s :
  (forall c, P c = true -> Q c = true) ->
  all_chars P s = true -> all_chars Q s = true.
Proof.
  intros HPQ. induction s as [|c r IH]; [reflexivity|]. simpl.
  intros H. apply andb_prop in H as [Hc Hr].
  rewrite (HPQ c Hc), (IH Hr). reflexivity.
Qed.

Lemma digits_no_space s :
  all_chars is_digit s = true ->
  all_chars (fun c => negb (is_space c)) s = true.
Proof.
  apply all_chars_impl. intros c Hc. now rewrite (digit_not_space c Hc).
Qed.

Lemma strip_digits s : all_chars is_digit s = true -> strip s = s.
Proof.
  intros H. unfold strip.
  assert (lstrip s = s) as ->.
  { destruct s as [|c r]; [reflexivity|]. simpl in *.
    apply andb_prop in H as [Hc _]. now rewrite (digit_not_space c Hc). }
  apply rstrip_no_space, digits_no_space, H.
Qed.

Lemma strip_minus_digits s :
  all_chars is_digit s = true -> strip (String "-" s) = String "-" s.
Proof.
  intros H. unfold strip. change (lstrip (String "-" s)) with (String "-" s).
  apply rstrip_no_space. simpl. apply digits_no_space, H.
Qed.

Lemma split_sign_digits s :
  all_chars is_digit s = true -> s <> EmptyString ->
  split_sign s = (false, s).
Proof.
  destruct s as [|c r]; [congruence|]. simpl. intros H _.
  apply andb_prop in H as [Hc _].
  destruct (digit_not_sign c Hc) as [-> ->]. reflexivity.
Qed.

(** Parsing what [str] printed gives the number back, under the same
    digit limit. *)
Lemma int_of_str_str_int m v s :
  str_int m v = Ok s -> int_of_str m s = Ok v.
Proof.
  unfold str_int. intros H.
  rewrite <- (DecimalZ.of_to v). destruct (Z.to_int v) as [u|u].
  - destruct (over_limit m _) eqn:Hlim; [discriminate|].
    injection H as <-. simpl NilZero.string_of_int.
    pose proof (all_digits_NilZero u) as Hd.
    pose proof (NilZero_nonempty u) as Hne.
    destruct (NilZero_parse u) as (u' & Hp & Hu).
    unfold int_of_str.
    rewrite (strip_digits _ Hd), (split_sign_digits _ Hd Hne).
    rewrite (scan_digits_all_digits true _ Hd (or_introl Hne)).
    rewrite Hlim, Hp. simpl. now rewrite Hu.
  - destruct (over_limit m _) eqn:Hlim; [discriminate|].
    injection H as <-. simpl NilZero.string_of_int.
    pose proof (all_digits_NilZero u) as Hd.
    pose proof (NilZero_nonempty u) as Hne.
    destruct (NilZero_parse u) as (u' & Hp & Hu).
    unfold int_of_str.
    rewrite (strip_minus_digits _ Hd). simpl split_sign. cbv iota beta.
    rewrite (scan_digits_all_digits true _ Hd (or_introl Hne)).
    rewrite Hlim, Hp. simpl Z.of_int. now rewrite Hu.
Qed.

End PyFacts.

(** ** Checkpoint store *)

Section CheckpointFacts.
Import Checkpoint.

Variable int_max_str_digits : nat.

(** [set_value] succeeds exactly when the file can be opened for writing
    and the value is within the interpreter's digit limit. *)
Lemma FileCheckpoint_set_value_ok v self fs :
  _checkpoint_file self ∉ denied fs ->
  is_ok (str_int int_max_str_digits v) = true ->
  exists self' fs',
    FileCheckpoint_set_value int_max_str_digits (Some v) self fs
    = (Ok tt, self', fs').
Proof.
  intros Hd Hs. unfold FileCheckpoint_set_value.
  destruct (decide _) as [Hin|_]; [contradiction|].
  destruct (str_int _ v); [eauto | discriminate].
Qed.

(** C9: both backends reject [set_value(None)] with [ValueError] and leave
    the object, the file system and the shared store as they were, so that
    a later [get_value] answers as before. *)
Theorem set_value_None_rejected :
  (forall (self : FileCheckpoint) (fs : filesystem),
      FileCheckpoint_set_value int_max_str_digits None self fs
      = (Raise ValueError, self, fs))
  /\ (forall (self : RedisCheckpoint) (store : gmap string string),
      RedisCheckpoint_set_value int_max_str_digits None self store
      = (Raise ValueError, store)).
Proof. split; reflexivity. Qed.

(** C10: after a successful [FileCheckpoint.set_value(v)], for any integer
    [v] of either sign, [get_value()] returns exactly [v] and caches it. *)
Theorem FileCheckpoint_roundtrip (v : Z) self fs self' fs' :
  FileCheckpoint_set_value int_max_str_digits (Some v) self fs
  = (Ok tt, self', fs') ->
  FileCheckpoint_get_value int_max_str_digits self' fs'
  = (Ok (Some v), self').
Proof.
  unfold FileCheckpoint_set_value, FileCheckpoint_get_value.
  destruct (decide _) as [|_]; [discriminate|].
  destruct (str_int _ v) as [s|e] eqn:Hs; [|discriminate].
  intros [= <- <-]. simpl.
  rewrite lookup_insert_eq, (int_of_str_str_int _ _ _ Hs). reflexivity.
Qed.

(** The shared-KV backend round-trips in the same way. *)
Lemma RedisCheckpoint_roundtrip (v : Z) self store store' :
  RedisCheckpoint_set_value int_max_str_digits (Some v) self store
  = (Ok tt, store') ->
  RedisCheckpoint_get_value int_max_str_digits self store' = Ok (Some v).
Proof.
  unfold RedisCheckpoint_set_value, RedisCheckpoint_get_value.
  destruct (str_int _ v) as [s|e] eqn:Hs; [|discriminate].
  intros [= <-].
  rewrite lookup_insert_eq, (int_of_str_str_int _ _ _ Hs). reflexivity.
Qed.

End CheckpointFacts.

Section CheckpointExamples.
Import Checkpoint.

Example example_checkpoint_file :
  _checkpoint_file example_checkpoint = "/var/lib/pgsync/.book_book".
Proof. reflexivity. Qed.

Example example_get_100 :
  (FileCheckpoint_get_value default_int_max_str_digits
     example_checkpoint example_fs).1 = Ok (Some 100%Z).
Proof. vm_compute. reflexivity. Qed.

Lemma FileCheckpoint_roundtrip_witness :
  let self' := {| _checkpoint := Some (-42)%Z;
                  _checkpoint_file := "/var/lib/pgsync/.book_book" |} in
  let fs' := write_file "/var/lib/pgsync/.book_book" "-42"
               (write_file "/var/lib/pgsync/.book_book" "" example_fs) in
  FileCheckpoint_set_value default_int_max_str_digits (Some (-42)%Z)
    example_checkpoint example_fs = (Ok tt, self', fs')
  /\ FileCheckpoint_get_value default_int_max_str_digits self' fs'
     = (Ok (Some (-42)%Z), self').
Proof.
  intros self' fs'.
  split; [reflexivity|].
  apply (FileCheckpoint_roundtrip default_int_max_str_digits (-42)%Z
           example_checkpoint example_fs self' fs').
  reflexivity.
Defined.

(** A value above the digit limit leaves an empty file behind: the file is
    truncated before [str(value)] raises. *)
Example set_value_over_limit :
  let '(r, self', fs') :=
    FileCheckpoint_set_value 3 (Some 1234%Z) example_checkpoint example_fs in
  r = Raise ValueError
  /\ self' = example_checkpoint
  /\ files fs' !! "/var/lib/pgsync/.book_book" = Some "".
Proof. vm_compute. auto. Qed.

End CheckpointExamples.

(** ** The sync name *)

Section SyncNameFacts.
Import SyncName.

Lemma in_class_ascii c : in_class c = true -> utf8_len c = 1.
Proof.
  unfold in_class, utf8_len. intros H.
  destruct (N.ltb_spec c 128) as [|Hge]; [reflexivity|].
  repeat (apply orb_prop in H as [H|H]);
    try (apply andb_prop in H as [H1 H2]; apply N.leb_le in H1, H2; lia).
  apply N.eqb_eq in H. lia.
Qed.

Lemma byte_length_in_class s :
  Forall (fun c => in_class c = true) s -> byte_length s = length s.
Proof.
  induction 1 as [|c s Hc _ IH]; [reflexivity|].
  simpl. now rewrite (in_class_ascii c Hc), IH.
Qed.

Lemma Forall_firstn {A} (P : A -> Prop) n l :
  Forall P l -> Forall P (firstn n l).
Proof.
  intros H. revert n. induction H; intros [|n]; simpl; constructor; auto.
Qed.

Lemma re_sub_in_class s : Forall (fun c => in_class c = true) (re_sub_non_word s).
Proof.
  apply List.Forall_forall. intros c Hc.
  apply List.filter_In in Hc. tauto.
Qed.

(** C7: for every database and index name, whatever the lower-casing
    does, the sync name is a function of the two inputs, consists of
    characters of [0-9A-Za-z_] only, and is 1 to 63 characters, hence 1 to
    63 bytes, long. *)
Theorem name_well_formed (lower : pystr -> pystr) (database index : pystr) :
  let n := name lower database index in
  (forall database' index',
      database' = database -> index' = index ->
      name lower database' index' = n)
  /\ Forall (fun c => in_class c = true) n
  /\ 1 <= length n <= 63
  /\ 1 <= byte_length n <= 63.
Proof.
  intros n.
  assert (Hcls : Forall (fun c => in_class c = true) n).
  { apply Forall_firstn, re_sub_in_class. }
  assert (Hlen : 1 <= length n <= 63).
  { unfold n, name, re_sub_non_word.
    rewrite List.length_firstn, List.filter_app, List.length_app.
    change (List.filter in_class (95%N :: index))
      with (95%N :: List.filter in_class index).
    simpl length. lia. }
  split; [intros ? ? -> ->; reflexivity|].
  split; [exact Hcls|]. split; [exact Hlen|].
  now rewrite (byte_length_in_class n Hcls).
Qed.

Example name_book :
  name ascii_lower (of_ascii_string "Book-Store") (of_ascii_string "my.index")
  = of_ascii_string "bookstore_myindex".
Proof. vm_compute. reflexivity. Qed.

Example name_empty : name ascii_lower [] [] = of_ascii_string "_".
Proof. reflexivity. Qed.

Example name_truncated :
  length (name ascii_lower (repeat 97%N 100) (repeat 98%N 100)) = 63.
Proof. vm_compute. reflexivity. Qed.

Lemma name_well_formed_witness :
  let n := name ascii_lower (of_ascii_string "Book-Store")
             (of_ascii_string "my.index") in
  n = of_ascii_string "bookstore_myindex"
  /\ Forall (fun c => in_class c = true) n
  /\ 1 <= length n <= 63
  /\ 1 <= byte_length n <= 63.
Proof.
  intros n. split; [vm_compute; reflexivity|].
  exact (proj2 (name_well_formed ascii_lower (of_ascii_string "Book-Store")
                  (of_ascii_string "my.index"))).
Defined.

End SyncNameFacts.

(** ** Traces of the resolver monad *)

Section Emits.
Import Spec.

Context {A : Type} (P : event -> Prop).

Lemma emits_ret (a : A) : emits P (ret a).
Proof.
  intros tr r tr' [= <- <-]. exists []. now rewrite app_nil_r.
Qed.

Lemma emits_raise e : emits P (raise e : M A).
Proof.
  intros tr r tr' [= <- <-]. exists []. now rewrite app_nil_r.
Qed.

Lemma emits_lift (x : result A) : emits P (lift x).
Proof.
  intros tr r tr' [= <- <-]. exists []. now rewrite app_nil_r.
Qed.

Lemma emits_getitem (d : gmap string A) k : emits P (getitem d k).
Proof.
  unfold getitem. destruct (d !! k); [apply emits_ret | apply emits_raise].
Qed.

Lemma emits_list_getitem (l : list A) i : emits P (list_getitem l i).
Proof.
  unfold list_getitem. destruct (l !! i); [apply emits_ret | apply emits_raise].
Qed.

Lemma emits_bind {B} (m : M B) (k : B -> M A) :
  emits P m -> (forall b, returns m b -> emits P (k b)) ->
  emits P (bind m k).
Proof.
  intros Hm Hk tr r tr'. unfold bind.
  destruct (m tr) as [[b|e] tr1] eqn:Hrun; intros H.
  - destruct (Hm _ _ _ Hrun) as (new1 & -> & H1).
    destruct (Hk b (ex_intro _ tr (ex_intro _ _ Hrun)) _ _ _ H)
      as (new2 & -> & H2).
    exists (new1 ++ new2). rewrite app_assoc. split; [reflexivity|].
    now apply Forall_app.
  - injection H as <- <-. exact (Hm _ _ _ Hrun).
Qed.

Lemma emits_try_except (m handler : M A) e0 :
  emits P m -> emits P handler -> emits P (try_except m e0 handler).
Proof.
  intros Hm Hh tr r tr'. unfold try_except.
  destruct (m tr) as [[b|e] tr1] eqn:Hrun.
  - intros [= <- <-]. exact (Hm _ _ _ Hrun).
  - destruct (decide (e = e0)); intros H.
    + destruct (Hm _ _ _ Hrun) as (new1 & -> & H1).
      destruct (Hh _ _ _ H) as (new2 & -> & H2).
      exists (new1 ++ new2). rewrite app_assoc. split; [reflexivity|].
      now apply Forall_app.
    + injection H as <- <-. exact (Hm _ _ _ Hrun).
Qed.

Lemma emits_for_each {X} (l : list X) (body : A -> X -> M A) acc :
  (forall acc x, x ∈ l -> emits P (body acc x)) ->
  emits P (for_each l body acc).
Proof.
  revert acc. induction l as [|x l IH]; intros acc Hbody; simpl.
  - apply emits_ret.
  - apply emits_bind; [apply Hbody; left|].
    intros acc' _. apply IH. intros acc'' y Hy. apply Hbody. now right.
Qed.

End Emits.

Section EmitsMore.
Import Spec.

Lemma emits_emit (P : event -> Prop) ev : P ev -> emits P (emit ev).
Proof.
  intros Hev tr r tr' [= <- <-]. exists [ev]. split; [reflexivity|].
  now constructor.
Qed.

Lemma emits_map_each {X B} (P : event -> Prop) (f : X -> M B) l :
  (forall x, emits P (f x)) -> emits P (map_each f l).
Proof.
  intros Hf. induction l as [|x l IH]; simpl; [apply emits_ret|].
  apply emits_bind; [apply Hf|]. intros y _.
  apply emits_bind; [apply IH|]. intros ys _. apply emits_ret.
Qed.

Lemma emits_weaken {A} (P Q : event -> Prop) (m : M A) :
  (forall ev, P ev -> Q ev) -> emits P m -> emits Q m.
Proof.
  intros HPQ Hm tr r tr' H. destruct (Hm _ _ _ H) as (new & -> & Hnew).
  exists new. split; [reflexivity|]. eapply Forall_impl; eauto.
Qed.

Lemma emits_split (P : event -> Prop) sep s : emits P (split sep s).
Proof.
  unfold split. destruct (String.eqb sep ""); [apply emits_raise | apply emits_ret].
Qed.

Lemma emits_chunks {X} (P : event -> Prop) (l : list X) size :
  emits P (chunks l size).
Proof. destruct size; [apply emits_raise | apply emits_ret]. Qed.

Lemma emits_slot_extend (P : event -> Prop) table xs filters :
  emits P (slot_extend table xs filters).
Proof.
  unfold slot_extend. apply emits_bind; [apply emits_getitem|].
  intros. apply emits_ret.
Qed.

End EmitsMore.

Lemma bind_inv {S A B} (m : St S A) (k : A -> St S B) s r s' :
  bind m k s = (r, s') ->
  (exists a s1, m s = (Ok a, s1) /\ k a s1 = (r, s'))
  \/ (exists e, m s = (Raise e, s') /\ r = Raise e).
Proof.
  unfold bind. destruct (m s) as [[a|e] s1].
  - intros H. left. eauto.
  - intros [= <- <-]. right. eauto.
Qed.

(** Goals [emits P m] are solved along the structure of [m]. *)
Ltac emits_step :=
  match goal with
  | |- Spec.emits _ (ret _) => apply emits_ret
  | |- Spec.emits _ (raise _) => apply emits_raise
  | |- Spec.emits _ (lift _) => apply emits_lift
  | |- Spec.emits _ (getitem _ _) => apply emits_getitem
  | |- Spec.emits _ (list_getitem _ _) => apply emits_list_getitem
  | |- Spec.emits _ (list_getitem_str _ _) => apply emits_raise
  | |- Spec.emits _ (split _ _) => apply emits_split
  | |- Spec.emits _ (chunks _ _) => apply emits_chunks
  | |- Spec.emits _ (slot_extend _ _ _) => apply emits_slot_extend
  | |- Spec.emits _ (slot_append _ _ _) => apply emits_slot_extend
  | |- Spec.emits _ (map_each _ _) => apply emits_map_each; intros
  | |- Spec.emits _ (try_except _ _ _) => apply emits_try_except
  | |- Spec.emits _ (for_each _ _ _) => apply emits_for_each; intros
  | |- Spec.emits _ (bind _ _) => apply emits_bind; [|intros]
  | |- Spec.emits _ (if ?b then _ else _) => destruct b
  | |- Spec.emits _ (match ?x with _ => _ end) => destruct x
  | |- Spec.emits _ (let '(_, _) := ?x in _) => destruct x
  | |- Spec.emits _ ((let '(_, _) := ?x in _) _) => destruct x
  end.

Ltac emits_auto := repeat emits_step.

(** ** The resolver *)

Section MonadFacts.

Context {S : Type}.

Lemma map_each_getitem {V} (d : gmap string V) (keys : list string) (s : S) :
  Forall (fun key => is_Some (d !! key)) keys ->
  map_each (getitem d) keys s = (Ok (omap (fun key => d !! key) keys), s).
Proof.
  induction 1 as [|key keys [v Hv] _ IH]; [reflexivity|].
  simpl. unfold bind at 1, getitem at 1. rewrite Hv. unfold ret at 1.
  unfold bind at 1. rewrite IH. reflexivity.
Qed.

Lemma omap_present_length {V} (d : gmap string V) (keys : list string) :
  Forall (fun key => is_Some (d !! key)) keys ->
  length (omap (fun key => d !! key) keys) = length keys.
Proof.
  induction 1 as [|key keys [v Hv] _ IH]; [reflexivity|].
  simpl in *. rewrite Hv. simpl. now f_equal.
Qed.

End MonadFacts.

Section RootDelete.
Import Spec.

Variable self : Sync.t.

Hypothesis root_keys : Node.model_primary_keys (Sync.root self) <> [].



Lemma last_Forall {A} (P : A -> Prop) (l : list A) (d : A) :
  P d -> Forall P l -> P (List.last l d).
Proof.
  intros Hd H. induction H as [|x l Hx Hl IH]; [exact Hd|].
  destruct l; [exact Hx | exact IH].
Qed.




End RootDelete.

Section RootDeleteExample.
Import Spec Example.


(** The property does not hold for every run of the data model: with a
    routing column configured, a payload that carries the primary key
    only makes [_delete_op] raise [KeyError] at [payload.data[routing]],
    and no delete operation is written. *)
Example root_delete_without_routing_column :
  Sync._payloads (example_sync (Some "author_id"))
    [payload DELETE "book" [("id", VInt 8)] [] (Some 103%Z)] []
  = (Raise KeyError, []).
Proof. vm_compute. reflexivity. Qed.


End RootDeleteExample.

Section RootUpdate.
Import Spec.

Variable self : Sync.t.

Local Abbreviation keys := (Node.model_primary_keys (Sync.root self)).

Lemma omap_length_le {V} (d : gmap string V) (l : list string) :
  length (omap (fun key => d !! key) l) <= length l.
Proof.
  induction l as [|k l IH]; [reflexivity|].
  unfold omap in *. simpl in *. destruct (d !! k); simpl; lia.
Qed.

Lemma omap_length_present {V} (d : gmap string V) (l : list string) :
  length (omap (fun key => d !! key) l) = length l ->
  Forall (fun key => is_Some (d !! key)) l.
Proof.
  induction l as [|k l IH]; [constructor|].
  pose proof (omap_length_le d l) as Hle. unfold omap in *. simpl in *.
  destruct (d !! k) eqn:Hk; simpl; intros Hlen; [|lia].
  constructor; [eauto | apply IH; lia].
Qed.

(** The test of [_update_op] is the change of the primary key. *)
Lemma changed_test p :
  Forall (fun key => is_Some (Payload.new p !! key)) keys ->
  Nat.eqb (length (old_values self p)) (length (new_values self p))
  && negb (values_eqb (old_values self p) (new_values self p)) = true
  <-> primary_key_changed self p.
Proof.
  intros Hnew. unfold primary_key_changed, old_values, new_values.
  rewrite (omap_present_length _ _ Hnew).
  rewrite andb_true_iff, negb_true_iff, Nat.eqb_eq. split.
  - intros [Hlen Hne]. split; [|exact Hne].
    apply omap_length_present, Hlen.
  - intros [Hold Hne]. split; [|exact Hne].
    apply omap_present_length, Hold.
Qed.

(** With every key in [new], [data] is [new] on the keys. *)
Lemma data_new_on_keys p (l : list string) :
  Forall (fun key => is_Some (Payload.new p !! key)) l ->
  Forall (fun key => is_Some (Payload.data p !! key)) l
  /\ omap (fun key => Payload.data p !! key) l
     = omap (fun key => Payload.new p !! key) l.
Proof.
  intros H. unfold Payload.data.
  destruct (decide (Payload.new p = ∅)) as [He|_]; [|auto].
  destruct H as [|k l [v Hv] _]; [split; [constructor | reflexivity]|].
  rewrite He, lookup_empty in Hv. discriminate.
Qed.

Lemma update_op_root_unfold filters payloads :
  Node.is_root (Sync.root self) = true ->
  Sync._update_op self (Sync.root self) filters payloads
  = (let* (filters, docs) :=
       for_each payloads (update_step self) (filters, []) in
     let* _ :=
       match docs with
       | [] => ret tt
       | _ => Sync.bulk docs None None
       end in
     ret filters).
Proof. intros Hroot. unfold Sync._update_op. now rewrite Hroot. Qed.

Lemma changed_nonempty p :
  primary_key_changed self p -> old_values self p <> [].
Proof.
  intros [Hold Hne] Hnil. pose proof (omap_present_length _ _ Hold) as Hlen.
  fold (old_values self p) in Hlen. rewrite Hnil in *.
  unfold new_values in Hne.
  destruct (Node.model_primary_keys (Sync.root self)); [|discriminate].
  discriminate.
Qed.

Lemma update_step_spec filters slot docs p (tr : list event) :
  filters !! Node.table (Sync.root self) = Some slot ->
  Forall (fun key => is_Some (Payload.new p !! key)) keys ->
  update_step self (filters, docs) p tr
  = if decide (primary_key_changed self p) then
      match Sync.routing_column self with
      | Some _ => (Raise TypeError, tr)
      | None =>
          (Ok (<[Node.table (Sync.root self) :=
                   slot ++ [new_primary_fields self p]]> filters,
               docs ++ [old_delete_doc self p]), tr)
      end
    else
      (Ok (<[Node.table (Sync.root self) :=
               slot ++ [new_primary_fields self p]]> filters, docs), tr).
Proof.
  intros Hslot Hnew. destruct (data_new_on_keys p keys Hnew) as [Hdata Heq].
  unfold update_step. unfold bind at 1. unfold Sync.primary_values_of.
  rewrite (map_each_getitem _ _ _ Hdata), Heq.
  unfold bind at 1. unfold slot_append, slot_extend.
  unfold bind at 1. unfold getitem at 1. rewrite Hslot. unfold ret at 1.
  unfold ret at 1. unfold bind at 1.
  rewrite (map_each_getitem _ _ _ Hnew).
  fold (new_values self p) (old_values self p) (new_primary_fields self p).
  pose proof (changed_test p Hnew) as Htest.
  destruct (decide (primary_key_changed self p)) as [Hch|Hch].
  - rewrite (proj2 Htest Hch).
    unfold bind at 1. unfold Sync.get_doc_id.
    pose proof (changed_nonempty p Hch) as Hne.
    destruct (old_values self p) as [|v vs] eqn:Hov; [congruence|].
    unfold ret at 1. unfold bind at 1.
    unfold old_delete_doc, join_id. rewrite Hov.
    destruct (Sync.routing_column self); reflexivity.
  - destruct (Nat.eqb _ _ && negb _); [|reflexivity].
    exfalso. apply Hch, Htest. reflexivity.
Qed.

Lemma update_loop_without_routing payloads :
  Sync.routing_column self = None ->
  Forall (fun p => Forall (fun key => is_Some (Payload.new p !! key)) keys)
    payloads ->
  forall filters slot docs (tr : list event),
    filters !! Node.table (Sync.root self) = Some slot ->
    for_each payloads (update_step self) (filters, docs) tr
    = (Ok (<[Node.table (Sync.root self) :=
               slot ++ map (new_primary_fields self) payloads]> filters,
           docs ++ map (old_delete_doc self)
                     (filter (primary_key_changed self) payloads)), tr).
Proof.
  intros Hr. induction 1 as [|p payloads Hp _ IH];
    intros filters slot docs tr Hslot.
  - simpl. rewrite !app_nil_r, (insert_id _ _ _ Hslot). reflexivity.
  - cbn [for_each]. unfold bind at 1.
    rewrite (update_step_spec filters slot docs p tr Hslot Hp), Hr.
    rewrite filter_cons.
    destruct (decide (primary_key_changed self p)).
    + rewrite (IH _ (slot ++ [new_primary_fields self p]))
        by apply lookup_insert_eq.
      rewrite insert_insert_eq. cbn [map]. now rewrite <- !app_assoc.
    + rewrite (IH _ (slot ++ [new_primary_fields self p]))
        by apply lookup_insert_eq.
      rewrite insert_insert_eq. cbn [map]. now rewrite <- !app_assoc.
Qed.

(** What [_update_op] does on the root when no routing is configured:
    the new primary-key tuple of every payload is pushed into the slot of
    the root table, and a delete operation for the old document id is
    emitted for a payload exactly when its primary key changed. *)
Lemma update_op_root_without_routing payloads filters slot (tr : list event) :
  Node.is_root (Sync.root self) = true ->
  Sync.routing_column self = None ->
  Forall (fun p => Forall (fun key => is_Some (Payload.new p !! key)) keys)
    payloads ->
  filters !! Node.table (Sync.root self) = Some slot ->
  let docs :=
    map (old_delete_doc self) (filter (primary_key_changed self) payloads) in
  Sync._update_op self (Sync.root self) filters payloads tr
  = (Ok (<[Node.table (Sync.root self) :=
             slot ++ map (new_primary_fields self) payloads]> filters),
     tr ++ match docs with [] => [] | _ => [EvBulk docs None None] end).
Proof.
  intros Hroot Hr Hnew Hslot docs.
  rewrite (update_op_root_unfold _ _ Hroot). unfold bind at 1.
  rewrite (update_loop_without_routing payloads Hr Hnew filters slot [] tr Hslot).
  cbn [app]. fold docs. destruct docs; [now rewrite app_nil_r|reflexivity].
Qed.

(** With a routing column configured, the first payload whose primary key
    changed makes [_update_op] raise [TypeError]: the list of old values
    is indexed by the name of the column.  Nothing is written. *)
Lemma update_loop_with_routing r payloads :
  Sync.routing_column self = Some r ->
  Forall (fun p => Forall (fun key => is_Some (Payload.new p !! key)) keys)
    payloads ->
  Exists (primary_key_changed self) payloads ->
  forall filters slot docs (tr : list event),
    filters !! Node.table (Sync.root self) = Some slot ->
    for_each payloads (update_step self) (filters, docs) tr
    = (Raise TypeError, tr).
Proof.
  intros Hr. induction 1 as [|p payloads Hp _ IH];
    intros Hex filters slot docs tr Hslot.
  - inversion Hex.
  - cbn [for_each]. unfold bind at 1.
    rewrite (update_step_spec filters slot docs p tr Hslot Hp), Hr.
    destruct (decide (primary_key_changed self p)) as [|Hn]; [reflexivity|].
    apply (IH ltac:(inversion Hex; [contradiction|assumption])
             _ (slot ++ [new_primary_fields self p])).
    apply lookup_insert_eq.
Qed.

(** C2 (the code departs from it): with a routing column configured, a
    run of [UPDATE] payloads on the root table in which some payload
    changes the primary key raises [TypeError] in [_update_op]; no delete
    operation for the old document id reaches the bulk writer, although
    [old] holds every primary key and the values differ. *)
Theorem update_root_routing_raises r payloads filters slot (tr : list event) :
  Node.is_root (Sync.root self) = true ->
  Sync.routing_column self = Some r ->
  Forall (fun p => Forall (fun key => is_Some (Payload.new p !! key)) keys)
    payloads ->
  Exists (primary_key_changed self) payloads ->
  filters !! Node.table (Sync.root self) = Some slot ->
  Sync._update_op self (Sync.root self) filters payloads tr
  = (Raise TypeError, tr).
Proof.
  intros Hroot Hr Hnew Hex Hslot.
  rewrite (update_op_root_unfold _ _ Hroot). unfold bind at 1.
  now rewrite (update_loop_with_routing r payloads Hr Hnew Hex
                 filters slot [] tr Hslot).
Qed.

End RootUpdate.

Section RootUpdateExample.
Import Spec Example.

(** Scenario S2 of the specification: [UPDATE book {id: 7 -> 8}]. *)
Example update_primary_key_without_routing :
  Sync._payloads (example_sync None)
    [payload UPDATE "book" [("id", VInt 7)]
       [("id", VInt 8); ("author_id", VInt 3)] (Some 102%Z)] []
  = (Ok tt,
     [EvBulk [{| _id := "7"; _index := "book"; _op_type := "delete";
                 _routing := None; _type := None |}] None None;
      EvSync {[ "book" := [{[ "id" := VInt 8 ]}] ]}]).
Proof. vm_compute. reflexivity. Qed.

Example update_same_key_without_routing :
  Sync._payloads (example_sync None)
    [payload UPDATE "book" [("id", VInt 7)]
       [("id", VInt 7); ("author_id", VInt 4)] (Some 102%Z)] []
  = (Ok tt, [EvSync {[ "book" := [{[ "id" := VInt 7 ]}] ]}]).
Proof. vm_compute. reflexivity. Qed.

(** The same update with the routing column [author_id] configured. *)
Example update_primary_key_with_routing :
  Sync._payloads (example_sync (Some "author_id"))
    [payload UPDATE "book" [("id", VInt 7); ("author_id", VInt 3)]
       [("id", VInt 8); ("author_id", VInt 3)] (Some 102%Z)] []
  = (Raise TypeError, []).
Proof. vm_compute. reflexivity. Qed.

Lemma update_root_routing_raises_witness :
  let self := example_sync (Some "author_id") in
  let payloads :=
    [payload UPDATE "book" [("id", VInt 7); ("author_id", VInt 3)]
       [("id", VInt 8); ("author_id", VInt 3)] (Some 102%Z)] in
  let filters : gmap string (list (gmap string value)) := {[ "book" := [] ]} in
  Exists (primary_key_changed self) payloads
  /\ Sync._update_op self (Sync.root self) filters payloads []
     = (Raise TypeError, []).
Proof.
  intros self payloads filters.
  assert (Hex : Exists (primary_key_changed self) payloads).
  { constructor. split; [repeat constructor; vm_compute; eauto|].
    vm_compute. reflexivity. }
  split; [exact Hex|].
  apply (update_root_routing_raises self "author_id" payloads filters []).
  - reflexivity.
  - reflexivity.
  - repeat constructor; vm_compute; eauto.
  - exact Hex.
  - vm_compute. reflexivity.
Defined.

End RootUpdateExample.

(** ** Foreign key lookups *)

Section ForeignKeyLookups.
Import Spec.

Variable self : Sync.t.

Lemma emits_qb_get_foreign_keys (P : event -> Prop) parent node :
  P (EvForeignKeys false (Node.name <$> parent) (Node.name node)) ->
  emits P (Sync.qb_get_foreign_keys self parent node).
Proof.
  intros HP. unfold Sync.qb_get_foreign_keys.
  apply emits_bind; [now apply emits_emit | intros; apply emits_lift].
Qed.

Lemma emits_qb__get_foreign_keys (P : event -> Prop) parent node :
  P (EvForeignKeys true (Node.name <$> parent) (Node.name node)) ->
  emits P (Sync.qb__get_foreign_keys self parent node).
Proof.
  intros HP. unfold Sync.qb__get_foreign_keys.
  apply emits_bind; [now apply emits_emit | intros; apply emits_lift].
Qed.

Lemma emits_append_roots (P : event -> Prop) doc_ids filters :
  emits P (Sync.append_roots self doc_ids filters).
Proof.
  unfold Sync.append_roots, Sync.where_of_doc_id. emits_auto.
Qed.

Lemma emits_root_primary_key_resolver (P : event -> Prop) node payload filters :
  emits P (Sync._root_primary_key_resolver self node payload filters).
Proof.
  unfold Sync._root_primary_key_resolver, Sync.primary_values_of.
  emits_auto. apply emits_append_roots.
Qed.

Lemma emits_root_foreign_key_resolver (P : event -> Prop)
    node payload foreign_keys filters :
  emits P
    (Sync._root_foreign_key_resolver self node payload foreign_keys filters).
Proof.
  unfold Sync._root_foreign_key_resolver, Sync.parent_of.
  emits_auto. apply emits_append_roots.
Qed.

(** The lookup of [_insert_op] on a node of the tree and of [_update_op]
    on a node other than the root: when the preferred lookup raises
    [ForeignKeyError], the alternative one is made next and decides. *)
Lemma lookup_with_fallback parent node (tr : list event) :
  Sync.get_foreign_keys self parent node = Raise ForeignKeyError ->
  try_except (Sync.qb_get_foreign_keys self parent node) ForeignKeyError
    (Sync.qb__get_foreign_keys self parent node) tr
  = (Sync._get_foreign_keys self parent node,
     tr ++ [EvForeignKeys false (Node.name <$> parent) (Node.name node);
            EvForeignKeys true (Node.name <$> parent) (Node.name node)]).
Proof.
  intros H. unfold try_except, Sync.qb_get_foreign_keys,
    Sync.qb__get_foreign_keys, bind, emit, lift.
  rewrite H. rewrite decide_True by reflexivity.
  now rewrite <- app_assoc.
Qed.

(** [INSERT] on a node of the tree other than the root: the alternative
    lookup follows the failed preferred one. *)
Lemma insert_tree_node_falls_back node parent filters payloads
    (tr : list event) r tr' :
  Node.table node ∈ Tree.tables (Sync.tree self) ->
  Node.is_root node = false ->
  Node.parent node = Some parent ->
  Sync.get_foreign_keys self (Some parent) node = Raise ForeignKeyError ->
  Sync._insert_op self node filters payloads tr = (r, tr') ->
  exists rest,
    tr' = tr ++ EvForeignKeys false (Some (Node.name parent)) (Node.name node)
             :: EvForeignKeys true (Some (Node.name parent)) (Node.name node)
             :: rest.
Proof.
  intros Htab Hroot Hparent Hfk. unfold Sync._insert_op.
  rewrite (bool_decide_eq_true_2 _ Htab), Hroot, Hparent.
  unfold bind at 1. rewrite (lookup_with_fallback _ _ tr Hfk).
  destruct (Sync._get_foreign_keys self (Some parent) node) as [fk|e].
  - match goal with |- ?k _ = _ -> _ => assert (Hk : emits (fun _ => True) k) end.
    { emits_auto; try apply emits_root_foreign_key_resolver. }
    intros H. destruct (Hk _ _ _ H) as (new & -> & _).
    exists new. now rewrite <- app_assoc.
  - intros [= <- <-]. exists []. reflexivity.
Qed.

(** [UPDATE] on a node other than the root: once the primary-key
    resolver has answered for the first payload, the alternative lookup
    follows the failed preferred one. *)
Lemma update_child_falls_back node parent filters p rest found
    (tr tr1 : list event) r tr' :
  Node.is_root node = false ->
  Node.parent node = Some parent ->
  Sync.get_foreign_keys self (Some parent) node = Raise ForeignKeyError ->
  Sync._root_primary_key_resolver self node p [] tr = (Ok found, tr1) ->
  Sync._update_op self node filters (p :: rest) tr = (r, tr') ->
  exists more,
    tr' = tr ++ EvForeignKeys false (Some (Node.name parent)) (Node.name node)
             :: EvForeignKeys true (Some (Node.name parent)) (Node.name node)
             :: more.
Proof.
  intros Hroot Hparent Hfk Hres. unfold Sync._update_op.
  rewrite Hroot. cbn [for_each]. rewrite Hparent. intros H.
  destruct (emits_root_primary_key_resolver (fun _ => False)
              node p [] _ _ _ Hres) as (new & -> & Hnew).
  destruct new as [|ev new]; [|now inversion Hnew].
  rewrite app_nil_r in Hres.
  set (pre := [EvForeignKeys false (Some (Node.name parent)) (Node.name node);
               EvForeignKeys true (Some (Node.name parent)) (Node.name node)]).
  assert (Hext : forall A (m : M A) r1 t1 more1,
             emits (fun _ => True) m -> m (tr ++ pre ++ more1) = (r1, t1) ->
             exists more, t1 = tr ++ pre ++ more).
  { intros A m r1 t1 more1 Hm Hrun.
    destruct (Hm _ _ _ Hrun) as (new & -> & _).
    exists (more1 ++ new). now rewrite <- !app_assoc. }
  assert (Hbody : forall r1 t1,
    (let* _filters := Sync._root_primary_key_resolver self node p [] in
     let* _filters0 :=
       let* foreign_keys :=
         try_except (Sync.qb_get_foreign_keys self (Some parent) node)
           ForeignKeyError
           (Sync.qb__get_foreign_keys self (Some parent) node) in
       Sync._root_foreign_key_resolver self node p foreign_keys _filters in
     match _filters0 with
     | [] => ret filters
     | _ :: _ => slot_extend (Node.table (Sync.root self)) _filters0 filters
     end) tr = (r1, t1) ->
    exists more, t1 = tr ++ pre ++ more).
  { intros r1 t1 Hb.
    apply bind_inv in Hb as [(a & s1 & Ha & Hb)|(e & Ha & _)];
      [|rewrite Hres in Ha; discriminate].
    rewrite Hres in Ha. injection Ha as <- <-.
    apply bind_inv in Hb as [(a & s1 & Ha & Hb)|(e & Ha & _)].
    - apply bind_inv in Ha as [(fk & s2 & Hl & Ha)|(e & _ & [=])].
      rewrite (lookup_with_fallback _ _ tr Hfk) in Hl.
      injection Hl as Hl <-.
      apply (Hext _ _ _ _ [] (emits_root_foreign_key_resolver _ node p fk found))
        in Ha as (more1 & ->).
      apply (Hext _ _ _ _ more1) in Hb; [exact Hb|]. emits_auto.
    - apply bind_inv in Ha as [(fk & s2 & Hl & Ha)|(e' & Hl & _)];
        rewrite (lookup_with_fallback _ _ tr Hfk) in Hl;
        injection Hl as Hl <-.
      + apply (Hext _ _ _ _ [] (emits_root_foreign_key_resolver _ node p fk found))
          in Ha. exact Ha.
      + exists []. now rewrite app_nil_r. }
  apply bind_inv in H as [(a & s1 & Ha & H)|(e & Ha & _)].
  - apply Hbody in Ha as (more1 & ->).
    apply (Hext _ _ _ _ more1) in H; [exact H|].
    apply emits_for_each. intros.
    emits_auto; try apply emits_root_primary_key_resolver;
      try apply emits_root_foreign_key_resolver;
      try (apply emits_qb_get_foreign_keys; exact I);
      try (apply emits_qb__get_foreign_keys; exact I).
  - apply Hbody in Ha. exact Ha.
Qed.

(** The branch of [_insert_op] for a node whose table is outside
    [tree.tables] makes the preferred lookup outside any handler: called
    on such a node, [_insert_op] raises after the preferred lookup alone.
    [_payloads], its only caller, returns before the dispatch for a table
    outside [tree.tables]. *)
Lemma insert_outside_tree_no_fallback node filters payloads
    (tr : list event) :
  Node.table node ∉ Tree.tables (Sync.tree self) ->
  Sync.get_foreign_keys self (Node.parent node) node = Raise ForeignKeyError ->
  Sync._insert_op self node filters payloads tr
  = (Raise ForeignKeyError,
     tr ++ [EvForeignKeys false (Node.name <$> Node.parent node)
              (Node.name node)]).
Proof.
  intros Htab Hfk. unfold Sync._insert_op.
  rewrite (bool_decide_eq_false_2 _ Htab).
  unfold bind, Sync.qb_get_foreign_keys, emit, lift. now rewrite Hfk.
Qed.

End ForeignKeyLookups.

Section ForeignKeyExample.
Import Spec Example.

(** [INSERT] on [author], a node of the tree: the preferred lookup fails,
    the alternative one answers, and the run goes on. *)
Example insert_author_falls_back :
  Sync._insert_op (example_sync None) author
    {[ "author" := []; "book" := [] ]}
    [payload INSERT "author" [] [("id", VInt 4)] (Some 105%Z)] []
  = (Ok {[ "author" := []; "book" := [] ]},
     [EvForeignKeys false (Some "public.book") "public.author";
      EvForeignKeys true (Some "public.book") "public.author"]).
Proof. vm_compute. reflexivity. Qed.

(** [INSERT] on the through-table [book_author], whose table is not in
    [tree.tables]: the run is dropped before any lookup. *)
Example insert_through_table_dropped :
  Sync._payloads (example_sync None)
    [payload INSERT "book_author" []
       [("book_id", VInt 7); ("author_id", VInt 3)] (Some 105%Z)] []
  = (Ok tt, []).
Proof. vm_compute. reflexivity. Qed.

End ForeignKeyExample.

(** ** Execution of the filter set *)

Section Chunks.

Context {X : Type}.

Lemma chunks_go_nonempty_chunks fuel (l : list X) n :
  Forall (fun c => c <> []) (chunks_go fuel l (S n)).
Proof.
  revert l. induction fuel as [|fuel IH]; intros l; [constructor|].
  destruct l as [|x l]; [constructor|].
  cbn [chunks_go]. constructor; [discriminate | apply IH].
Qed.

Lemma chunks_go_cons (x : X) l n :
  chunks_go (length (x :: l)) (x :: l) (S n) <> [].
Proof. discriminate. Qed.

End Chunks.

Section FilterExecution.
Import Spec.

Variable self : Sync.t.

Lemma chunks_of_returns filters table cs :
  returns (Sync.chunks_of self filters table) cs ->
  exists slot n,
    filters !! table = Some slot
    /\ Sync.FILTER_CHUNK_SIZE self = S n
    /\ cs = chunks_go (length slot) slot (S n).
Proof.
  intros (tr & tr' & H). unfold Sync.chunks_of, chunks in H.
  destruct (filters !! table) as [slot|]; [|discriminate].
  destruct (Sync.FILTER_CHUNK_SIZE self) as [|n]; [discriminate|].
  injection H as <- _. eauto.
Qed.

Lemma chunks_of_nonempty_chunks filters table cs c :
  returns (Sync.chunks_of self filters table) cs -> c ∈ cs -> c <> [].
Proof.
  intros H Hin. apply chunks_of_returns in H as (slot & n & _ & _ & ->).
  pose proof (chunks_go_nonempty_chunks (length slot) slot n) as Hall.
  rewrite Forall_forall in Hall. now apply Hall.
Qed.

Lemma emits_chunks_of (P : event -> Prop) filters table :
  emits P (Sync.chunks_of self filters table).
Proof. unfold Sync.chunks_of. emits_auto. Qed.

Lemma filtered_sync_insert table (chunk : list (gmap string value)) f :
  chunk <> [] -> filtered_sync (EvSync (<[table := chunk]> f)).
Proof.
  intros Hne. eexists. split; [reflexivity|]. intros Hall.
  apply Hne. exact (map_Forall_insert_1_1 _ _ _ _ Hall).
Qed.

Lemma payloads_sync_unfold node filters :
  Sync._payloads_sync self node filters
  = (if Sync.any_values filters then
       let* l1s := Sync.chunks_of self filters (Node.table (Sync.root self)) in
       for_each l1s (fun _ l1 => sync_round self node filters l1) tt
     else ret tt).
Proof. reflexivity. Qed.

(** Every event of a round is a call of [sync] with a filter set that has
    a non-empty slot, provided the chunk of the root slot is not empty. *)
Lemma emits_sync_round node filters l1 :
  l1 <> [] -> emits filtered_sync (sync_round self node filters l1).
Proof.
  intros Hne1. unfold sync_round.
  destruct (Sync.slot_nonempty filters (Node.table node)).
  - apply emits_bind; [apply emits_chunks_of|]. intros l2s Hl2s.
    apply emits_for_each. intros _ l2 Hl2.
    pose proof (chunks_of_nonempty_chunks _ _ _ _ Hl2s Hl2) as Hne2.
    apply emits_bind.
    { unfold Sync.parent_of. emits_auto. }
    intros [parent|] _.
    + apply emits_bind; [apply emits_chunks_of|]. intros l3s Hl3s.
      apply emits_for_each. intros _ l3 Hl3.
      pose proof (chunks_of_nonempty_chunks _ _ _ _ Hl3s Hl3) as Hne3.
      apply emits_emit, filtered_sync_insert, Hne3.
    + apply emits_emit, filtered_sync_insert, Hne2.
  - apply emits_emit, filtered_sync_insert, Hne1.
Qed.

Lemma emits_payloads_sync node filters :
  emits filtered_sync (Sync._payloads_sync self node filters).
Proof.
  rewrite payloads_sync_unfold.
  destruct (Sync.any_values filters); [|apply emits_ret].
  apply emits_bind; [apply emits_chunks_of|]. intros l1s Hl1s.
  apply emits_for_each. intros _ l1 Hl1.
  apply emits_sync_round.
  exact (chunks_of_nonempty_chunks _ _ _ _ Hl1s Hl1).
Qed.

Lemma filtered_sync_calls new :
  Forall filtered_sync new ->
  exists calls,
    new = map EvSync calls /\ Forall (fun f => ~ all_slots_empty f) calls.
Proof.
  induction 1 as [|ev new (f & -> & Hf) _ (calls & -> & Hcalls)].
  - exists []. split; [reflexivity | constructor].
  - exists (f :: calls). split; [reflexivity | now constructor].
Qed.

Lemma sync_calls_map calls : sync_calls (map EvSync calls) = calls.
Proof. induction calls; [reflexivity|]. cbn. now f_equal. Qed.

(** With an empty (or missing) slot of the root table nothing is
    executed. *)
Lemma payloads_sync_root_empty node filters (tr : list event) r tr' :
  Sync.slot_nonempty filters (Node.table (Sync.root self)) = false ->
  Sync._payloads_sync self node filters tr = (r, tr') -> tr' = tr.
Proof.
  unfold Sync.slot_nonempty, Sync._payloads_sync, Sync.chunks_of, chunks.
  intros Hslot. destruct (Sync.any_values filters); [|now intros [= _ <-]].
  destruct (filters !! Node.table (Sync.root self)) as [[|x slot]|];
    [| discriminate |].
  - destruct (Sync.FILTER_CHUNK_SIZE self); now intros [= _ <-].
  - now intros [= _ <-].
Qed.

Lemma emits_length {A} (P : event -> Prop) (m : M A) (tr : list event) r tr' :
  emits P m -> m tr = (r, tr') -> length tr <= length tr'.
Proof.
  intros Hm H. destruct (Hm _ _ _ H) as (new & -> & _).
  rewrite length_app. lia.
Qed.

Lemma emits_some_emit ev : emits_some (emit ev).
Proof.
  intros tr a tr' H. injection H as _ <-. rewrite length_app. simpl. lia.
Qed.

Lemma emits_some_bind {A B} (P : event -> Prop) (m : M B) (k : B -> M A) :
  emits P m -> (forall b, returns m b -> emits_some (k b)) ->
  emits_some (bind m k).
Proof.
  intros Hm Hk tr a tr' H.
  apply bind_inv in H as [(b & s1 & Hb & H)|(e & _ & [=])].
  pose proof (emits_length _ _ _ _ _ Hm Hb).
  pose proof (Hk b (ex_intro _ tr (ex_intro _ _ Hb)) _ _ _ H). lia.
Qed.

Lemma emits_some_for_each {A Y} (P : event -> Prop)
    (body : A -> Y -> M A) x l acc :
  (forall acc, emits_some (body acc x)) ->
  (forall acc y, emits P (body acc y)) ->
  emits_some (for_each (x :: l) body acc).
Proof.
  intros Hx Hbody tr a tr' H. cbn [for_each] in H.
  apply bind_inv in H as [(b & s1 & Hb & H)|(e & _ & [=])].
  pose proof (Hx _ _ _ _ Hb).
  assert (Hrest : emits P (for_each l body b))
    by (apply emits_for_each; intros; apply Hbody).
  pose proof (emits_length _ _ _ _ _ Hrest H). lia.
Qed.

Lemma chunks_of_nonempty_slot filters table cs :
  Sync.slot_nonempty filters table = true ->
  returns (Sync.chunks_of self filters table) cs ->
  exists c cs', cs = c :: cs'.
Proof.
  unfold Sync.slot_nonempty. intros Hslot H.
  apply chunks_of_returns in H as (slot & n & Hl & _ & ->).
  rewrite Hl in Hslot. destruct slot as [|x slot]; [discriminate|].
  cbn [length chunks_go]. eauto.
Qed.

(** A round calls [sync] at least once when it returns. *)
Lemma emits_some_sync_round node filters l1 :
  emits_some (sync_round self node filters l1).
Proof.
  unfold sync_round.
  destruct (Sync.slot_nonempty filters (Node.table node)) eqn:Hnode;
    [|apply emits_some_emit].
  apply (emits_some_bind (fun _ => True)); [apply emits_chunks_of|].
  intros l2s Hl2s.
  destruct (chunks_of_nonempty_slot _ _ _ Hnode Hl2s) as (l2 & l2s' & ->).
  assert (Hinner : forall parent l2',
    Sync.slot_nonempty filters (Node.table parent) = true ->
    emits_some
      (let* l3s := Sync.chunks_of self filters (Node.table parent) in
       for_each l3s
         (fun _ l3 =>
            Sync.sync (<[Node.table parent := l3]>
                         (<[Node.table node := l2']>
                            (<[Node.table (Sync.root self) := l1]> ∅))))
         tt)).
  { intros parent l2' Hparent.
    apply (emits_some_bind (fun _ => True)); [apply emits_chunks_of|].
    intros l3s Hl3s.
    destruct (chunks_of_nonempty_slot _ _ _ Hparent Hl3s) as (l3 & l3s' & ->).
    apply (emits_some_for_each (fun _ => True)); intros.
    - apply emits_some_emit.
    - now apply emits_emit. }
  apply (emits_some_for_each (fun _ => True)).
  - intros _. apply (emits_some_bind (fun _ => True)).
    { unfold Sync.parent_of. emits_auto. }
    intros [parent|] Hret; [|apply emits_some_emit].
    apply Hinner. destruct Hret as (tr & tr' & Hret).
    destruct (Node.is_root node); [discriminate|].
    unfold Sync.parent_of in Hret.
    destruct (Node.parent node) as [p|]; [|discriminate].
    unfold bind, ret in Hret.
    destruct (Sync.slot_nonempty filters (Node.table p)) eqn:Hp;
      [|discriminate].
    now injection Hret as <- _.
  - intros _ l2'. apply emits_bind.
    { unfold Sync.parent_of. emits_auto. }
    intros [parent|] _.
    + apply emits_bind; [apply emits_chunks_of|]. intros.
      apply emits_for_each. intros. now apply emits_emit.
    + now apply emits_emit.
Qed.

Lemma emits_any_sync_round node filters l1 :
  emits (fun _ => True) (sync_round self node filters l1).
Proof.
  unfold sync_round, Sync.parent_of, Sync.sync.
  emits_auto; try apply emits_chunks_of; now apply emits_emit.
Qed.

Lemma slot_nonempty_any filters table :
  Sync.slot_nonempty filters table = true -> Sync.any_values filters = true.
Proof.
  unfold Sync.slot_nonempty, Sync.any_values. intros H.
  destruct (filters !! table) as [[|x slot]|] eqn:Hl; try discriminate.
  rewrite bool_decide_eq_false_2; [reflexivity|].
  intros Hall. specialize (Hall _ _ Hl). discriminate.
Qed.

(** With a non-empty slot of the root table, a run of [_payloads_sync]
    that returns has called [sync]. *)
Lemma emits_some_payloads_sync node filters :
  Sync.slot_nonempty filters (Node.table (Sync.root self)) = true ->
  emits_some (Sync._payloads_sync self node filters).
Proof.
  intros Hroot. rewrite payloads_sync_unfold.
  rewrite (slot_nonempty_any _ _ Hroot).
  apply (emits_some_bind (fun _ => True)); [apply emits_chunks_of|].
  intros l1s Hl1s.
  destruct (chunks_of_nonempty_slot _ _ _ Hroot Hl1s) as (l1 & l1s' & ->).
  apply (emits_some_for_each (fun _ => True)).
  - intros _. apply emits_some_sync_round.
  - intros _ l1'. apply emits_any_sync_round.
Qed.

Lemma slot_nonempty_not_all_empty filters table :
  Sync.slot_nonempty filters table = true -> ~ all_slots_empty filters.
Proof.
  unfold Sync.slot_nonempty. intros H Hall.
  destruct (filters !! table) as [[|x slot]|] eqn:Hl; try discriminate.
  specialize (Hall _ _ Hl). discriminate.
Qed.

(** C5, as the code has it: for the filter set the resolver produces for a
    run of payloads, the events of the execution are calls of [sync]
    only, each with a filter set that has a non-empty slot; a call is made
    only if the slot of the root table, hence some slot, is non-empty;
    and when the slot of the root table is non-empty and the run returns,
    at least one call is made. *)
Theorem sync_only_with_filters payloads node filters
    (tr tr1 : list event) r tr' :
  Sync._payloads_filters self payloads tr = (Ok (Some (node, filters)), tr1) ->
  Sync._payloads self payloads tr = (r, tr') ->
  exists calls,
    tr' = tr1 ++ map EvSync calls
    /\ Forall (fun f => ~ all_slots_empty f) calls
    /\ (calls <> [] ->
        Sync.slot_nonempty filters (Node.table (Sync.root self)) = true
        /\ ~ all_slots_empty filters)
    /\ (r = Ok tt ->
        Sync.slot_nonempty filters (Node.table (Sync.root self)) = true ->
        calls <> []).
Proof.
  intros Hres Hrun. unfold Sync._payloads, bind in Hrun.
  rewrite Hres in Hrun.
  destruct (emits_payloads_sync node filters _ _ _ Hrun) as (new & -> & Hnew).
  destruct (filtered_sync_calls new Hnew) as (calls & -> & Hcalls).
  exists calls. split; [reflexivity|]. split; [exact Hcalls|]. split.
  - intros Hne.
    destruct (Sync.slot_nonempty filters (Node.table (Sync.root self)))
      eqn:Hroot.
    + split; [reflexivity|]. eapply slot_nonempty_not_all_empty, Hroot.
    + exfalso. apply Hne.
      pose proof (payloads_sync_root_empty node filters _ _ _ Hroot Hrun) as He.
      apply (f_equal length) in He. rewrite length_app, length_map in He.
      destruct calls; [reflexivity | simpl in He; lia].
  - intros -> Hroot ->.
    pose proof (emits_some_payloads_sync node filters Hroot _ _ _ Hrun) as Hlt.
    simpl in Hlt. rewrite app_nil_r in Hlt. lia.
Qed.

End FilterExecution.

Section FilterExecutionExample.
Import Spec Example.

(** Scenario S1 of the specification: [INSERT book {id: 7}]. *)
Example insert_book_syncs :
  Sync._payloads (example_sync None)
    [payload INSERT "book" [] [("id", VInt 7); ("author_id", VInt 3)]
       (Some 101%Z)] []
  = (Ok tt, [EvSync {[ "book" := [{[ "id" := VInt 7 ]}] ]}]).
Proof. vm_compute. reflexivity. Qed.

(** Scenario S4: [UPDATE author {id: 3}] re-syncs the documents 7 and 9
    that reference the author. *)
Example update_author_syncs :
  sync_calls
    (Sync._payloads (example_sync None)
       [payload UPDATE "author" [] [("id", VInt 3); ("name", VStr "B")]
          (Some 104%Z)] []).2
  = [{[ "book" := [{[ "id" := VStr "7" ]}; {[ "id" := VStr "9" ]}] ]}].
Proof. vm_compute. reflexivity. Qed.

(** [INSERT biography {id: 4}]: the slot of the parent table [author] is
    filled, the slot of the root table stays empty, and [sync] is not
    called. *)
Example biography_insert_filters :
  Sync._payloads_filters (example_sync None) biography_insert []
  = (Ok (Some (biography,
               {[ "biography" := []; "book" := [];
                  "author" := [{[ "id" := VInt 4 ]}] ]})),
     [EvForeignKeys false (Some "public.author") "public.biography"]).
Proof. vm_compute. reflexivity. Qed.

Example biography_insert_no_sync :
  Sync._payloads (example_sync None) biography_insert []
  = (Ok tt, [EvForeignKeys false (Some "public.author") "public.biography"]).
Proof. vm_compute. reflexivity. Qed.

(** The claim C5 as stated fails on this run: a slot is non-empty and no
    call of [sync] is made. *)
Lemma sync_iff_some_slot_fails :
  ~ sync_iff_some_slot (example_sync None) biography_insert.
Proof.
  intros H.
  destruct (H _ _ _ _ _ biography_insert_filters biography_insert_no_sync)
    as [_ Hcall].
  apply Hcall; [|reflexivity].
  intros Hall.
  assert (Hl : ({[ "biography" := []; "book" := [];
                   "author" := [{[ "id" := VInt 4 ]}] ]}
                : gmap string (list (gmap string value))) !! "author"
               = Some [{[ "id" := VInt 4 ]}])
    by (vm_compute; reflexivity).
  specialize (Hall _ _ Hl). discriminate.
Qed.

Lemma sync_only_with_filters_witness :
  let self := example_sync None in
  let payloads :=
    [payload INSERT "book" [] [("id", VInt 7); ("author_id", VInt 3)]
       (Some 101%Z)] in
  let filters : gmap string (list (gmap string value)) :=
    {[ "book" := [{[ "id" := VInt 7 ]}] ]} in
  Sync._payloads_filters self payloads [] = (Ok (Some (book, filters)), [])
  /\ Sync._payloads self payloads [] = (Ok tt, [EvSync filters])
  /\ exists calls,
      [EvSync filters] = [] ++ map EvSync calls
      /\ Forall (fun f => ~ all_slots_empty f) calls
      /\ (calls <> [] ->
          Sync.slot_nonempty filters (Node.table (Sync.root self)) = true
          /\ ~ all_slots_empty filters)
      /\ (Ok tt = Ok tt ->
          Sync.slot_nonempty filters (Node.table (Sync.root self)) = true ->
          calls <> []).
Proof.
  intros self payloads filters.
  assert (H1 : Sync._payloads_filters self payloads []
               = (Ok (Some (book, filters)), []))
    by (vm_compute; reflexivity).
  assert (H2 : Sync._payloads self payloads [] = (Ok tt, [EvSync filters]))
    by (vm_compute; reflexivity).
  split; [exact H1|]. split; [exact H2|].
  exact (sync_only_with_filters self payloads book filters [] []
           (Ok tt) [EvSync filters] H1 H2).
Defined.

End FilterExecutionExample.

(** ** The fallback of the foreign key lookups, on every path *)

Section FallsBack.
Import Spec.

Variable alt : event.
Variable gave_up : Prop.













End FallsBack.



Section LookupsFallBack.
Import Spec.

Variable self : Sync.t.






Section Node.

Variable node : Node.t.

Local Abbreviation alt :=
  (EvForeignKeys true (Node.name <$> Node.parent node) (Node.name node)).
Local Abbreviation gave_up :=
  (Sync._get_foreign_keys self (Node.parent node) node = Raise ForeignKeyError).

Hypothesis preferred_raises :
  Sync.get_foreign_keys self (Node.parent node) node = Raise ForeignKeyError.






End Node.

End LookupsFallBack.

Section LookupsFallBackExample.
Import Spec Example.


End LookupsFallBackExample.

(** ** The consumer, the pull and the slot *)

Section Preserves.
Import Spec.

Context {S : Type} (R : S -> S -> Prop).
Hypothesis R_refl : forall s, R s s.
Hypothesis R_trans : forall s1 s2 s3, R s1 s2 -> R s2 s3 -> R s1 s3.

Lemma preserves_ret {A} (a : A) : preserves R (ret a).
Proof. intros s r s' [= _ <-]. apply R_refl. Qed.

Lemma preserves_raise {A} e : preserves R (raise e : St S A).
Proof. intros s r s' [= _ <-]. apply R_refl. Qed.

Lemma preserves_lift {A} (x : result A) : preserves R (lift x).
Proof. intros s r s' [= _ <-]. apply R_refl. Qed.

Lemma preserves_bind {A B} (m : St S A) (k : A -> St S B) :
  preserves R m -> (forall a, preserves R (k a)) -> preserves R (bind m k).
Proof.
  intros Hm Hk s r s' H.
  apply bind_inv in H as [(a & s1 & Ha & H)|(e & Ha & _)].
  - eapply R_trans; [exact (Hm _ _ _ Ha) | exact (Hk _ _ _ _ H)].
  - exact (Hm _ _ _ Ha).
Qed.

Lemma preserves_for_each {A X} (l : list X) (body : A -> X -> St S A) acc :
  (forall acc x, preserves R (body acc x)) ->
  preserves R (for_each l body acc).
Proof.
  intros Hbody. revert acc. induction l as [|x l IH]; intros acc; simpl.
  - apply preserves_ret.
  - apply preserves_bind; [apply Hbody | exact IH].
Qed.

End Preserves.

Section OrchestratorFacts.
Import Spec Orchestrator.

Context {DB : Type}.
Variable src : source DB.
Variable self : Sync.t.
Variable LOGICAL_SLOT_CHUNK_SIZE : nat.

Lemma same_but_events_refl (st : state DB) : same_but_events st st.
Proof. repeat split. Qed.

Lemma same_but_events_trans (s1 s2 s3 : state DB) :
  same_but_events s1 s2 -> same_but_events s2 s3 -> same_but_events s1 s3.
Proof.
  intros (? & ? & ? & ?) (? & ? & ? & ?). repeat split; congruence.
Qed.

Lemma preserves_run (m : M unit) :
  preserves (@same_but_events DB) (run m).
Proof.
  intros st r st'. unfold run. destruct (m (events st)) as [r0 tr].
  intros [= _ <-]. repeat split.
Qed.

Lemma preserves_bulk_payloads payloads :
  preserves (@same_but_events DB) (bulk_payloads self payloads).
Proof. apply preserves_run. Qed.

Lemma preserves_rows_loop rows payloads :
  preserves (@same_but_events DB) (rows_loop src self payloads rows).
Proof.
  revert payloads. induction rows as [|r rest IH]; intros payloads; simpl.
  - apply preserves_ret, same_but_events_refl.
  - apply preserves_bind;
      [apply same_but_events_trans
      | apply preserves_lift, same_but_events_refl |].
    intros payload.
    destruct (negb _); [apply IH|].
    destruct rest as [|r2 rest']; [apply preserves_bulk_payloads|].
    apply preserves_bind;
      [apply same_but_events_trans
      | apply preserves_lift, same_but_events_refl |].
    intros payload2. destruct (differ payload payload2); [|apply IH].
    apply preserves_bind;
      [apply same_but_events_trans | apply preserves_bulk_payloads |].
    intros _. apply IH.
Qed.

Lemma preserves_runs_loop payloads acc :
  preserves (@same_but_events DB) (runs_loop self acc payloads).
Proof.
  revert acc. induction payloads as [|p rest IH]; intros acc; simpl.
  - apply preserves_ret, same_but_events_refl.
  - destruct rest as [|p2 rest']; [apply preserves_bulk_payloads|].
    destruct (differ p p2); [|apply IH].
    apply preserves_bind;
      [apply same_but_events_trans | apply preserves_bulk_payloads |].
    intros _. apply IH.
Qed.

Lemma preserves_process_batch payloads :
  preserves (@same_but_events DB) (process_batch self payloads).
Proof.
  unfold process_batch. destruct (all_inserts payloads).
  - apply preserves_for_each;
      [apply same_but_events_refl | apply same_but_events_trans |].
    intros _ [tbl ps]. apply preserves_bulk_payloads.
  - apply preserves_runs_loop.
Qed.

Lemma drain_log_advances b log :
  drain_log b log -> forall prev, advances_match prev log.
Proof.
  induction 1 as [| |log _ IH]; intros prev; simpl; auto.
Qed.

Lemma drain_log_bounds b log :
  drain_log b log -> Forall (fun op => op = SlotPeek b \/ op = SlotGet b) log.
Proof.
  induction 1 as [| |log _ IH].
  - constructor.
  - constructor; [now left | constructor].
  - constructor; [now left|]. constructor; [now right | exact IH].
Qed.

(** The reads of one call of [logical_slot_changes]; the checkpoint and
    the flag [_truncate] are left alone. *)
Lemma logical_slot_changes_log fuel b (st : state DB) r st' :
  logical_slot_changes src self fuel b st = (r, st') ->
  exists new,
    slot_log st' = slot_log st ++ new /\ drain_log b new
    /\ checkpoint st' = checkpoint st /\ _truncate st' = _truncate st.
Proof.
  revert st. induction fuel as [|fuel IH]; intros st; cbn [logical_slot_changes].
  - intros [= _ <-]. exists []. rewrite app_nil_r.
    repeat split. constructor.
  - intros H.
    apply bind_inv in H as [(changes & s1 & Hp & H)|(e & Hp & _)];
      [|discriminate].
    unfold peek_changes in Hp. injection Hp as <- <-.
    destruct (logical_slot_peek_changes src b (db st)) as [|c changes].
    + injection H as _ <-. exists [SlotPeek b].
      repeat split. constructor.
    + apply bind_inv in H as [([] & s2 & Hrows & H)|(e & Hrows & _)].
      * apply preserves_rows_loop in Hrows as (Hdb & Hck & Htr & Hlog).
        apply bind_inv in H as [([] & s3 & Hget & H)|(e & Hget & _)];
          [|discriminate].
        unfold get_changes in Hget. injection Hget as <-.
        apply IH in H as (new & Hnew & Hdrain & Hck' & Htr').
        cbn [slot_log checkpoint _truncate] in *.
        exists (SlotPeek b :: SlotGet b :: new).
        split; [|split; [now constructor | split; congruence]].
        rewrite Hnew, Hlog. now rewrite <- !app_assoc.
      * apply preserves_rows_loop in Hrows as (Hdb & Hck & Htr & Hlog).
        cbn [slot_log checkpoint _truncate] in *.
        exists [SlotPeek b]. split; [exact Hlog|].
        split; [constructor | split; assumption].
Qed.

(** The reads of one call of [pull] are those of its call of
    [logical_slot_changes]. *)
Lemma pull_log fuel (st : state DB) r st' :
  pull src self LOGICAL_SLOT_CHUNK_SIZE fuel st = (r, st') ->
  exists new,
    slot_log st' = slot_log st ++ new
    /\ drain_log
         {| txmin := checkpoint st;
            txmax := Some (txid_current src (db st));
            upto_nchanges := Some LOGICAL_SLOT_CHUNK_SIZE;
            upto_lsn := Some (get_current_wal_lsn src (db st)) |} new.
Proof.
  unfold pull. intros H.
  apply bind_inv in H as [(txmin & s1 & H1 & H)|(e & H1 & _)];
    [|discriminate].
  unfold get_checkpoint in H1. injection H1 as <- <-.
  apply bind_inv in H as [(d & s1 & H1 & H)|(e & H1 & _)]; [|discriminate].
  unfold get_db in H1. injection H1 as <- <-.
  apply bind_inv in H as [([] & s1 & H1 & H)|(e & H1 & _)]; [|discriminate].
  unfold run, emit in H1. injection H1 as <-.
  apply bind_inv in H as [(finished & s2 & H2 & H)|(e & H2 & _)].
  - apply logical_slot_changes_log in H2 as (new & Hnew & Hdrain & _ & _).
    cbn [slot_log] in Hnew. exists new. split; [|exact Hdrain].
    destruct finished; [|now injection H as _ <-].
    apply bind_inv in H as [(d' & s3 & H3 & H)|(e & H3 & _)]; [|discriminate].
    unfold get_db in H3. injection H3 as _ <-.
    apply bind_inv in H as [([] & s3 & H3 & H)|(e & H3 & _)]; [|discriminate].
    unfold set_checkpoint in H3. injection H3 as <-.
    apply bind_inv in H as [([] & s4 & H4 & H)|(e & H4 & _)]; [|discriminate].
    unfold set_truncate in H4. injection H4 as <-.
    injection H as _ <-. exact Hnew.
  - apply logical_slot_changes_log in H2 as (new & Hnew & Hdrain & _ & _).
    cbn [slot_log] in Hnew. exists new. split; assumption.
Qed.

(** C6, as the code has it: every advance made by [logical_slot_changes],
    and so by [pull], comes right after a peek with the same bounds
    [(txmin, txmax, upto_nchanges, upto_lsn)]; the advance of the
    slot-truncation worker is made without a peek and with no bound at
    all. *)
Theorem advance_bounds :
  (forall fuel b (st : state DB) r st',
      logical_slot_changes src self fuel b st = (r, st') ->
      exists new,
        slot_log st' = slot_log st ++ new
        /\ (forall prev, advances_match prev new)
        /\ Forall (fun op => op = SlotPeek b \/ op = SlotGet b) new)
  /\ (forall fuel (st : state DB) r st',
        pull src self LOGICAL_SLOT_CHUNK_SIZE fuel st = (r, st') ->
        exists new,
          slot_log st' = slot_log st ++ new
          /\ (forall prev, advances_match prev new))
  /\ (forall st : state DB,
        exists st',
          _truncate_slots src st = (Ok tt, st')
          /\ slot_log st'
             = slot_log st
               ++ (if _truncate st then [SlotGet unbounded] else [])).
Proof.
  split; [|split].
  - intros fuel b st r st' H.
    apply logical_slot_changes_log in H as (new & Hnew & Hdrain & _).
    exists new. split; [exact Hnew|].
    split; [exact (drain_log_advances b new Hdrain)
           | exact (drain_log_bounds b new Hdrain)].
  - intros fuel st r st' H.
    apply pull_log in H as (new & Hnew & Hdrain).
    exists new. split; [exact Hnew|].
    exact (drain_log_advances _ new Hdrain).
  - intros st. unfold _truncate_slots, get_changes.
    destruct (_truncate st); eexists; (split; [reflexivity|]);
      [reflexivity | now rewrite app_nil_r].
Qed.

(** *** The checkpoint after a batch *)

Lemma fold_min_some xs a :
  fold_left
    (fun acc y =>
       match acc, y with
       | Ok (Some a), Some b => Ok (Some (Z.min a b))
       | Ok _, _ => Raise TypeError
       | Raise e, _ => Raise e
       end)
    (map Some xs) (Ok (Some a))
  = Ok (Some (fold_left Z.min xs a)).
Proof.
  revert a. induction xs as [|x xs IH]; intros a; [reflexivity|].
  simpl. apply IH.
Qed.

Lemma fold_min_same x xs :
  forallb (fun y => bool_decide (y = Some x)) (map Some xs) = true ->
  fold_left Z.min xs x = x.
Proof.
  induction xs as [|y xs IH]; [reflexivity|]. simpl.
  intros H. apply andb_prop in H as [Hy Hxs].
  apply bool_decide_eq_true_1 in Hy. injection Hy as ->.
  rewrite Z.min_id. now apply IH.
Qed.

Lemma min_txids_all_some x xs :
  min_txids (map Some (x :: xs)) = Ok (Some (minimum x xs)).
Proof.
  unfold min_txids, minimum. cbn [map].
  destruct (forallb _ _) eqn:Hall.
  - now rewrite (fold_min_same x xs Hall).
  - apply fold_min_some.
Qed.

Lemma fold_min_raise (l : list (option Z)) e :
  fold_left
    (fun acc y =>
       match acc, y with
       | Ok (Some a), Some b => Ok (Some (Z.min a b))
       | Ok _, _ => Raise TypeError
       | Raise e, _ => Raise e
       end)
    l (Raise e)
  = Raise e.
Proof. induction l as [|y l IH]; [reflexivity|]. simpl. apply IH. Qed.

Lemma fold_min_none_acc (l : list (option Z)) :
  l <> [] ->
  fold_left
    (fun acc y =>
       match acc, y with
       | Ok (Some a), Some b => Ok (Some (Z.min a b))
       | Ok _, _ => Raise TypeError
       | Raise e, _ => Raise e
       end)
    l (Ok None)
  = Raise TypeError.
Proof.
  destruct l as [|y l]; [congruence|]. intros _. simpl.
  destruct y; apply fold_min_raise.
Qed.

Lemma fold_min_none_in (l : list (option Z)) a :
  In None l ->
  fold_left
    (fun acc y =>
       match acc, y with
       | Ok (Some a), Some b => Ok (Some (Z.min a b))
       | Ok _, _ => Raise TypeError
       | Raise e, _ => Raise e
       end)
    l (Ok (Some a))
  = Raise TypeError.
Proof.
  revert a. induction l as [|y l IH]; intros a; [intros []|].
  intros [->|Hin]; simpl.
  - apply fold_min_raise.
  - destruct y; [now apply IH | apply fold_min_raise].
Qed.

(** [min] of a set that holds [None] and an [int] raises [TypeError]. *)
Lemma min_txids_mixed (l : list (option Z)) x :
  In None l -> In (Some x) l -> min_txids l = Raise TypeError.
Proof.
  intros Hnone Hsome. destruct l as [|y l]; [destruct Hnone|].
  unfold min_txids.
  destruct (forallb _ l) eqn:Hall.
  - exfalso. rewrite forallb_forall in Hall.
    assert (Hy : forall z, In z (y :: l) -> z = y).
    { intros z [<-|Hz]; [reflexivity|].
      exact (bool_decide_eq_true_1 _ (Hall z Hz)). }
    pose proof (Hy _ Hnone). pose proof (Hy _ Hsome). congruence.
  - destruct y as [a|].
    + apply fold_min_none_in. destruct Hnone as [|]; [discriminate|assumption].
    + apply fold_min_none_acc. intros ->. discriminate.
Qed.

Lemma only_None_mixed (l : list (option Z)) x :
  In (Some x) l -> only_None l = false.
Proof.
  intros Hin. unfold only_None. destruct l as [|y l]; [reflexivity|].
  apply not_true_is_false. intros Hall. rewrite forallb_forall in Hall.
  specialize (Hall _ Hin). now rewrite bool_decide_eq_true_2 in Hall by eauto.
Qed.

Lemma only_None_all payloads :
  payloads <> [] ->
  Forall (fun p => Payload.xmin p = None) payloads ->
  only_None (map Payload.xmin payloads) = true.
Proof.
  intros Hne Hall. unfold only_None.
  destruct payloads as [|p ps]; [congruence|]. cbn [map].
  apply forallb_forall. intros y Hy.
  change (p :: ps) with ([p] ++ ps) in Hall.
  rewrite <- map_cons in Hy. apply in_map_iff in Hy as (q & <- & Hq).
  rewrite Forall_forall in Hall. rewrite (Hall q); [reflexivity|].
  now apply list_elem_of_In.
Qed.

(** The four cases of the last lines of [_on_publish]. *)
Lemma advance_checkpoint_empty (st : state DB) :
  advance_checkpoint src [] st = (Raise ValueError, st).
Proof. reflexivity. Qed.

Lemma advance_checkpoint_all_none payloads (st : state DB) :
  payloads <> [] ->
  Forall (fun p => Payload.xmin p = None) payloads ->
  advance_checkpoint src payloads st = (Ok tt, st).
Proof.
  intros Hne Hall. unfold advance_checkpoint.
  now rewrite (only_None_all payloads Hne Hall).
Qed.

Lemma advance_checkpoint_all_some payloads x xs (st : state DB) :
  map Payload.xmin payloads = map Some (x :: xs) ->
  advance_checkpoint src payloads st
  = (Ok tt,
     {| db := db st;
        checkpoint :=
          Some (Z.min (minimum x xs) (txid_current src (db st)) - 1)%Z;
        _truncate := _truncate st; events := events st;
        slot_log := slot_log st |}).
Proof.
  intros Hx. unfold advance_checkpoint. rewrite Hx.
  rewrite (only_None_mixed _ x) by (now left).
  rewrite min_txids_all_some. reflexivity.
Qed.

Lemma advance_checkpoint_mixed payloads (st : state DB) :
  Exists (fun p => Payload.xmin p = None) payloads ->
  Exists (fun p => is_Some (Payload.xmin p)) payloads ->
  advance_checkpoint src payloads st = (Raise TypeError, st).
Proof.
  intros Hnone Hsome.
  apply Exists_exists in Hnone as (p & Hp & Hpn).
  apply Exists_exists in Hsome as (q & Hq & [x Hqx]).
  apply list_elem_of_In in Hp, Hq.
  apply (in_map Payload.xmin) in Hp, Hq. rewrite Hpn in Hp. rewrite Hqx in Hq.
  unfold advance_checkpoint.
  rewrite (only_None_mixed _ x Hq), (min_txids_mixed _ x Hp Hq).
  reflexivity.
Qed.

Lemma xmin_substitute_view p :
  Payload.xmin (substitute_view self p) = Payload.xmin p.
Proof.
  unfold substitute_view.
  generalize (Tree.nodes (Sync.tree self)). intros nodes. revert p.
  induction nodes as [|node nodes IH]; intros p; [reflexivity|].
  simpl. rewrite IH. now destruct (bool_decide _).
Qed.

Lemma xmins_substitute_view payloads :
  map Payload.xmin (map (substitute_view self) payloads)
  = map Payload.xmin payloads.
Proof.
  rewrite map_map. apply map_ext, xmin_substitute_view.
Qed.

Lemma Exists_substitute_view (P : option Z -> Prop) payloads :
  Exists (fun p => P (Payload.xmin p)) payloads ->
  Exists (fun p => P (Payload.xmin p)) (map (substitute_view self) payloads).
Proof.
  induction 1 as [p ps Hp|p ps _ IH]; cbn [map].
  - left. now rewrite xmin_substitute_view.
  - now right.
Qed.

(** C3 (the code departs from it): a batch that holds a payload without
    [xmin] next to one with an [xmin] is processed and then raises
    [TypeError] on [min(txids)]; the checkpoint is neither written nor
    deliberately skipped, although not every [xmin] is null. *)
Theorem mixed_xmins_raise payloads (st st1 : state DB) :
  Exists (fun p => Payload.xmin p = None) payloads ->
  Exists (fun p => is_Some (Payload.xmin p)) payloads ->
  process_batch self (map (substitute_view self) payloads) st = (Ok tt, st1) ->
  _on_publish src self payloads st = (Raise TypeError, st1)
  /\ checkpoint st1 = checkpoint st.
Proof.
  intros Hnone Hsome Hproc. unfold _on_publish, bind. rewrite Hproc.
  split.
  - apply advance_checkpoint_mixed.
    + exact (Exists_substitute_view (fun x => x = None) _ Hnone).
    + exact (Exists_substitute_view is_Some _ Hsome).
  - now apply preserves_process_batch in Hproc as (_ & Hck & _).
Qed.

(** The two cases the comment of [_on_publish] names: every [xmin] is
    null and the write is skipped, or every [xmin] is an [int] and the
    checkpoint becomes [min(min(xmins), txid_current) - 1]. *)
Lemma on_publish_all_none payloads (st st1 : state DB) :
  payloads <> [] ->
  Forall (fun p => Payload.xmin p = None) payloads ->
  process_batch self (map (substitute_view self) payloads) st = (Ok tt, st1) ->
  _on_publish src self payloads st = (Ok tt, st1)
  /\ checkpoint st1 = checkpoint st.
Proof.
  intros Hne Hall Hproc. unfold _on_publish, bind. rewrite Hproc. split.
  - apply advance_checkpoint_all_none.
    + destruct payloads; [congruence | discriminate].
    + apply Forall_forall. intros q Hq.
      apply list_elem_of_In, in_map_iff in Hq as (p & <- & Hp).
      rewrite xmin_substitute_view. rewrite Forall_forall in Hall.
      now apply Hall, list_elem_of_In.
  - now apply preserves_process_batch in Hproc as (_ & Hck & _).
Qed.

Lemma on_publish_all_some payloads x xs (st st1 : state DB) :
  map Payload.xmin payloads = map Some (x :: xs) ->
  process_batch self (map (substitute_view self) payloads) st = (Ok tt, st1) ->
  exists st',
    _on_publish src self payloads st = (Ok tt, st')
    /\ checkpoint st'
       = Some (Z.min (minimum x xs) (txid_current src (db st)) - 1)%Z.
Proof.
  intros Hx Hproc. unfold _on_publish, bind. rewrite Hproc.
  rewrite <- xmins_substitute_view in Hx.
  rewrite (advance_checkpoint_all_some _ x xs st1 Hx).
  apply preserves_process_batch in Hproc as (Hdb & _).
  eexists. split; [reflexivity|]. cbn [checkpoint]. now rewrite Hdb.
Qed.

Lemma xmins_some_or_mixed (l : list (option Z)) :
  Exists is_Some l ->
  (exists x xs, l = map Some (x :: xs)) \/ In None l.
Proof.
  induction l as [|y l IH]; intros H; [inversion H|].
  destruct y as [a|]; [|right; now left].
  destruct l as [|z l']; [left; exists a, []; reflexivity|].
  assert (Hl : Exists is_Some (z :: l')
               \/ Forall (fun o => o = None) (z :: l')).
  { clear. induction (z :: l') as [|o l IH]; [right; constructor|].
    destruct o; [left; left; eauto|].
    destruct IH as [IH|IH]; [left; now right | right; now constructor]. }
  destruct Hl as [Hl|Hl].
  - destruct (IH Hl) as [(x & xs & ->)|Hn].
    + left. exists a, (x :: xs). reflexivity.
    + right. now right.
  - right. right. left. now inversion Hl.
Qed.

(** C4, as the code has it: the checkpoint written after a batch with a
    non-null [xmin] is [min(min(xmins), txid_current) - 1] and the one
    written by [pull] is the transaction id read at its start (read again
    at its end when that is 0), whatever was stored before; it is not
    below the stored checkpoint [c] provided [c] is below every [xmin] of
    the batch and below the current transaction id (for [pull]: not
    above the transaction id read at its start). *)
Theorem checkpoint_written :
  (forall payloads (st st' : state DB),
      _on_publish src self payloads st = (Ok tt, st') ->
      Exists (fun p => is_Some (Payload.xmin p)) payloads ->
      exists x xs,
        map Payload.xmin payloads = map Some (x :: xs)
        /\ checkpoint st'
           = Some (Z.min (minimum x xs) (txid_current src (db st)) - 1)%Z
        /\ forall c,
             checkpoint st = Some c ->
             (c < minimum x xs)%Z -> (c < txid_current src (db st))%Z ->
             (c <= Z.min (minimum x xs) (txid_current src (db st)) - 1)%Z)
  /\ (forall fuel (st st' : state DB),
        pull src self LOGICAL_SLOT_CHUNK_SIZE fuel st = (Ok true, st') ->
        let txmax := txid_current src (db st) in
        let written :=
          if Z.eqb txmax 0 then txid_current src (db st') else txmax in
        checkpoint st' = Some written
        /\ forall c,
             checkpoint st = Some c -> txmax <> 0%Z -> (c <= txmax)%Z ->
             (c <= written)%Z).
Proof.
  split.
  - intros payloads st st' Hrun Hsome.
    unfold _on_publish in Hrun.
    apply bind_inv in Hrun as [([] & st1 & Hproc & Hrun)|(e & _ & [=])].
    pose proof (Exists_substitute_view is_Some _ Hsome) as Hsome'.
    assert (Hx : Exists is_Some
                   (map Payload.xmin (map (substitute_view self) payloads))).
    { clear -Hsome'. induction Hsome'; cbn [map]; [now left | now right]. }
    apply xmins_some_or_mixed in Hx as [(x & xs & Hx)|Hnone].
    + rewrite (advance_checkpoint_all_some _ x xs st1 Hx) in Hrun.
      injection Hrun as <-.
      apply preserves_process_batch in Hproc as (Hdb & _).
      rewrite xmins_substitute_view in Hx.
      exists x, xs. split; [exact Hx|]. cbn [checkpoint]. rewrite Hdb.
      split; [reflexivity|]. intros c _ H1 H2. lia.
    + exfalso.
      assert (Hn : Exists (fun p => Payload.xmin p = None)
                     (map (substitute_view self) payloads)).
      { apply in_map_iff in Hnone as (p & Hp & Hin).
        apply Exists_exists. exists p. split; [now apply list_elem_of_In|auto]. }
      rewrite (advance_checkpoint_mixed _ st1 Hn Hsome') in Hrun.
      discriminate.
  - intros fuel st st' H txmax written.
    unfold pull in H.
    apply bind_inv in H as [(txmin & s1 & H1 & H)|(e & _ & [=])].
    unfold get_checkpoint in H1. injection H1 as <- <-.
    apply bind_inv in H as [(d & s1 & H1 & H)|(e & _ & [=])].
    unfold get_db in H1. injection H1 as <- <-.
    apply bind_inv in H as [([] & s1 & H1 & H)|(e & _ & [=])].
    apply bind_inv in H as [(finished & s2 & H2 & H)|(e & _ & [=])].
    destruct finished; [|discriminate].
    apply bind_inv in H as [(d' & s3 & H3 & H)|(e & _ & [=])].
    unfold get_db in H3. injection H3 as <- <-.
    apply bind_inv in H as [([] & s3 & H3 & H)|(e & _ & [=])].
    unfold set_checkpoint in H3. injection H3 as <-.
    apply bind_inv in H as [([] & s4 & H4 & H)|(e & _ & [=])].
    unfold set_truncate in H4. injection H4 as <-.
    injection H as <-. cbn [checkpoint db].
    split; [reflexivity|]. intros c _ Hz Hc. unfold written.
    cbn [db]. fold txmax. destruct (Z.eqb_spec txmax 0); [contradiction|].
    exact Hc.
Qed.

End OrchestratorFacts.

Section OrchestratorExamples.
Import Spec Example Orchestrator.

Example pull_at_startup :
  pull example_source (example_sync None) 5000 3 startup = (Ok true, after_pull)
  /\ checkpoint after_pull = Some 100%Z
  /\ _truncate after_pull = true
  /\ slot_log after_pull
     = [SlotPeek pull_bounds; SlotGet pull_bounds; SlotPeek pull_bounds]
  /\ events after_pull
     = [EvSyncRange (Some 90%Z) (Some 100%Z);
        EvSync {[ "book" := [{[ "id" := VInt 7 ]}] ]}].
Proof. vm_compute. repeat split. Qed.

(** Scenario S5 of the specification: a [TRUNCATE] alone deletes the
    documents and leaves the checkpoint. *)
Example truncate_only_batch :
  let '(r, st') :=
    _on_publish example_source (example_sync None)
      [payload TRUNCATE "book" [] [] None] after_pull in
  r = Ok tt /\ checkpoint st' = Some 100%Z
  /\ bulk_docs (events st')
     = [Sync.delete_doc (example_sync None) "7" None;
        Sync.delete_doc (example_sync None) "9" None].
Proof. vm_compute. repeat split. Qed.

Lemma mixed_xmins_raise_witness :
  let st1 :=
    (process_batch (example_sync None)
       (map (substitute_view (example_sync None)) mixed_batch) after_pull).2 in
  Exists (fun p => Payload.xmin p = None) mixed_batch
  /\ Exists (fun p => is_Some (Payload.xmin p)) mixed_batch
  /\ _on_publish example_source (example_sync None) mixed_batch after_pull
     = (Raise TypeError, st1)
  /\ checkpoint st1 = Some 100%Z.
Proof.
  intros st1.
  assert (H1 : Exists (fun p => Payload.xmin p = None) mixed_batch)
    by (left; reflexivity).
  assert (H2 : Exists (fun p => is_Some (Payload.xmin p)) mixed_batch)
    by (right; left; vm_compute; eauto).
  assert (H3 : process_batch (example_sync None)
                 (map (substitute_view (example_sync None)) mixed_batch)
                 after_pull = (Ok tt, st1))
    by (vm_compute; reflexivity).
  split; [exact H1|]. split; [exact H2|].
  exact (mixed_xmins_raise example_source (example_sync None)
           mixed_batch after_pull st1 H1 H2 H3).
Defined.

(** The claim C4 as stated fails: the batch buffered during the pull
    takes the checkpoint from 100 back to 94. *)
Example buffered_batch_checkpoint :
  let '(r, st') :=
    _on_publish example_source (example_sync None) buffered_batch after_pull in
  r = Ok tt /\ checkpoint st' = Some 94%Z.
Proof. vm_compute. split; reflexivity. Qed.

Lemma checkpoint_never_decreases_fails :
  ~ checkpoint_never_decreases example_source (example_sync None)
      buffered_batch after_pull.
Proof.
  intros H.
  assert (Hsome : Exists (fun p => is_Some (Payload.xmin p)) buffered_batch)
    by (left; vm_compute; eauto).
  specialize (H Hsome
    (_on_publish example_source (example_sync None) buffered_batch after_pull).2
    100%Z 94%Z).
  assert (Hle : (100 <= 94)%Z);
    [apply H; vm_compute; reflexivity | lia].
Qed.

Lemma checkpoint_written_witness :
  let st' :=
    (_on_publish example_source (example_sync None) buffered_batch after_pull).2 in
  _on_publish example_source (example_sync None) buffered_batch after_pull
  = (Ok tt, st')
  /\ (exists x xs,
        map Payload.xmin buffered_batch = map Some (x :: xs)
        /\ checkpoint st'
           = Some (Z.min (minimum x xs)
                     (txid_current example_source (db after_pull)) - 1)%Z
        /\ forall c,
             checkpoint after_pull = Some c ->
             (c < minimum x xs)%Z ->
             (c < txid_current example_source (db after_pull))%Z ->
             (c <= Z.min (minimum x xs)
                     (txid_current example_source (db after_pull)) - 1)%Z)
  /\ checkpoint after_pull
     = Some (if Z.eqb (txid_current example_source (db startup)) 0
             then txid_current example_source (db after_pull)
             else txid_current example_source (db startup)).
Proof.
  intros st'.
  assert (H1 : _on_publish example_source (example_sync None)
                 buffered_batch after_pull = (Ok tt, st'))
    by (vm_compute; reflexivity).
  assert (H2 : Exists (fun p => is_Some (Payload.xmin p)) buffered_batch)
    by (left; vm_compute; eauto).
  assert (H3 : pull example_source (example_sync None) 5000 3 startup
               = (Ok true, after_pull))
    by (vm_compute; reflexivity).
  destruct (checkpoint_written example_source (example_sync None) 5000)
    as [Hbatch Hpull].
  split; [exact H1|].
  split; [exact (Hbatch buffered_batch after_pull st' H1 H2)|].
  exact (proj1 (Hpull 3 startup after_pull H3)).
Defined.

(** The claim C6 as stated fails once the slot-truncation worker runs: its
    advance has no bound, the peek before it had those of the pull. *)
Example truncate_after_pull :
  let '(r, st') := _truncate_slots example_source after_pull in
  r = Ok tt
  /\ slot_log st'
     = [SlotPeek pull_bounds; SlotGet pull_bounds; SlotPeek pull_bounds;
        SlotGet unbounded].
Proof. vm_compute. split; reflexivity. Qed.

Lemma every_advance_matches_peek_fails :
  ~ every_advance_matches_peek
      (_truncate_slots example_source after_pull).2.
Proof.
  unfold every_advance_matches_peek.
  change (slot_log (_truncate_slots example_source after_pull).2)
    with [SlotPeek pull_bounds; SlotGet pull_bounds; SlotPeek pull_bounds;
          SlotGet unbounded].
  simpl. intros (_ & _ & _ & H & _). discriminate.
Qed.

Lemma advance_bounds_witness :
  pull example_source (example_sync None) 5000 3 startup = (Ok true, after_pull)
  /\ (exists new,
        slot_log after_pull = slot_log startup ++ new
        /\ forall prev, advances_match prev new)
  /\ (exists st',
        _truncate_slots example_source after_pull = (Ok tt, st')
        /\ slot_log st'
           = slot_log after_pull
             ++ (if _truncate after_pull then [SlotGet unbounded] else [])).
Proof.
  assert (H : pull example_source (example_sync None) 5000 3 startup
              = (Ok true, after_pull))
    by (vm_compute; reflexivity).
  destruct (advance_bounds example_source (example_sync None) 5000)
    as (_ & Hpull & Htrunc).
  split; [exact H|].
  split; [exact (Hpull 3 startup (Ok true) after_pull H)|].
  exact (Htrunc after_pull).
Defined.

End OrchestratorExamples.

(** ** More on the checkpoint store *)

Section StripFacts.

Lemma lstrip_spaces a s :
  all_chars is_space a = true -> lstrip (a +:+ s) = lstrip s.
Proof.
  induction a as [|c a IH]; [reflexivity|]. simpl.
  intros H. apply andb_prop in H as [-> Ha]. now apply IH.
Qed.

Lemma rstrip_all_space b : all_chars is_space b = true -> rstrip b = EmptyString.
Proof.
  induction b as [|c b IH]; [reflexivity|]. simpl.
  intros H. apply andb_prop in H as [-> Hb]. now rewrite (IH Hb).
Qed.

Lemma rstrip_spaces s b :
  all_chars is_space b = true -> rstrip (s +:+ b) = rstrip s.
Proof.
  intros Hb. induction s as [|c s IH]; simpl.
  - now apply rstrip_all_space.
  - now rewrite IH.
Qed.

Lemma lstrip_append_spaces s b :
  all_chars is_space b = true ->
  rstrip (lstrip (s +:+ b)) = rstrip (lstrip s).
Proof.
  intros Hb. induction s as [|c s IH]; simpl.
  - rewrite rstrip_all_space.
    + reflexivity.
    + clear -Hb. induction b as [|c b IH]; [reflexivity|]. simpl in *.
      apply andb_prop in Hb as [Hc Hb]. rewrite Hc. now apply IH.
  - destruct (is_space c); [exact IH|].
    change (String c (s +:+ b)) with (String c s +:+ b).
    now apply rstrip_spaces.
Qed.

(** [int] ignores white space around the literal. *)
Lemma int_of_str_spaces m a s b :
  all_chars is_space a = true -> all_chars is_space b = true ->
  int_of_str m (a +:+ (s +:+ b)) = int_of_str m s.
Proof.
  intros Ha Hb. unfold int_of_str, strip.
  now rewrite (lstrip_spaces a _ Ha), (lstrip_append_spaces s b Hb).
Qed.

End StripFacts.

Section CheckpointMore.
Import Checkpoint.

Variable int_max_str_digits : nat.

(** X1: a checkpoint file edited by hand reads back: when the file holds
    the decimal representation of [v] with white space (a final newline,
    say) before or after it, [get_value] returns [v] and caches it. *)
Theorem FileCheckpoint_get_value_padded (v : Z) s before after self fs :
  str_int int_max_str_digits v = Ok s ->
  all_chars is_space before = true ->
  all_chars is_space after = true ->
  files fs !! _checkpoint_file self = Some (before +:+ (s +:+ after)) ->
  FileCheckpoint_get_value int_max_str_digits self fs
  = (Ok (Some v),
     {| _checkpoint := Some v; _checkpoint_file := _checkpoint_file self |}).
Proof.
  intros Hs Ha Hb Hfile. unfold FileCheckpoint_get_value. rewrite Hfile.
  rewrite (int_of_str_spaces _ _ _ _ Ha Hb).
  now rewrite (int_of_str_str_int _ _ _ Hs).
Qed.


(** X3: the shared-KV backend round-trips: after a successful
    [set_value(v)], [get_value()] returns [v]; and after [teardown] it
    returns [None], the other keys of the store being left alone. *)
Theorem RedisCheckpoint_set_get_teardown (v : Z) self store store' :
  RedisCheckpoint_set_value int_max_str_digits (Some v) self store
  = (Ok tt, store') ->
  RedisCheckpoint_get_value int_max_str_digits self store' = Ok (Some v)
  /\ RedisCheckpoint_get_value int_max_str_digits self
       (RedisCheckpoint_teardown self store') = Ok None
  /\ (forall key, key <> _key self ->
        RedisCheckpoint_teardown self store' !! key = store !! key).
Proof.
  intros H. split; [exact (RedisCheckpoint_roundtrip _ _ _ _ _ H)|].
  unfold RedisCheckpoint_set_value in H.
  destruct (str_int _ v) as [s|e]; [|discriminate]. injection H as <-.
  unfold RedisCheckpoint_get_value, RedisCheckpoint_teardown. split.
  - now rewrite lookup_delete_eq.
  - intros key Hne. rewrite lookup_delete_ne by congruence.
    now rewrite lookup_insert_ne by congruence.
Qed.

End CheckpointMore.

Section CheckpointMoreExamples.
Import Checkpoint.

Lemma FileCheckpoint_get_value_padded_witness :
  let fs := {| files := {[ "/var/lib/pgsync/.book_book" := "  -42
" ]}; denied := ∅ |} in
  FileCheckpoint_get_value default_int_max_str_digits example_checkpoint fs
  = (Ok (Some (-42)%Z),
     {| _checkpoint := Some (-42)%Z;
        _checkpoint_file := "/var/lib/pgsync/.book_book" |}).
Proof.
  intros fs.
  apply (FileCheckpoint_get_value_padded default_int_max_str_digits (-42)%Z
           "-42" "  " "
" example_checkpoint fs); reflexivity.
Defined.


Lemma RedisCheckpoint_set_get_teardown_witness :
  let self := RedisCheckpoint_init "pgsync" "book_book" in
  let store : gmap string string := {[ "queue:book_book" := "[]" ]} in
  let store' := <[ "pgsync:book_book" := "-3" ]> store in
  RedisCheckpoint_set_value default_int_max_str_digits (Some (-3)%Z) self store
  = (Ok tt, store')
  /\ RedisCheckpoint_get_value default_int_max_str_digits self store'
     = Ok (Some (-3)%Z)
  /\ RedisCheckpoint_get_value default_int_max_str_digits self
       (RedisCheckpoint_teardown self store') = Ok None.
Proof.
  intros self store store'.
  assert (H : RedisCheckpoint_set_value default_int_max_str_digits
                (Some (-3)%Z) self store = (Ok tt, store'))
    by reflexivity.
  destruct (RedisCheckpoint_set_get_teardown default_int_max_str_digits
              (-3)%Z self store store' H) as (Hget & Hgone & _).
  split; [exact H|]. split; [exact Hget | exact Hgone].
Defined.

End CheckpointMoreExamples.

(** ** More on the sync name *)

Section SyncNameMore.
Import SyncName.

Lemma filter_in_class_idem s :
  List.filter in_class (List.filter in_class s) = List.filter in_class s.
Proof.
  induction s as [|c s IH]; [reflexivity|]. simpl.
  destruct (in_class c) eqn:Hc; [|exact IH]. simpl. now rewrite Hc, IH.
Qed.

(** X4: the truncation can drop the index from the name: when the
    database name alone gives 63 characters of the class or more, the
    name is the first 63 of them, so that syncs of that database on
    different indices get the same name (and replication slot). *)
Theorem name_long_database_ignores_index (lower : pystr -> pystr)
    (database index index' : pystr) :
  63 <= length (re_sub_non_word (lower database)) ->
  name lower database index = firstn 63 (re_sub_non_word (lower database))
  /\ name lower database index = name lower database index'.
Proof.
  intros Hlen.
  assert (H : forall i,
    name lower database i = firstn 63 (re_sub_non_word (lower database))).
  { intros i. unfold name, re_sub_non_word in *.
    rewrite List.filter_app, List.firstn_app.
    replace (63 - length (List.filter in_class (lower database))) with 0 by lia.
    now rewrite app_nil_r. }
  split; [apply H | now rewrite !H].
Qed.

(** X5: the characters outside [0-9a-zA-Z_] do not tell two names apart:
    an index and the same index without them give the same name. *)
Theorem name_ignores_removed_characters (lower : pystr -> pystr)
    (database index : pystr) :
  name lower database index
  = name lower database (re_sub_non_word index).
Proof.
  unfold name, re_sub_non_word.
  rewrite !List.filter_app. cbn [List.filter].
  change (in_class 95) with true. cbv iota.
  now rewrite filter_in_class_idem.
Qed.

Lemma name_long_database_ignores_index_witness :
  let database := repeat 97%N 63 in
  63 <= length (re_sub_non_word (ascii_lower database))
  /\ name ascii_lower database (of_ascii_string "books")
     = name ascii_lower database (of_ascii_string "authors").
Proof.
  intros database.
  assert (H : 63 <= length (re_sub_non_word (ascii_lower database)))
    by (vm_compute; lia).
  split; [exact H|].
  exact (proj2 (name_long_database_ignores_index ascii_lower database
                  (of_ascii_string "books") (of_ascii_string "authors") H)).
Defined.

Example name_dash_collision :
  name ascii_lower (of_ascii_string "shop") (of_ascii_string "my-index")
  = name ascii_lower (of_ascii_string "shop") (of_ascii_string "myindex").
Proof. vm_compute. reflexivity. Qed.

End SyncNameMore.

(** ** More on the resolver *)

Section PayloadsDispatch.
Import Spec Spec2.

Variable self : Sync.t.

Lemma for_each_emit {X} (f : X -> event) (l : list X) (tr : list event) :
  for_each l (fun _ x => emit (f x)) tt tr = (Ok tt, tr ++ map f l).
Proof.
  revert tr. induction l as [|x l IH]; intros tr; simpl.
  - now rewrite app_nil_r.
  - unfold bind at 1, emit at 1. rewrite IH. now rewrite <- app_assoc.
Qed.

Lemma for_each_append {X} (evs : X -> list event) (body : X -> M unit)
    (l : list X) (tr : list event) :
  (forall x tr, body x tr = (Ok tt, tr ++ evs x)) ->
  for_each l (fun _ x => body x) tt tr = (Ok tt, tr ++ concat (map evs l)).
Proof.
  intros Hbody. revert tr. induction l as [|x l IH]; intros tr; simpl.
  - now rewrite app_nil_r.
  - unfold bind at 1. rewrite Hbody, IH. now rewrite <- app_assoc.
Qed.

Lemma check_loop_checked (node : Node.t) payloads (tr : list event) :
  Forall (keys_checked node) payloads ->
  for_each payloads
    (fun _ payload =>
       if bool_decide (Payload.data payload = ∅) then ret tt
       else if bool_decide
                 (Forall (fun key => is_Some (Payload.data payload !! key))
                    (Node.model_primary_keys node))
       then ret tt
       else raise RuntimeError)
    tt tr
  = (Ok tt, tr).
Proof.
  induction 1 as [|p payloads Hp _ IH]; [reflexivity|].
  simpl. unfold bind at 1.
  destruct (bool_decide (Payload.data p = ∅)) eqn:He; [exact IH|].
  destruct Hp as [Hp|Hp];
    [apply bool_decide_eq_false_1 in He; contradiction|].
  rewrite (bool_decide_eq_true_2 _ Hp). exact IH.
Qed.

(** The first half of [_payloads] on a run that passes its tests: the
    slots are set up and the operation is dispatched. *)
Lemma payloads_filters_dispatch op node payloads (tr : list event) :
  op ∈ TG_OP ->
  payloads <> [] ->
  run_on self op node payloads ->
  Forall (keys_checked node) payloads ->
  Sync._payloads_filters self payloads tr
  = (let filters : gmap string (list (gmap string value)) :=
       <[Node.table (Sync.root self) := []]> (<[Node.table node := []]> ∅) in
     let* filters :=
       if Node.is_root node then ret filters
       else let* parent := Sync.parent_of node in
            ret (<[Node.table parent := []]> filters) in
     let* filters :=
       if String.eqb op INSERT
       then Sync._insert_op self node filters payloads else ret filters in
     let* filters :=
       if String.eqb op UPDATE
       then Sync._update_op self node filters payloads else ret filters in
     let* filters :=
       if String.eqb op DELETE
       then Sync._delete_op self node filters payloads else ret filters in
     let* filters :=
       if String.eqb op TRUNCATE
       then Sync._truncate_op self node filters else ret filters in
     ret (Some (node, filters))) tr.
Proof.
  intros Hop Hne Hrun Hchk.
  destruct payloads as [|p0 rest]; [congruence|].
  pose proof (Forall_inv Hrun) as (Hp0 & _ & Htab & Hsch & Hnode).
  unfold Sync._payloads_filters.
  unfold bind at 1. unfold list_getitem at 1. cbn [lookup list_lookup].
  unfold ret at 1. rewrite Hp0.
  rewrite (bool_decide_eq_true_2 _ Hop).
  rewrite (bool_decide_eq_true_2 _ Htab), (bool_decide_eq_true_2 _ Hsch).
  cbn [negb orb]. rewrite Hnode.
  unfold bind at 1. unfold lift at 1.
  unfold bind at 1. rewrite (check_loop_checked node _ tr Hchk).
  assert (Hlast : Payload.tg_op (List.last (p0 :: rest) p0) = op).
  { apply (last_Forall (fun p => Payload.tg_op p = op)); [exact Hp0|].
    eapply Forall_impl; [exact Hrun | intros ? [? _]; assumption]. }
  rewrite Hlast. reflexivity.
Qed.

End PayloadsDispatch.

Section ChunkFacts.

Context {X : Type}.

Lemma chunks_go_nil fuel size : chunks_go fuel (@nil X) size = [].
Proof. destruct fuel; reflexivity. Qed.

Lemma concat_chunks_go fuel (l : list X) n :
  length l <= fuel -> concat (chunks_go fuel l (S n)) = l.
Proof.
  revert l. induction fuel as [|fuel IH]; intros l Hlen.
  - destruct l; [reflexivity | simpl in Hlen; lia].
  - destruct l as [|x l]; [reflexivity|].
    cbn [chunks_go concat]. rewrite IH.
    + apply firstn_skipn.
    + rewrite List.length_skipn. simpl in *. lia.
Qed.

Lemma chunks_go_single (l : list X) n :
  l <> [] -> length l <= S n -> chunks_go (length l) l (S n) = [l].
Proof.
  intros Hne Hlen. destruct l as [|x l]; [congruence|].
  cbn [length chunks_go].
  rewrite List.firstn_all2 by exact Hlen.
  rewrite List.skipn_all2 by exact Hlen.
  now rewrite chunks_go_nil.
Qed.

End ChunkFacts.

Section RootRuns.
Import Spec Spec2.

Variable self : Sync.t.

Local Abbreviation root_table := (Node.table (Sync.root self)).

(** The execution of a filter set for the root node itself: the slot of
    the root is chunked twice, and every chunk is synced once per chunk. *)
Lemma payloads_sync_on_root filters records n (tr : list event) :
  Node.is_root (Sync.root self) = true ->
  filters !! root_table = Some records ->
  records <> [] ->
  Sync.FILTER_CHUNK_SIZE self = S n ->
  let cs := chunks_go (length records) records (S n) in
  Sync._payloads_sync self (Sync.root self) filters tr
  = (Ok tt,
     tr ++ concat (map (fun _ => map (fun c => EvSync {[ root_table := c ]}) cs)
                     cs)).
Proof.
  intros Hroot Hslot Hne Hsize cs.
  assert (Hnonempty : Sync.slot_nonempty filters root_table = true).
  { unfold Sync.slot_nonempty. rewrite Hslot.
    destruct records; [congruence | reflexivity]. }
  assert (Hchunks : forall tr0 : list event,
    Sync.chunks_of self filters root_table tr0 = (Ok cs, tr0)).
  { intros tr0. unfold Sync.chunks_of, chunks. now rewrite Hslot, Hsize. }
  rewrite payloads_sync_unfold, (slot_nonempty_any _ _ Hnonempty).
  unfold bind at 1. rewrite Hchunks.
  apply (for_each_append
           (fun _ => map (fun c => EvSync {[ root_table := c ]}) cs)
           (sync_round self (Sync.root self) filters)).
  intros l1 tr0. unfold sync_round. rewrite Hnonempty.
  unfold bind at 1. rewrite Hchunks.
  rewrite (for_each_append (fun c => [EvSync {[ root_table := c ]}])
             (fun l2 =>
                let* with_parent :=
                  if Node.is_root (Sync.root self) then ret None
                  else
                    let* parent := Sync.parent_of (Sync.root self) in
                    if Sync.slot_nonempty filters (Node.table parent)
                    then ret (Some parent) else ret None in
                match with_parent with
                | Some parent =>
                    let* l3s := Sync.chunks_of self filters (Node.table parent) in
                    for_each l3s
                      (fun _ l3 =>
                         Sync.sync (<[Node.table parent := l3]>
                                      (<[root_table := l2]>
                                         (<[root_table := l1]> ∅))))
                      tt
                | None =>
                    Sync.sync (<[root_table := l2]> (<[root_table := l1]> ∅))
                end)).
  - f_equal. f_equal. clear. induction cs as [|c cs' IH]; [reflexivity|].
    cbn [map concat app]. now rewrite IH.
  - intros l2 tr1. unfold bind at 1. rewrite Hroot. unfold ret at 1.
    unfold Sync.sync, emit. now rewrite insert_insert_eq, insert_empty.
Qed.

Lemma insert_root_loop payloads :
  Forall (fun p => Forall (fun key => is_Some (Payload.data p !! key))
                     (Node.model_primary_keys (Sync.root self))) payloads ->
  forall (filters : gmap string (list (gmap string value))) slot
         (tr : list event),
    filters !! root_table = Some slot ->
    for_each payloads
      (fun filters payload =>
         let* primary_values :=
           Sync.primary_values_of payload
             (Node.model_primary_keys (Sync.root self)) in
         let primary_fields :=
           dict_of (zip (Node.model_primary_keys (Sync.root self))
                      primary_values) in
         slot_append root_table primary_fields filters)
      filters tr
    = (Ok (<[root_table := slot ++ map (data_primary_fields self) payloads]>
             filters), tr).
Proof.
  induction 1 as [|p payloads Hp _ IH]; intros filters slot tr Hslot.
  - simpl. now rewrite app_nil_r, (insert_id _ _ _ Hslot).
  - cbn [for_each]. unfold bind at 1. unfold bind at 1.
    unfold Sync.primary_values_of. rewrite (map_each_getitem _ _ _ Hp).
    unfold slot_append, slot_extend. unfold bind at 1, getitem at 1.
    rewrite Hslot. unfold ret at 1. unfold ret at 1.
    rewrite (IH _ (slot ++ [data_primary_fields self p]))
      by apply lookup_insert_eq.
    rewrite insert_insert_eq. cbn [map]. now rewrite <- app_assoc.
Qed.

(** X6: a run of [INSERT] payloads on the root table, each holding the
    primary keys of the root, deletes nothing and syncs the primary-key
    records of the payloads: the records are cut into chunks of
    [FILTER_CHUNK_SIZE] that together are the records in order, every call
    of [sync] filters the root table by one chunk, and the calls are the
    chunks repeated once per chunk; when the records fit into one chunk
    there is exactly one call, with all of them. *)
Theorem insert_root_syncs_records payloads n (tr : list event) :
  Node.is_root (Sync.root self) = true ->
  payloads <> [] ->
  run_on self INSERT (Sync.root self) payloads ->
  Forall (fun p => Forall (fun key => is_Some (Payload.data p !! key))
                     (Node.model_primary_keys (Sync.root self))) payloads ->
  Sync.FILTER_CHUNK_SIZE self = S n ->
  let records := map (data_primary_fields self) payloads in
  let cs := chunks_go (length records) records (S n) in
  Sync._payloads self payloads tr
  = (Ok tt,
     tr ++ concat (map (fun _ => map (fun c => EvSync {[ root_table := c ]}) cs)
                     cs))
  /\ concat cs = records
  /\ (length payloads <= S n ->
      Sync._payloads self payloads tr
      = (Ok tt, tr ++ [EvSync {[ root_table := records ]}])).
Proof.
  intros Hroot Hne Hrun Hkeys Hsize records cs.
  assert (Hrec : records <> []).
  { unfold records. destruct payloads; [congruence | discriminate]. }
  assert (Htable : root_table ∈ Tree.tables (Sync.tree self)).
  { destruct payloads as [|p0 rest]; [congruence|].
    destruct (Forall_inv Hrun) as (_ & <- & Hin & _). exact Hin. }
  assert (Hmain :
    Sync._payloads self payloads tr
    = (Ok tt,
       tr ++ concat (map (fun _ => map (fun c => EvSync {[ root_table := c ]}) cs)
                       cs))).
  { unfold Sync._payloads. unfold bind at 1.
    rewrite (payloads_filters_dispatch self INSERT (Sync.root self) payloads tr);
      [| unfold TG_OP, INSERT; set_solver | exact Hne | exact Hrun
       | eapply Forall_impl; [exact Hkeys | intros p Hp; now right] ].
    cbv zeta. rewrite Hroot.
    change (String.eqb INSERT INSERT) with true.
    change (String.eqb INSERT UPDATE) with false.
    change (String.eqb INSERT DELETE) with false.
    change (String.eqb INSERT TRUNCATE) with false.
    cbv iota.
    unfold bind at 1. unfold ret at 1.
    unfold bind at 1. unfold Sync._insert_op.
    rewrite (bool_decide_eq_true_2 _ Htable), Hroot.
    rewrite (insert_root_loop payloads Hkeys _ [] tr)
      by apply lookup_insert_eq.
    cbn [app]. fold records.
    unfold bind at 1. unfold ret at 1.
    unfold bind at 1. unfold ret at 1.
    unfold bind at 1. unfold ret at 1.
    unfold ret at 1.
    apply (payloads_sync_on_root _ records n tr Hroot);
      [apply lookup_insert_eq | exact Hrec | exact Hsize]. }
  split; [exact Hmain|]. split.
  - apply concat_chunks_go. reflexivity.
  - intros Hlen. rewrite Hmain. unfold cs.
    rewrite chunks_go_single; [| exact Hrec | unfold records; now rewrite length_map].
    cbn [map concat]. now rewrite app_nil_r.
Qed.

(** X7: a run of [TRUNCATE] payloads on the root table deletes, in one
    bulk write, every document the index holds for the table, whatever the
    number of payloads, and calls [sync] not at all; with no document
    there is no bulk write either. *)
Theorem truncate_root_deletes_all payloads (tr : list event) :
  Node.is_root (Sync.root self) = true ->
  payloads <> [] ->
  run_on self TRUNCATE (Sync.root self) payloads ->
  Forall (keys_checked (Sync.root self)) payloads ->
  let docs :=
    map (fun doc_id => Sync.delete_doc self doc_id None)
      (Sync._search self root_table None) in
  Sync._payloads self payloads tr
  = (Ok tt, tr ++ match docs with [] => [] | _ => [EvBulk docs None None] end).
Proof.
  intros Hroot Hne Hrun Hchk docs.
  unfold Sync._payloads. unfold bind at 1.
  rewrite (payloads_filters_dispatch self TRUNCATE (Sync.root self) payloads tr);
    [| unfold TG_OP, TRUNCATE; set_solver | exact Hne | exact Hrun | exact Hchk ].
  cbv zeta. rewrite Hroot.
  change (String.eqb TRUNCATE INSERT) with false.
  change (String.eqb TRUNCATE UPDATE) with false.
  change (String.eqb TRUNCATE DELETE) with false.
  change (String.eqb TRUNCATE TRUNCATE) with true.
  cbv iota.
  unfold bind at 1. unfold ret at 1.
  unfold bind at 1. unfold ret at 1.
  unfold bind at 1. unfold ret at 1.
  unfold bind at 1. unfold ret at 1.
  unfold bind at 1. unfold Sync._truncate_op. rewrite Hroot.
  fold docs. unfold bind at 1.
  assert (Hsync : forall tr0 : list event,
    Sync._payloads_sync self (Sync.root self)
      (<[root_table := []]> (<[root_table := []]> ∅)) tr0 = (Ok tt, tr0)).
  { intros tr0. unfold Sync._payloads_sync, Sync.any_values.
    rewrite bool_decide_eq_true_2; [reflexivity|].
    repeat apply map_Forall_insert_2; try reflexivity.
    apply map_Forall_empty. }
  destruct docs as [|d docs'].
  - unfold ret at 1. unfold ret at 1. unfold ret at 1.
    rewrite Hsync. now rewrite app_nil_r.
  - unfold Sync.bulk, emit at 1. unfold ret at 1. unfold ret at 1.
    now rewrite Hsync.
Qed.

End RootRuns.

Section RunValidation.
Import Spec Spec2.

Variable self : Sync.t.

(** X8: a run whose first payload is of a table or of a schema outside the
    tree is dropped: nothing is looked up, written or synced and no error
    is raised, whatever the other payloads of the run are. *)
Theorem payloads_unknown_table_dropped p0 rest (tr : list event) :
  Payload.tg_op p0 ∈ TG_OP ->
  Payload.table p0 ∉ Tree.tables (Sync.tree self)
  \/ Payload.schema p0 ∉ Tree.schemas (Sync.tree self) ->
  Sync._payloads self (p0 :: rest) tr = (Ok tt, tr).
Proof.
  intros Hop Hout. unfold Sync._payloads, Sync._payloads_filters.
  unfold bind at 1. unfold bind at 1. unfold list_getitem at 1.
  cbn [lookup list_lookup]. unfold ret at 1.
  rewrite (bool_decide_eq_true_2 _ Hop). cbn [negb].
  destruct Hout as [Hout|Hout]; rewrite (bool_decide_eq_false_2 _ Hout).
  - reflexivity.
  - rewrite orb_true_r. reflexivity.
Qed.

Lemma check_loop_fails (node : Node.t) payloads (tr : list event) :
  Exists (fun p => ~ keys_checked node p) payloads ->
  for_each payloads
    (fun _ payload =>
       if bool_decide (Payload.data payload = ∅) then ret tt
       else if bool_decide
                 (Forall (fun key => is_Some (Payload.data payload !! key))
                    (Node.model_primary_keys node))
       then ret tt
       else raise RuntimeError)
    tt tr
  = (Raise RuntimeError, tr).
Proof.
  induction payloads as [|p payloads IH]; intros Hex; [inversion Hex|].
  cbn [for_each]. unfold bind at 1.
  destruct (bool_decide (Payload.data p = ∅)) eqn:He.
  - apply bool_decide_eq_true_1 in He. unfold ret at 1.
    apply IH. inversion Hex as [? ? Hbad|]; [|assumption].
    exfalso. apply Hbad. now left.
  - destruct (bool_decide (Forall _ _)) eqn:Hk; [|reflexivity].
    apply bool_decide_eq_true_1 in Hk. unfold ret at 1.
    apply IH. inversion Hex as [? ? Hbad|]; [|assumption].
    exfalso. apply Hbad. now right.
Qed.

(** X9: a run on a table of the tree in which some payload carries data
    without one of the primary keys of the node fails as a whole: the
    exception is raised before any lookup, bulk write or sync. *)
Theorem payloads_missing_key_raises op node payloads (tr : list event) :
  op ∈ TG_OP ->
  run_on self op node payloads ->
  Exists (fun p => ~ keys_checked node p) payloads ->
  Sync._payloads self payloads tr = (Raise RuntimeError, tr).
Proof.
  intros Hop Hrun Hbad.
  destruct payloads as [|p0 rest]; [inversion Hbad|].
  pose proof (Forall_inv Hrun) as (Hp0 & _ & Htab & Hsch & Hnode).
  unfold Sync._payloads, Sync._payloads_filters.
  unfold bind at 1. unfold bind at 1. unfold list_getitem at 1.
  cbn [lookup list_lookup]. unfold ret at 1. rewrite Hp0.
  rewrite (bool_decide_eq_true_2 _ Hop).
  rewrite (bool_decide_eq_true_2 _ Htab), (bool_decide_eq_true_2 _ Hsch).
  cbn [negb orb]. rewrite Hnode.
  unfold bind at 1. unfold lift at 1.
  unfold bind at 1. now rewrite (check_loop_fails node _ tr Hbad).
Qed.

Lemma no_bulk_filtered_sync ev : filtered_sync ev -> no_bulk ev.
Proof. intros (f & -> & _). exact I. Qed.

Lemma emits_insert_op_no_bulk node filters payloads :
  emits no_bulk (Sync._insert_op self node filters payloads).
Proof.
  unfold Sync._insert_op, Sync.primary_values_of, Sync.parent_of.
  emits_auto;
    try apply emits_root_foreign_key_resolver;
    try (apply emits_qb_get_foreign_keys; exact I);
    try (apply emits_qb__get_foreign_keys; exact I).
Qed.

Lemma emits_update_op_child_no_bulk node filters payloads :
  Node.is_root node = false ->
  emits no_bulk (Sync._update_op self node filters payloads).
Proof.
  intros Hroot. unfold Sync._update_op. rewrite Hroot.
  emits_auto;
    try apply emits_root_primary_key_resolver;
    try apply emits_root_foreign_key_resolver;
    try (apply emits_qb_get_foreign_keys; exact I);
    try (apply emits_qb__get_foreign_keys; exact I).
Qed.

Lemma emits_delete_op_child_no_bulk node filters payloads :
  Node.is_root node = false ->
  emits no_bulk (Sync._delete_op self node filters payloads).
Proof.
  intros Hroot. unfold Sync._delete_op. rewrite Hroot.
  emits_auto; apply emits_root_primary_key_resolver.
Qed.

Lemma emits_truncate_op_child_no_bulk node filters :
  Node.is_root node = false ->
  emits no_bulk (Sync._truncate_op self node filters).
Proof.
  intros Hroot. unfold Sync._truncate_op. rewrite Hroot.
  emits_auto; apply emits_append_roots.
Qed.

(** X10: documents are deleted for changes of the root table only: a run
    on a node other than the root makes no bulk write of delete
    operations, whatever its operation and whether it returns or raises. *)
Theorem child_run_never_deletes p0 rest node (tr : list event) r tr' :
  Tree.get_node (Sync.tree self) (Payload.table p0) (Payload.schema p0)
  = Ok node ->
  Node.is_root node = false ->
  Sync._payloads self (p0 :: rest) tr = (r, tr') ->
  exists new,
    tr' = tr ++ new /\ Forall no_bulk new /\ bulk_docs tr' = bulk_docs tr.
Proof.
  intros Hnode Hroot Hrun.
  assert (Hemits : emits no_bulk (Sync._payloads self (p0 :: rest))).
  { unfold Sync._payloads, Sync._payloads_filters.
    apply emits_bind.
    - apply emits_bind; [apply emits_list_getitem|].
      intros p (s0 & s1 & Hp). injection Hp as <- _.
      destruct (negb _); [apply emits_raise|].
      destruct (_ || _); [apply emits_ret|].
      apply emits_bind; [apply emits_lift|].
      intros node' (t0 & t1 & Hn). unfold lift in Hn. rewrite Hnode in Hn.
      injection Hn as <- _.
      apply emits_bind; [emits_auto|]. intros _ _.
      rewrite Hroot.
      apply emits_bind; [unfold Sync.parent_of; emits_auto|]. intros f1 _.
      apply emits_bind;
        [destruct (String.eqb _ _);
           [apply emits_insert_op_no_bulk | apply emits_ret]|].
      intros f2 _.
      apply emits_bind;
        [destruct (String.eqb _ _);
           [now apply emits_update_op_child_no_bulk | apply emits_ret]|].
      intros f3 _.
      apply emits_bind;
        [destruct (String.eqb _ _);
           [now apply emits_delete_op_child_no_bulk | apply emits_ret]|].
      intros f4 _.
      apply emits_bind;
        [destruct (String.eqb _ _);
           [now apply emits_truncate_op_child_no_bulk | apply emits_ret]|].
      intros f5 _. apply emits_ret.
    - intros [[node' filters]|] _; [|apply emits_ret].
      apply (emits_weaken filtered_sync);
        [apply no_bulk_filtered_sync | apply emits_payloads_sync]. }
  destruct (Hemits _ _ _ Hrun) as (new & -> & Hnew).
  exists new. split; [reflexivity|]. split; [exact Hnew|].
  unfold bulk_docs. rewrite omap_app.
  assert (Hnone : omap (fun ev => match ev with
                                  | EvBulk docs _ _ => Some docs
                                  | _ => None
                                  end) new = []).
  { clear -Hnew. induction Hnew as [|ev new Hev _ IH]; [reflexivity|].
    destruct ev; try exact IH. destruct Hev. }
  now rewrite Hnone, app_nil_r.
Qed.

End RunValidation.

Section RootUpdatePipeline.
Import Spec Spec2.

Variable self : Sync.t.

Local Abbreviation root_table := (Node.table (Sync.root self)).

(** X18: a run of [UPDATE] payloads on the root table of a sync without a
    routing column, each payload holding the primary keys in [new]: the
    documents of the payloads whose primary key changed are deleted under
    their old ids in one bulk write (none when no key changed), and then
    the new primary-key records of all payloads are synced, chunk by
    chunk. *)
Theorem update_root_deletes_old_and_syncs_new payloads n (tr : list event) :
  Node.is_root (Sync.root self) = true ->
  Sync.routing_column self = None ->
  payloads <> [] ->
  run_on self UPDATE (Sync.root self) payloads ->
  Forall (fun p => Forall (fun key => is_Some (Payload.new p !! key))
                     (Node.model_primary_keys (Sync.root self))) payloads ->
  Sync.FILTER_CHUNK_SIZE self = S n ->
  let docs :=
    map (old_delete_doc self) (filter (primary_key_changed self) payloads) in
  let records := map (new_primary_fields self) payloads in
  let cs := chunks_go (length records) records (S n) in
  Sync._payloads self payloads tr
  = (Ok tt,
     (tr ++ match docs with [] => [] | _ => [EvBulk docs None None] end)
     ++ concat (map (fun _ => map (fun c => EvSync {[ root_table := c ]}) cs)
                  cs)).
Proof.
  intros Hroot Hrouting Hne Hrun Hnew Hsize docs records cs.
  assert (Hrec : records <> []).
  { unfold records. destruct payloads; [congruence | discriminate]. }
  unfold Sync._payloads. unfold bind at 1.
  rewrite (payloads_filters_dispatch self UPDATE (Sync.root self) payloads tr);
    [| unfold TG_OP, UPDATE; set_solver | exact Hne | exact Hrun
     | eapply Forall_impl; [exact Hnew|];
       intros p Hp; right; exact (proj1 (data_new_on_keys p _ Hp)) ].
  cbv zeta. rewrite Hroot.
  change (String.eqb UPDATE INSERT) with false.
  change (String.eqb UPDATE UPDATE) with true.
  change (String.eqb UPDATE DELETE) with false.
  change (String.eqb UPDATE TRUNCATE) with false.
  cbv iota.
  unfold bind at 1. unfold ret at 1.
  unfold bind at 1. unfold ret at 1.
  unfold bind at 1.
  rewrite (update_op_root_without_routing self payloads _ [] tr
             Hroot Hrouting Hnew) by apply lookup_insert_eq.
  cbn [app]. fold docs records.
  unfold bind at 1. unfold ret at 1.
  unfold bind at 1. unfold ret at 1.
  unfold ret at 1.
  apply (payloads_sync_on_root self _ records n _ Hroot);
    [apply lookup_insert_eq | exact Hrec | exact Hsize].
Qed.

End RootUpdatePipeline.

(** ** Document ids: joining and splitting *)

Section SplitFacts.
Import Spec Spec2.

Lemma append_cons x s t : String x s +:+ t = String x (s +:+ t).
Proof. reflexivity. Qed.

Lemma append_nil_l s : "" +:+ s = s.
Proof. reflexivity. Qed.

Lemma append_snoc cur c r : (cur +:+ String c "") +:+ r = cur +:+ String c r.
Proof.
  induction cur as [|x cur IH]; [reflexivity|].
  rewrite !append_cons. f_equal. exact IH.
Qed.

Lemma append_empty_r s : s +:+ "" = s.
Proof.
  induction s as [|x s IH]; [reflexivity|].
  rewrite append_cons. f_equal. exact IH.
Qed.

Lemma split_go_no_sep c s cur :
  no_char c s -> split_go (String c "") 0 cur s = [cur +:+ s].
Proof.
  unfold no_char. revert cur. induction s as [|x s IH]; intros cur H.
  - cbn [split_go]. now rewrite append_empty_r.
  - cbn [all_chars] in H. apply andb_prop in H as [Hx Hs].
    apply negb_true_iff, Ascii.eqb_neq in Hx.
    cbn [split_go String.prefix].
    destruct (ascii_dec c x) as [->|_]; [congruence|].
    rewrite (IH _ Hs). now rewrite append_snoc.
Qed.

Lemma split_go_sep c s rest cur :
  no_char c s ->
  split_go (String c "") 0 cur (s +:+ String c rest)
  = (cur +:+ s) :: split_go (String c "") 0 "" rest.
Proof.
  unfold no_char. revert cur. induction s as [|x s IH]; intros cur H.
  - rewrite append_nil_l. cbn [split_go String.prefix String.length Nat.sub].
    destruct (ascii_dec c c) as [_|Hne]; [|congruence].
    replace (String.prefix "" rest) with true by (now destruct rest).
    now rewrite append_empty_r.
  - cbn [all_chars] in H. apply andb_prop in H as [Hx Hs].
    apply negb_true_iff, Ascii.eqb_neq in Hx.
    rewrite append_cons. cbn [split_go String.prefix].
    destruct (ascii_dec c x) as [->|_]; [congruence|].
    rewrite (IH _ Hs). now rewrite append_snoc.
Qed.

(** Splitting what was joined gives the parts back, when no part holds the
    delimiter. *)
Lemma split_go_concat c parts :
  parts <> [] -> Forall (no_char c) parts ->
  split_go (String c "") 0 "" (String.concat (String c "") parts) = parts.
Proof.
  intros Hne Hall. induction Hall as [|x parts Hx Hparts IH]; [congruence|].
  destruct parts as [|y parts].
  - cbn [String.concat]. now rewrite (split_go_no_sep c x "" Hx), append_nil_l.
  - change (String.concat (String c "") (x :: y :: parts))
      with (x +:+ String c (String.concat (String c "") (y :: parts))).
    rewrite (split_go_sep c x _ "" Hx), append_nil_l.
    now rewrite IH.
Qed.

End SplitFacts.

Section DocIds.
Import Spec Spec2.

Variable self : Sync.t.

Local Abbreviation root_keys := (Node.model_primary_keys (Sync.root self)).

Lemma where_loop params keys :
  forall n (acc : gmap string value) (tr : list event),
    n + length keys <= length params ->
    for_each (imap (fun i key => (n + i, key)) keys)
      (fun where_ '(i, key) =>
         let* param := list_getitem params i in
         ret (<[key := VStr param]> where_))
      acc tr
    = (Ok (fold_left (fun d kv => <[kv.1 := kv.2]> d)
             (zip keys (map VStr (drop n params))) acc), tr).
Proof.
  induction keys as [|key keys IH]; intros n acc tr Hlen; [reflexivity|].
  cbn [imap for_each length] in *.
  destruct (params !! n) as [param|] eqn:Hn;
    [|apply lookup_ge_None in Hn; lia].
  unfold bind at 1. unfold bind at 1. unfold list_getitem at 1.
  rewrite Nat.add_0_r, Hn. unfold ret at 1. unfold ret at 1.
  rewrite (imap_ext _ (fun i key => (S n + i, key)))
    by (intros; simpl; f_equal; lia).
  rewrite IH by lia.
  rewrite (drop_S _ _ _ Hn). reflexivity.
Qed.

Lemma where_loop_short params keys :
  forall n (acc : gmap string value) (tr : list event),
    n <= length params -> length params < n + length keys ->
    for_each (imap (fun i key => (n + i, key)) keys)
      (fun where_ '(i, key) =>
         let* param := list_getitem params i in
         ret (<[key := VStr param]> where_))
      acc tr
    = (Raise IndexError, tr).
Proof.
  induction keys as [|key keys IH]; intros n acc tr Hle Hlt;
    [simpl in Hlt; lia|].
  cbn [imap for_each length] in *.
  unfold bind at 1. unfold bind at 1. unfold list_getitem at 1.
  rewrite Nat.add_0_r.
  destruct (params !! n) as [param|] eqn:Hn; [|reflexivity].
  apply lookup_lt_Some in Hn.
  unfold ret at 1. unfold ret at 1.
  rewrite (imap_ext _ (fun i key => (S n + i, key)))
    by (intros; simpl; f_equal; lia).
  apply IH; lia.
Qed.

(** X11: the document id made from primary-key values resolves to the
    record of the primary keys of the root: with a delimiter of one
    character that occurs in the text of no value, and at least as many
    values as the root has primary keys, joining the values with
    [get_doc_id] and splitting the id again gives each key the text of its
    value (a string, also for a value that was a number). *)
Theorem doc_id_resolves_to_root_keys c values table (tr : list event) :
  Sync.PRIMARY_KEY_DELIMITER self = String c "" ->
  values <> [] ->
  Forall (fun v => no_char c (str_value v)) values ->
  length root_keys <= length values ->
  (let* doc_id := Sync.get_doc_id self values table in
   Sync.where_of_doc_id self doc_id) tr
  = (Ok (dict_of (zip root_keys (map (fun v => VStr (str_value v)) values))),
     tr).
Proof.
  intros Hdelim Hne Hchars Hlen.
  assert (Hparts : map str_value values <> [])
    by (destruct values; [congruence | discriminate]).
  assert (Hclean : Forall (no_char c) (map str_value values))
    by (clear -Hchars; induction Hchars; constructor; auto).
  unfold bind at 1. unfold Sync.get_doc_id.
  destruct values as [|v vs]; [congruence|].
  unfold ret at 1. unfold Sync.where_of_doc_id, split.
  rewrite Hdelim. change (String.eqb (String c "") "") with false. cbv iota.
  unfold bind at 1. unfold ret at 1.
  rewrite (split_go_concat c _ Hparts Hclean).
  rewrite (where_loop (map str_value (v :: vs)) root_keys 0 ∅ tr)
    by (rewrite length_map; simpl; exact Hlen).
  unfold dict_of. rewrite drop_0, map_map. reflexivity.
Qed.

(** X12: a document id with fewer parts than the root has primary keys
    cannot be resolved: [IndexError] is raised. *)
Theorem short_doc_id_raises doc_id (tr : list event) :
  Sync.PRIMARY_KEY_DELIMITER self <> "" ->
  length (split_go (Sync.PRIMARY_KEY_DELIMITER self) 0 "" doc_id)
  < length root_keys ->
  Sync.where_of_doc_id self doc_id tr = (Raise IndexError, tr).
Proof.
  intros Hdelim Hshort. unfold Sync.where_of_doc_id, split.
  apply String.eqb_neq in Hdelim. rewrite Hdelim.
  unfold bind at 1. unfold ret at 1.
  apply (where_loop_short _ root_keys 0 ∅ tr); simpl; lia.
Qed.

End DocIds.

(** ** Batches of the consumer: groups and runs *)

Section Groups.
Import Spec Spec2 Orchestrator.

Lemma on_table_snoc tbl l p :
  on_table tbl (l ++ [p])
  = on_table tbl l ++ (if String.eqb tbl (Payload.table p) then [p] else []).
Proof.
  unfold on_table. rewrite List.filter_app. cbn [List.filter].
  now destruct (String.eqb tbl (Payload.table p)).
Qed.

Lemma on_table_none tbl l :
  (forall q, In q l -> Payload.table q <> tbl) -> on_table tbl l = [].
Proof.
  intros H. induction l as [|q l IH]; [reflexivity|].
  cbn [on_table List.filter].
  destruct (String.eqb_spec tbl (Payload.table q)) as [->|_].
  - exfalso. apply (H q); [now left | reflexivity].
  - apply IH. intros q' Hq'. apply H. now right.
Qed.

Lemma group_append_tables p l tables :
  List.NoDup tables ->
  group_append p (map (fun t => (t, on_table t l)) tables)
  = map (fun t => (t, on_table t (l ++ [p])))
      (if existsb (fun t => String.eqb t (Payload.table p)) tables
       then tables else tables)
    ++ (if existsb (fun t => String.eqb t (Payload.table p)) tables
        then [] else [(Payload.table p, [p])]).
Proof.
  induction 1 as [|t tables Hnotin Hnodup IH].
  - reflexivity.
  - cbn [map group_append existsb].
    destruct (String.eqb_spec t (Payload.table p)) as [Heq|Hne].
    + cbn [orb]. rewrite app_nil_r. cbn [map]. f_equal.
      * rewrite on_table_snoc, Heq, String.eqb_refl. reflexivity.
      * apply map_ext_in. intros t' Ht'.
        rewrite on_table_snoc.
        destruct (String.eqb_spec t' (Payload.table p)) as [Heq'|_];
          [|now rewrite app_nil_r].
        exfalso. apply Hnotin. congruence.
    + cbn [orb]. rewrite IH.
      assert (Ht : on_table t (l ++ [p]) = on_table t l).
      { rewrite on_table_snoc.
        destruct (String.eqb_spec t (Payload.table p)); [contradiction|].
        apply app_nil_r. }
      destruct (existsb _ tables); cbn [map app]; now rewrite Ht.
Qed.

Lemma existsb_table_In tbl tables :
  existsb (fun t => String.eqb t tbl) tables = true <-> In tbl tables.
Proof.
  rewrite existsb_exists. split.
  - intros (t & Hin & Heq). apply String.eqb_eq in Heq. now subst.
  - intros Hin. exists tbl. split; [exact Hin | apply String.eqb_refl].
Qed.

(** The groups built from a prefix [l] of the batch, continued with the
    payloads [rest]. *)
Lemma group_fold rest :
  forall l tables,
    List.NoDup tables ->
    (forall q, In q l -> In (Payload.table q) tables) ->
    (forall t, In t tables -> on_table t l <> []) ->
    let tables' :=
      fold_left
        (fun tables p =>
           if existsb (fun t => String.eqb t (Payload.table p)) tables
           then tables else tables ++ [Payload.table p])
        rest tables in
    fold_left (fun groups p => group_append p groups) rest
      (map (fun t => (t, on_table t l)) tables)
    = map (fun t => (t, on_table t (l ++ rest))) tables'
    /\ List.NoDup tables'
    /\ (forall t, In t tables' -> on_table t (l ++ rest) <> [])
    /\ (forall q, In q (l ++ rest) -> In (Payload.table q) tables').
Proof.
  induction rest as [|p rest IH]; intros l tables Hnodup Hall Hne; cbn [fold_left].
  - rewrite app_nil_r. auto.
  - rewrite (group_append_tables p l tables Hnodup).
    destruct (existsb _ tables) eqn:Hex.
    + rewrite app_nil_r.
      apply existsb_table_In in Hex.
      specialize (IH (l ++ [p]) tables Hnodup).
      rewrite <- app_assoc in IH. apply IH.
      * intros q Hq. apply in_app_or in Hq as [Hq|[<-|[]]]; auto.
      * intros t Ht. rewrite on_table_snoc. intros Happ.
        apply app_eq_nil in Happ as [Happ _]. exact (Hne t Ht Happ).
    + assert (Hnot : ~ In (Payload.table p) tables).
      { intros Hin. apply existsb_table_In in Hin. congruence. }
      assert (Hnew : on_table (Payload.table p) (l ++ [p]) = [p]).
      { rewrite on_table_snoc, String.eqb_refl.
        rewrite on_table_none; [reflexivity|].
        intros q Hq Heq. apply Hnot. rewrite <- Heq. now apply Hall. }
      assert (Hinit :
        map (fun t => (t, on_table t (l ++ [p]))) tables
          ++ [(Payload.table p, [p])]
        = map (fun t => (t, on_table t (l ++ [p]))) (tables ++ [Payload.table p])).
      { rewrite List.map_app. cbn [map]. now rewrite Hnew. }
      rewrite Hinit.
      specialize (IH (l ++ [p]) (tables ++ [Payload.table p])).
      rewrite <- app_assoc in IH. apply IH.
      * apply NoDup_ListNoDup, NoDup_app. repeat split.
        -- now apply NoDup_ListNoDup.
        -- intros t Ht Ht'. apply list_elem_of_In in Ht.
           apply list_elem_of_singleton in Ht'. subst. contradiction.
        -- apply NoDup_singleton.
      * intros q Hq. apply in_or_app.
        apply in_app_or in Hq as [Hq|[<-|[]]]; [left; auto | right; now left].
      * intros t Ht. apply in_app_or in Ht as [Ht|[<-|[]]].
        -- rewrite on_table_snoc. intros Happ.
           apply app_eq_nil in Happ as [Happ _]. exact (Hne t Ht Happ).
        -- rewrite Hnew. discriminate.
Qed.

(** X13: the grouping of a batch of inserts: the groups are, table by
    table in the order in which the tables first appear, the payloads of
    that table in the order of the batch; no table has two groups and no
    group is empty. *)
Theorem group_by_table_stable payloads :
  group_by_table payloads
  = map (fun t => (t, on_table t payloads)) (tables_in_order payloads)
  /\ List.NoDup (tables_in_order payloads)
  /\ (forall t, In t (tables_in_order payloads) -> on_table t payloads <> [])
  /\ (forall q, In q payloads -> In (Payload.table q) (tables_in_order payloads)).
Proof.
  unfold group_by_table, tables_in_order.
  apply (group_fold payloads [] []).
  - constructor.
  - intros q [].
  - intros t [].
Qed.

End Groups.

Section Runs.
Import Spec Spec2 Orchestrator.

Context {DB : Type}.
Variable self : Sync.t.

Lemma differ_false p q :
  differ p q = false
  <-> Payload.tg_op p = Payload.tg_op q /\ Payload.table p = Payload.table q.
Proof.
  unfold differ. rewrite orb_false_iff, !negb_false_iff, !String.eqb_eq.
  reflexivity.
Qed.

Lemma for_each_single (m : list Payload.t -> St (state DB) unit) run st :
  for_each [run] (fun _ run => m run) tt st = m run st.
Proof.
  cbn [for_each]. unfold bind. destruct (m run st) as [[[]|e] st']; reflexivity.
Qed.

(** The loop of the mixed case processes the runs one after the other. *)
Lemma runs_loop_split payloads :
  forall pending (st : state DB),
    runs_loop self pending payloads st
    = for_each (split_runs pending payloads)
        (fun _ run => bulk_payloads self run) tt st.
Proof.
  induction payloads as [|p rest IH]; intros pending st; [reflexivity|].
  cbn [runs_loop split_runs].
  destruct rest as [|p2 rest'].
  - now rewrite (for_each_single (bulk_payloads self)).
  - destruct (differ p p2).
    + cbn [for_each]. unfold bind.
      destruct (bulk_payloads self (pending ++ [p]) st) as [[[]|e] st'];
        [apply IH | reflexivity].
    + apply IH.
Qed.

Lemma concat_split_runs payloads :
  forall pending, payloads <> [] ->
  concat (split_runs pending payloads) = pending ++ payloads.
Proof.
  induction payloads as [|p rest IH]; intros pending Hne; [congruence|].
  cbn [split_runs]. destruct rest as [|p2 rest'].
  - cbn [concat]. now rewrite app_nil_r.
  - destruct (differ p p2).
    + cbn [concat]. rewrite IH by discriminate.
      now rewrite <- app_assoc.
    + rewrite IH by discriminate. now rewrite <- app_assoc.
Qed.

Lemma uniform_snoc pending p :
  uniform pending ->
  (forall q, q ∈ pending ->
     Payload.tg_op q = Payload.tg_op p /\ Payload.table q = Payload.table p) ->
  uniform (pending ++ [p]).
Proof.
  intros Hu Hp a b Ha Hb.
  apply elem_of_app in Ha as [Ha|Ha]; apply elem_of_app in Hb as [Hb|Hb];
    try apply list_elem_of_singleton in Ha;
    try apply list_elem_of_singleton in Hb; subst.
  - now apply Hu.
  - now apply Hp.
  - destruct (Hp b Hb). split; congruence.
  - auto.
Qed.

Lemma split_runs_uniform payloads :
  forall pending,
    uniform pending ->
    (forall q p, q ∈ pending -> head payloads = Some p ->
       Payload.tg_op q = Payload.tg_op p /\ Payload.table q = Payload.table p) ->
    Forall (fun run => run <> [] /\ uniform run) (split_runs pending payloads).
Proof.
  induction payloads as [|p rest IH]; intros pending Hu Hnext; [constructor|].
  cbn [split_runs].
  assert (Hu' : uniform (pending ++ [p])).
  { apply uniform_snoc; [exact Hu|]. intros q Hq. now apply Hnext. }
  assert (Hne : pending ++ [p] <> []) by (now destruct pending).
  destruct rest as [|p2 rest'].
  - constructor; [split; assumption | constructor].
  - destruct (differ p p2) eqn:Hd.
    + constructor; [split; assumption|].
      apply IH; [intros a b Ha; inversion Ha | intros q p' Hq; inversion Hq].
    + apply differ_false in Hd as [Hop Htab].
      apply IH; [exact Hu'|].
      intros q p' Hq [= <-].
      apply elem_of_app in Hq as [Hq|Hq].
      * destruct (Hnext q p Hq eq_refl). split; congruence.
      * apply list_elem_of_singleton in Hq. subst. auto.
Qed.

Lemma for_each_groups (groups : list (string * list Payload.t)) (st : state DB) :
  for_each groups (fun _ '(_, _payload) => bulk_payloads self _payload) tt st
  = for_each (map snd groups) (fun _ run => bulk_payloads self run) tt st.
Proof.
  revert st. induction groups as [|[t ps] groups IH]; intros st; [reflexivity|].
  cbn [map for_each snd]. unfold bind.
  destruct (bulk_payloads self ps st) as [[[]|e] st']; [apply IH | reflexivity].
Qed.

Lemma split_runs_head payloads :
  forall pending p rest,
    payloads = p :: rest ->
    exists run runs,
      split_runs pending payloads = run :: runs
      /\ head run = head (pending ++ [p]).
Proof.
  induction payloads as [|p0 rest0 IH]; intros pending p rest [= -> ->].
  cbn [split_runs]. destruct rest as [|p2 rest'].
  - eauto.
  - destruct (differ p p2); [eauto|].
    destruct (IH (pending ++ [p]) p2 rest' eq_refl) as (run & runs & -> & Hh).
    exists run, runs. split; [reflexivity|].
    rewrite Hh. now destruct pending.
Qed.

Lemma split_runs_breaks payloads :
  forall pending, breaks_between (split_runs pending payloads).
Proof.
  induction payloads as [|p rest IH]; intros pending; [exact I|].
  cbn [split_runs]. destruct rest as [|p2 rest'].
  - exact I.
  - destruct (differ p p2) eqn:Hd; [|apply IH].
    pose proof (IH []) as Hrest.
    destruct (split_runs_head (p2 :: rest') [] p2 rest' eq_refl)
      as (next & runs & Heq & Hh).
    rewrite Heq in *. cbn [breaks_between]. split; [|exact Hrest].
    intros a b Ha Hb. rewrite last_snoc in Ha. injection Ha as <-.
    rewrite Hh in Hb. injection Hb as <-. exact Hd.
Qed.

(** X14: the consumer hands a batch to the resolver as a sequence of
    non-empty lists of payloads that each have one operation and one
    table, as [_payloads] assumes, and every payload of the batch is in
    one of the lists.  For a batch of inserts the lists are the groups by
    table, and different lists hold different tables.  For any other batch
    they are the maximal runs in the order of the batch: put end to end
    they are the batch, and where one run ends and the next begins the
    operation or the table changes. *)
Theorem process_batch_runs payloads :
  (forall st : state DB,
      process_batch self payloads st
      = for_each (batch_runs payloads)
          (fun _ run => bulk_payloads self run) tt st)
  /\ Forall (fun run => run <> [] /\ uniform run) (batch_runs payloads)
  /\ (forall p, In p payloads -> exists run, In run (batch_runs payloads) /\ In p run)
  /\ (all_inserts payloads = true -> tables_apart (batch_runs payloads))
  /\ (all_inserts payloads = false ->
      concat (batch_runs payloads) = payloads
      /\ breaks_between (batch_runs payloads)).
Proof.
  unfold process_batch, batch_runs.
  destruct (all_inserts payloads) eqn:Hins.
  - assert (Hgroups :
      group_by_table payloads
      = map (fun t => (t, on_table t payloads)) (tables_in_order payloads)
      /\ List.NoDup (tables_in_order payloads)
      /\ (forall t, In t (tables_in_order payloads) -> on_table t payloads <> [])
      /\ (forall q, In q payloads
                    -> In (Payload.table q) (tables_in_order payloads))).
    { apply (group_fold payloads [] []);
        [constructor | intros q [] | intros t []]. }
    destruct Hgroups as (Hg & Hnodup & Hne & Hcover).
    split; [intros st; apply for_each_groups|].
    assert (Hop : forall p, In p payloads -> Payload.tg_op p = INSERT).
    { unfold all_inserts in Hins. destruct payloads as [|p0 rest]; [discriminate|].
      rewrite forallb_forall in Hins. intros p Hp.
      now apply String.eqb_eq, Hins. }
    rewrite Hg, map_map. cbn [snd].
    split; [|split; [|split; [|discriminate]]].
    + apply Forall_forall. intros run Hrun.
      apply list_elem_of_In, in_map_iff in Hrun as (t & <- & Ht).
      split; [now apply Hne|].
      intros a b Ha Hb. apply list_elem_of_In in Ha, Hb.
      unfold on_table in Ha, Hb.
      apply List.filter_In in Ha as [Ha Hta], Hb as [Hb Htb].
      apply String.eqb_eq in Hta, Htb.
      split; [rewrite (Hop a Ha), (Hop b Hb); reflexivity | congruence].
    + intros p Hp. exists (on_table (Payload.table p) payloads). split.
      * apply in_map_iff. exists (Payload.table p). split; [reflexivity|].
        now apply Hcover.
      * unfold on_table. apply List.filter_In. split; [exact Hp|].
        apply String.eqb_refl.
    + intros _ i j run1 run2 p q Hi Hj Hij Hp Hq Heq.
      change (map (fun t => on_table t payloads) (tables_in_order payloads))
        with ((fun t => on_table t payloads) <$> tables_in_order payloads)
        in Hi, Hj.
      rewrite list_lookup_fmap in Hi, Hj.
      destruct (tables_in_order payloads !! i) as [t1|] eqn:Ht1; [|discriminate].
      destruct (tables_in_order payloads !! j) as [t2|] eqn:Ht2; [|discriminate].
      injection Hi as <-. injection Hj as <-.
      apply list_elem_of_In in Hp, Hq. unfold on_table in Hp, Hq.
      apply List.filter_In in Hp as [_ Hp], Hq as [_ Hq].
      apply String.eqb_eq in Hp, Hq.
      apply Hij. apply NoDup_ListNoDup in Hnodup.
      apply (NoDup_lookup _ i j t1 Hnodup Ht1). congruence.
  - split; [intros st; apply runs_loop_split|].
    split; [|split; [|split; [discriminate|]]].
    + apply split_runs_uniform.
      * intros a b Ha. inversion Ha.
      * intros q p Hq. inversion Hq.
    + intros p Hp. destruct payloads as [|p0 rest]; [destruct Hp|].
      pose proof (concat_split_runs (p0 :: rest) [] ltac:(discriminate)) as Hc.
      cbn [app] in Hc. rewrite <- Hc in Hp.
      apply in_concat in Hp as (run & Hrun & Hin). eauto.
    + intros _. split; [|apply split_runs_breaks].
      destruct payloads as [|p0 rest]; [reflexivity|].
      apply (concat_split_runs (p0 :: rest) []). discriminate.
Qed.

End Runs.

(** ** More on the consumer and the pull *)

Section ConsumerMore.
Import Spec Spec2 Orchestrator.

Context {DB : Type}.
Variable src : source DB.
Variable self : Sync.t.
Variable LOGICAL_SLOT_CHUNK_SIZE : nat.

Lemma minimum_le x xs :
  (minimum x xs <= x)%Z /\ (forall y, In y xs -> (minimum x xs <= y)%Z).
Proof.
  unfold minimum. revert x. induction xs as [|z xs IH]; intros x.
  - split; [reflexivity | intros y []].
  - cbn [fold_left]. destruct (IH (Z.min x z)) as [Hle Hall]. split; [lia|].
    intros y [<-|Hy]; [lia | now apply Hall].
Qed.

Lemma advance_checkpoint_source payloads (st : state DB) r st' :
  advance_checkpoint src payloads st = (r, st') ->
  db st' = db st /\ _truncate st' = _truncate st
  /\ slot_log st' = slot_log st /\ events st' = events st.
Proof.
  unfold advance_checkpoint.
  destruct (only_None _); [now intros [= _ <-]|].
  intros H.
  apply bind_inv in H as [(lowest & s1 & H1 & H)|(e & H1 & _)];
    [|now injection H1 as _ <-].
  unfold lift in H1. injection H1 as _ <-.
  apply bind_inv in H as [(d & s1 & H1 & H)|(e & H1 & _)]; [|discriminate].
  unfold get_db in H1. injection H1 as _ <-.
  apply bind_inv in H as [(value & s1 & H1 & H)|(e & H1 & _)];
    [|now injection H1 as _ <-].
  unfold lift in H1. injection H1 as _ <-.
  unfold set_checkpoint in H. now injection H as _ <-.
Qed.

(** X15: the consumer leaves the replication slot to the drain: whatever
    a batch holds and whether it is processed or raises, [_on_publish]
    neither peeks nor advances the slot, and leaves the flag [_truncate]
    as it is. *)
Theorem on_publish_leaves_slot payloads (st : state DB) r st' :
  _on_publish src self payloads st = (r, st') ->
  slot_log st' = slot_log st /\ _truncate st' = _truncate st.
Proof.
  unfold _on_publish. intros H.
  apply bind_inv in H as [([] & st1 & Hproc & H)|(e & Hproc & _)].
  - apply preserves_process_batch in Hproc as (_ & _ & Htr & Hlog).
    apply advance_checkpoint_source in H as (_ & Htr' & Hlog' & _).
    split; congruence.
  - apply preserves_process_batch in Hproc as (_ & _ & Htr & Hlog).
    split; assumption.
Qed.

(** X16: the checkpoint a processed batch leaves is safe for a restart:
    it is below the [xmin] of every payload of the batch and below the
    current transaction id; and a batch in which no payload has an [xmin]
    leaves the stored checkpoint as it was. *)
Theorem checkpoint_below_batch payloads (st st' : state DB) :
  _on_publish src self payloads st = (Ok tt, st') ->
  (forall p x, In p payloads -> Payload.xmin p = Some x ->
     exists c, checkpoint st' = Some c /\ (c < x)%Z
               /\ (c < txid_current src (db st))%Z)
  /\ (Forall (fun p => Payload.xmin p = None) payloads ->
      checkpoint st' = checkpoint st).
Proof.
  unfold _on_publish. intros H.
  apply bind_inv in H as [([] & st1 & Hproc & H)|(e & _ & [=])].
  apply preserves_process_batch in Hproc as (Hdb & Hck & _).
  split.
  - intros p x Hp Hx.
    assert (Hsome : Exists is_Some
                      (map Payload.xmin (map (substitute_view self) payloads))).
    { rewrite xmins_substitute_view. apply Exists_exists.
      exists (Some x). split; [|eauto].
      apply list_elem_of_In, in_map_iff. eauto. }
    apply xmins_some_or_mixed in Hsome as [(x0 & xs & Hxs)|Hnone].
    + rewrite (advance_checkpoint_all_some src _ x0 xs st1 Hxs) in H.
      injection H as <-. cbn [checkpoint]. rewrite Hdb.
      eexists. split; [reflexivity|].
      rewrite xmins_substitute_view in Hxs.
      assert (Hin : In (Some x) (map Some (x0 :: xs))).
      { rewrite <- Hxs, <- Hx. now apply in_map. }
      apply in_map_iff in Hin as (y & [= ->] & Hy).
      destruct (minimum_le x0 xs) as [H0 Hall].
      destruct Hy as [->|Hy]; [lia | specialize (Hall _ Hy); lia].
    + exfalso.
      assert (Hn : Exists (fun p => Payload.xmin p = None)
                     (map (substitute_view self) payloads)).
      { apply in_map_iff in Hnone as (q & Hq & Hin).
        apply Exists_exists. exists q. split; [now apply list_elem_of_In|auto]. }
      assert (Hs : Exists (fun p => is_Some (Payload.xmin p))
                     (map (substitute_view self) payloads)).
      { apply (Exists_substitute_view self is_Some). apply Exists_exists.
        exists p. split; [now apply list_elem_of_In | rewrite Hx; eauto]. }
      rewrite (advance_checkpoint_mixed src _ st1 Hn Hs) in H. discriminate.
  - intros Hall. destruct payloads as [|p0 rest]; [discriminate|].
    rewrite advance_checkpoint_all_none in H.
    + injection H as <-. exact Hck.
    + discriminate.
    + apply Forall_forall. intros q Hq.
      apply list_elem_of_In, in_map_iff in Hq as (p & <- & Hp).
      rewrite xmin_substitute_view. rewrite Forall_forall in Hall.
      now apply Hall, list_elem_of_In.
Qed.

(** X17: [pull] stores a checkpoint and arms the truncation of the slot
    only at its end: when the drain of the slot raises (a change that
    cannot be decoded, an error of the resolver), the stored checkpoint and
    the flag [_truncate] are as before the call; when [pull] returns, the
    flag is set. *)
Theorem pull_all_or_nothing fuel (st : state DB) r st' :
  pull src self LOGICAL_SLOT_CHUNK_SIZE fuel st = (r, st') ->
  (r <> Ok true ->
   checkpoint st' = checkpoint st /\ _truncate st' = _truncate st)
  /\ (r = Ok true -> _truncate st' = true).
Proof.
  unfold pull. intros H.
  apply bind_inv in H as [(txmin & s1 & H1 & H)|(e & H1 & _)];
    [|discriminate].
  unfold get_checkpoint in H1. injection H1 as <- <-.
  apply bind_inv in H as [(d & s1 & H1 & H)|(e & H1 & _)]; [|discriminate].
  unfold get_db in H1. injection H1 as <- <-.
  apply bind_inv in H as [([] & s1 & H1 & H)|(e & H1 & _)]; [|discriminate].
  unfold run, emit in H1. injection H1 as <-.
  apply bind_inv in H as [(finished & s2 & H2 & H)|(e & H2 & ->)].
  - apply logical_slot_changes_log in H2 as (new & _ & _ & Hck & Htr).
    cbn [checkpoint _truncate] in Hck, Htr.
    destruct finished.
    + apply bind_inv in H as [(d' & s3 & H3 & H)|(e & H3 & _)]; [|discriminate].
      unfold get_db in H3. injection H3 as _ <-.
      apply bind_inv in H as [([] & s3 & H3 & H)|(e & H3 & _)]; [|discriminate].
      unfold set_checkpoint in H3. injection H3 as <-.
      apply bind_inv in H as [([] & s4 & H4 & H)|(e & H4 & _)]; [|discriminate].
      unfold set_truncate in H4. injection H4 as <-.
      injection H as <- <-. split; [congruence | reflexivity].
    + injection H as <- <-. split; [auto | discriminate].
  - apply logical_slot_changes_log in H2 as (new & _ & _ & Hck & Htr).
    cbn [checkpoint _truncate] in Hck, Htr.
    split; [auto | discriminate].
Qed.

End ConsumerMore.

(** ** The further properties on the examples *)

Section ExtraExamples.
Import Spec Spec2 Example Example2 Orchestrator.

Lemma run_on_example op node payloads :
  forallb
    (fun p =>
       bool_decide (Payload.tg_op p = op)
       && bool_decide (Payload.table p = Node.table node)
       && bool_decide (Payload.table p ∈ Tree.tables example_tree)
       && bool_decide (Payload.schema p ∈ Tree.schemas example_tree))
    payloads = true ->
  Forall
    (fun p => Tree.get_node example_tree (Payload.table p) (Payload.schema p)
              = Ok node) payloads ->
  run_on (example_sync None) op node payloads.
Proof.
  intros H Hn. unfold run_on.
  induction Hn as [|p ps Hp _ IH]; [constructor|].
  simpl in H. apply andb_prop in H as [H Hps].
  constructor; [|now apply IH].
  apply andb_prop in H as [H H4]. apply andb_prop in H as [H H3].
  apply andb_prop in H as [H1 H2].
  apply bool_decide_eq_true in H1, H2, H3, H4.
  repeat split; assumption.
Qed.

Lemma insert_root_syncs_records_witness :
  run_on (example_sync None) INSERT book two_inserts
  /\ Sync._payloads (example_sync None) two_inserts []
     = (Ok tt,
        [] ++ [EvSync {[ "book" :=
                 map (data_primary_fields (example_sync None)) two_inserts ]}])
  /\ map (data_primary_fields (example_sync None)) two_inserts
     = [{[ "id" := VInt 7 ]}; {[ "id" := VInt 11 ]}].
Proof.
  assert (Hrun : run_on (example_sync None) INSERT book two_inserts).
  { apply (run_on_example INSERT book); [reflexivity|repeat constructor]. }
  split; [exact Hrun|]. split; [|vm_compute; reflexivity].
  refine (proj2 (proj2 (insert_root_syncs_records (example_sync None)
                          two_inserts 4999 [] _ _ Hrun _ _)) _).
  - reflexivity.
  - discriminate.
  - repeat constructor; vm_compute; eauto.
  - reflexivity.
  - simpl. lia.
Defined.

Lemma truncate_root_deletes_all_witness :
  run_on (example_sync None) TRUNCATE book two_truncates
  /\ Sync._payloads (example_sync None) two_truncates []
     = (Ok tt,
        [EvBulk [Sync.delete_doc (example_sync None) "7" None;
                 Sync.delete_doc (example_sync None) "9" None] None None]).
Proof.
  assert (Hrun : run_on (example_sync None) TRUNCATE book two_truncates).
  { apply (run_on_example TRUNCATE book); [reflexivity|repeat constructor]. }
  split; [exact Hrun|].
  refine (truncate_root_deletes_all (example_sync None) two_truncates []
            _ _ Hrun _).
  - reflexivity.
  - discriminate.
  - repeat constructor; left; vm_compute; reflexivity.
Defined.

Lemma update_root_deletes_old_and_syncs_new_witness :
  run_on (example_sync None) UPDATE book two_updates
  /\ filter (primary_key_changed (example_sync None)) two_updates
     = [payload UPDATE "book" [("id", VInt 7)] [("id", VInt 8)] (Some 102%Z)]
  /\ Sync._payloads (example_sync None) two_updates []
     = (Ok tt,
        [EvBulk [Sync.delete_doc (example_sync None) "7" None] None None;
         EvSync {[ "book" := [{[ "id" := VInt 8 ]}; {[ "id" := VInt 9 ]}] ]}]).
Proof.
  assert (Hrun : run_on (example_sync None) UPDATE book two_updates).
  { apply (run_on_example UPDATE book); [reflexivity|repeat constructor]. }
  split; [exact Hrun|]. split; [vm_compute; reflexivity|].
  assert (H := update_root_deletes_old_and_syncs_new (example_sync None)
                 two_updates 4999 []).
  rewrite H.
  - vm_compute. reflexivity.
  - reflexivity.
  - reflexivity.
  - discriminate.
  - exact Hrun.
  - repeat constructor; vm_compute; eauto.
  - reflexivity.
Defined.

Lemma payloads_unknown_table_dropped_witness :
  let p0 := payload INSERT "invoice" [] [("id", VInt 1)] (Some 109%Z) in
  (Payload.table p0 ∉ Tree.tables (Sync.tree (example_sync None)))
  /\ Sync._payloads (example_sync None) (p0 :: two_inserts) [] = (Ok tt, []).
Proof.
  intros p0.
  assert (Hout : Payload.table p0 ∉ Tree.tables (Sync.tree (example_sync None))).
  { apply (bool_decide_eq_false_1
             (Payload.table p0 ∈ Tree.tables (Sync.tree (example_sync None)))).
    vm_compute. reflexivity. }
  split; [exact Hout|].
  apply (payloads_unknown_table_dropped (example_sync None) p0 two_inserts []).
  - apply (bool_decide_eq_true_1 (Payload.tg_op p0 ∈ TG_OP)).
    vm_compute. reflexivity.
  - left. exact Hout.
Defined.

Lemma payloads_missing_key_raises_witness :
  let payloads :=
    [payload INSERT "book" [] [("id", VInt 7)] (Some 101%Z);
     payload INSERT "book" [] [("title", VStr "Emma")] (Some 101%Z)] in
  Exists (fun p => ~ keys_checked book p) payloads
  /\ Sync._payloads (example_sync None) payloads [] = (Raise RuntimeError, []).
Proof.
  intros payloads.
  assert (Hbad : Exists (fun p => ~ keys_checked book p) payloads).
  { right. left. intros [He|Hk].
    - apply (f_equal (fun d => d !! "title")) in He. vm_compute in He.
      discriminate.
    - apply Forall_inv in Hk. vm_compute in Hk. destruct Hk as [v Hv].
      discriminate. }
  split; [exact Hbad|].
  apply (payloads_missing_key_raises (example_sync None) INSERT book payloads []).
  - apply (bool_decide_eq_true_1 (INSERT ∈ TG_OP)). vm_compute. reflexivity.
  - apply (run_on_example INSERT book); [reflexivity|repeat constructor].
  - exact Hbad.
Defined.

Lemma child_run_never_deletes_witness :
  let p0 := payload DELETE "author" [("id", VInt 3)] [] (Some 110%Z) in
  Sync._payloads (example_sync None) [p0] []
  = (Ok tt, [EvSync {[ "book" := [{[ "id" := VStr "7" ]};
                                   {[ "id" := VStr "9" ]}] ]}])
  /\ exists new,
       [EvSync {[ "book" := [{[ "id" := VStr "7" ]}; {[ "id" := VStr "9" ]}] ]}]
       = [] ++ new
       /\ Forall no_bulk new
       /\ bulk_docs
            [EvSync {[ "book" := [{[ "id" := VStr "7" ]};
                                   {[ "id" := VStr "9" ]}] ]}]
          = bulk_docs [].
Proof.
  intros p0.
  assert (Hrun : Sync._payloads (example_sync None) [p0] []
    = (Ok tt, [EvSync {[ "book" := [{[ "id" := VStr "7" ]};
                                     {[ "id" := VStr "9" ]}] ]}]))
    by (vm_compute; reflexivity).
  split; [exact Hrun|].
  apply (child_run_never_deletes (example_sync None) p0 [] author [] (Ok tt)
           _ eq_refl eq_refl Hrun).
Defined.

Lemma doc_id_resolves_to_root_keys_witness :
  let values := [VInt 12; VInt (-3)] in
  (let* doc_id := Sync.get_doc_id order_sync values "order_line" in
   Sync.where_of_doc_id order_sync doc_id) []
  = (Ok (dict_of (zip ["order_id"; "line"]
                    (map (fun v => VStr (str_value v)) values))), [])
  /\ Sync.get_doc_id order_sync values "order_line" [] = (Ok "12|-3", [])
  /\ dict_of (zip ["order_id"; "line"]
                (map (fun v => VStr (str_value v)) values))
     = {[ "order_id" := VStr "12"; "line" := VStr "-3" ]}.
Proof.
  intros values. split; [|split; vm_compute; reflexivity].
  apply (doc_id_resolves_to_root_keys order_sync "|"%char values
           "order_line" []).
  - reflexivity.
  - discriminate.
  - repeat constructor.
  - simpl. lia.
Defined.

Lemma short_doc_id_raises_witness :
  length (split_go (Sync.PRIMARY_KEY_DELIMITER order_sync) 0 "" "12") = 1
  /\ Sync.where_of_doc_id order_sync "12" [] = (Raise IndexError, []).
Proof.
  split; [reflexivity|].
  apply (short_doc_id_raises order_sync "12" []).
  - discriminate.
  - simpl. lia.
Defined.

(** Scenario S6 of the specification: the inserts of a batch are grouped
    by table. *)
Example interleaved_inserts_groups :
  batch_runs interleaved_inserts
  = [[payload INSERT "book" [] [("id", VInt 10)] (Some 107%Z);
      payload INSERT "book" [] [("id", VInt 11)] (Some 108%Z)];
     [payload INSERT "author" [] [("id", VInt 4)] (Some 107%Z)]].
Proof. vm_compute. reflexivity. Qed.

Lemma on_publish_leaves_slot_witness :
  let st' :=
    (_on_publish example_source (example_sync None) mixed_batch after_pull).2 in
  slot_log st' = slot_log after_pull /\ _truncate st' = true.
Proof.
  intros st'.
  exact (on_publish_leaves_slot example_source (example_sync None)
           mixed_batch after_pull
           (_on_publish example_source (example_sync None)
              mixed_batch after_pull).1 st' eq_refl).
Defined.

Lemma checkpoint_below_batch_witness :
  let st' :=
    (_on_publish example_source (example_sync None) buffered_batch
       after_pull).2 in
  _on_publish example_source (example_sync None) buffered_batch after_pull
  = (Ok tt, st')
  /\ exists c, checkpoint st' = Some c /\ (c < 95)%Z
               /\ (c < txid_current example_source (db after_pull))%Z.
Proof.
  intros st'.
  assert (H : _on_publish example_source (example_sync None) buffered_batch
                after_pull = (Ok tt, st'))
    by (vm_compute; reflexivity).
  split; [exact H|].
  refine (proj1 (checkpoint_below_batch example_source (example_sync None)
                   buffered_batch after_pull st' H) _ 95%Z _ _).
  - left. reflexivity.
  - reflexivity.
Defined.

(** A pull that meets a change it cannot decode. *)
Lemma pull_all_or_nothing_witness :
  let st :=
    example_state 100
      [{| xid := 99; data := "table public.book: UPDATE: id[integer]:7" |}]
      (Some 90%Z) in
  let '(r, st') := pull example_source (example_sync None) 5000 3 st in
  r = Raise ValueError
  /\ checkpoint st' = Some 90%Z /\ _truncate st' = false
  /\ slot_log st' = [SlotPeek pull_bounds].
Proof.
  intros st.
  destruct (pull example_source (example_sync None) 5000 3 st) as [r st'] eqn:H.
  assert (Hr : r = Raise ValueError)
    by (apply (f_equal fst) in H; vm_compute in H; congruence).
  assert (Hlog : slot_log st' = [SlotPeek pull_bounds])
    by (apply (f_equal (fun x => slot_log x.2)) in H; vm_compute in H;
        symmetry; exact H).
  destruct (pull_all_or_nothing example_source (example_sync None) 5000 3
              st r st' H) as [Hkeep _].
  destruct Hkeep as [Hck Htr]; [rewrite Hr; discriminate|].
  repeat split; assumption.
Defined.

End ExtraExamples.

